(** * pyskl: bounding-box utilities ([pyskl/core/ava_utils/np_box.py])

    A shallow embedding of the box geometry functions [area], [intersection]
    and [iou], and of the [BoxList] container, together with the properties
    the specification states about them.  The string and dict helpers of the
    skeleton transformer ([pyskl/models/transformers/skeletr.py]) follow:
    granularity strings, joint parts and the merge of configuration
    defaults.

    Coordinates are IEEE-754 binary64 numbers ([np.float64], NumPy's default
    floating-point type), modelled by Rocq's primitive [float]: rounding,
    overflow to infinity, signed zeros and NaN are those of the hardware
    operations NumPy performs.  Arrays of the narrower types [float16] and
    [float32] are given by the same numbers, which hold their values
    exactly, and the operations NumPy performs in the narrower type round to
    it ([Typed]). *)

From Stdlib Require Import ZArith List Bool Lia String Floats.
Import ListNotations.

Set Implicit Arguments.

(** ** The fragment of NumPy the module uses *)

Module NumPy.

(** [np.maximum] and [np.minimum] on two scalars: the first operand when it
    is NaN or compares [>] (resp. [<]) the second operand, else the second.
    A NaN in either operand is therefore returned.  Of two operands that
    compare equal the second is returned, as the vectorised loops of NumPy
    on x86-64 do; this shows only between [+0] and [-0], and where a
    property below compares two results, it does so up to the sign of a
    zero. *)
Definition maximum (x1 x2 : float) : float :=
  if is_nan x1 || (x2 <? x1)%float then x1 else x2.

Definition minimum (x1 x2 : float) : float :=
  if is_nan x1 || (x1 <? x2)%float then x1 else x2.

(** Python's [a > b] on floats. *)
Definition gt (a b : float) : bool := (b <? a)%float.

(** A row of an [N, 4] array. *)
Definition row4 : Type := float * float * float * float.

(** [r[k]] for a row of four entries, [k] in [0..3]. *)
Definition item (k : nat) (r : row4) : float :=
  let '(r0, r1, r2, r3) := r in
  match k with
  | 0 => r0
  | 1 => r1
  | 2 => r2
  | _ => r3
  end.

(** [a[:, k]]: column [k] of an [N, 4] array, a 1-d array of length [N]. *)
Definition column (k : nat) (a : list row4) : list float :=
  map (item k) a.

(** An element-wise binary operation on two 1-d arrays of equal length. *)
Fixpoint map2 {A B C : Type} (f : A -> B -> C) (u : list A) (v : list B)
  : list C :=
  match u, v with
  | x :: u', y :: v' => f x y :: map2 f u' v'
  | _, _ => []
  end.

(** An element-wise binary operation on two [N, M] arrays. *)
Definition map2_2d (f : float -> float -> float)
  (a b : list (list float)) : list (list float) :=
  map2 (map2 f) a b.

(** [op(u, np.transpose(v))] for [u] of shape [N, 1] and [v] of shape
    [M, 1], and likewise [op(np.expand_dims(u, axis=1),
    np.expand_dims(v, axis=0))] for 1-d [u] and [v]: broadcasting pairs
    every entry of [u] with every entry of [v], giving an [N, M] array. *)
Definition broadcast (f : float -> float -> float)
  (u v : list float) : list (list float) :=
  map (fun x => map (fun y => f x y) v) u.

(** [np.zeros(a.shape)] for a 2-d array [a]. *)
Definition zeros_like (a : list (list float)) : list (list float) :=
  map (map (fun _ => 0%float)) a.

(** [a[i, j]] where it exists. *)
Definition entry (a : list (list float)) (i j : nat) : option float :=
  match nth_error a i with
  | Some r => nth_error r j
  | None => None
  end.

(** [np.transpose(a)] for a 2-d array [a] with [n] columns. *)
Definition transpose (n : nat) (a : list (list float)) : list (list float) :=
  map (fun j => map (fun r => nth j r 0%float) a) (seq 0 n).

End NumPy.

(** ** Box geometry *)

(** The functions of the module on [float64] arrays, where every operation
    is a binary64 one.  [Typed] below has them on arrays of each
    floating-point element type. *)
Module NpBox.
Import NumPy.

Definition area (boxes : list row4) : list float :=
  map2 PrimFloat.mul
    (map2 PrimFloat.sub (column 2 boxes) (column 0 boxes))
    (map2 PrimFloat.sub (column 3 boxes) (column 1 boxes)).

Definition intersection (boxes1 boxes2 : list row4) : list (list float) :=
  let '(y_min1, x_min1, y_max1, x_max1) :=
    (column 0 boxes1, column 1 boxes1, column 2 boxes1, column 3 boxes1) in
  let '(y_min2, x_min2, y_max2, x_max2) :=
    (column 0 boxes2, column 1 boxes2, column 2 boxes2, column 3 boxes2) in
  let all_pairs_min_ymax := broadcast minimum y_max1 y_max2 in
  let all_pairs_max_ymin := broadcast maximum y_min1 y_min2 in
  let intersect_heights :=
    map2_2d maximum
      (zeros_like all_pairs_max_ymin)
      (map2_2d PrimFloat.sub all_pairs_min_ymax all_pairs_max_ymin) in
  let all_pairs_min_xmax := broadcast minimum x_max1 x_max2 in
  let all_pairs_max_xmin := broadcast maximum x_min1 x_min2 in
  let intersect_widths :=
    map2_2d maximum
      (zeros_like all_pairs_max_xmin)
      (map2_2d PrimFloat.sub all_pairs_min_xmax all_pairs_max_xmin) in
  map2_2d PrimFloat.mul intersect_heights intersect_widths.

(** The local [union] of [iou]: the denominator array. *)
Definition union (boxes1 boxes2 : list row4) : list (list float) :=
  let intersect := intersection boxes1 boxes2 in
  let area1 := area boxes1 in
  let area2 := area boxes2 in
  map2_2d PrimFloat.sub (broadcast PrimFloat.add area1 area2) intersect.

Definition iou (boxes1 boxes2 : list row4) : list (list float) :=
  let intersect := intersection boxes1 boxes2 in
  let union := union boxes1 boxes2 in
  map2_2d PrimFloat.div intersect union.

(** The entries the specification describes, box by box. *)
Definition box_area (b : row4) : float :=
  let '(y_min, x_min, y_max, x_max) := b in
  ((y_max - y_min) * (x_max - x_min))%float.

Definition box_intersection (b1 b2 : row4) : float :=
  let '(y_min1, x_min1, y_max1, x_max1) := b1 in
  let '(y_min2, x_min2, y_max2, x_max2) := b2 in
  (maximum 0 (minimum y_max1 y_max2 - maximum y_min1 y_min2)
   * maximum 0 (minimum x_max1 x_max2 - maximum x_min1 x_min2))%float.

End NpBox.

(** ** Box geometry on arrays of each floating-point element type *)

(** An array of element type [float16], [float32] or [float64] is given by
    its entries as binary64 numbers, which hold every value of the three
    types exactly.  An arithmetic operation on two arrays is computed in the
    type both convert to, the wider of the two; [np.zeros] without a type is
    [float64]. *)
Module Typed.
Import NumPy NpBox.

Inductive float_type : Type := Float16 | Float32 | Float64.

(** Precision and exponent bound of the IEEE 754 format. *)
Definition prec_of (d : float_type) : Z :=
  match d with Float16 => 11 | Float32 => 24 | Float64 => 53 end.

Definition emax_of (d : float_type) : Z :=
  match d with Float16 => 16 | Float32 => 128 | Float64 => 1024 end.

(** [np.result_type(d1, d2)]. *)
Definition result_type (d1 d2 : float_type) : float_type :=
  match d1, d2 with
  | Float64, _ | _, Float64 => Float64
  | Float32, _ | _, Float32 => Float32
  | Float16, Float16 => Float16
  end.

(** An operation of IEEE 754 in the format of [d]: the exact result rounded
    to the format, to nearest and ties to even, as [SpecFloat] defines it at
    the precision and exponent bound of the format. *)
Definition rounded
    (op : Z -> Z -> spec_float -> spec_float -> spec_float)
    (d : float_type) (x y : float) : float :=
  SF2Prim (op (prec_of d) (emax_of d) (Prim2SF x) (Prim2SF y)).

Definition sub (d : float_type) : float -> float -> float :=
  match d with Float64 => PrimFloat.sub | _ => rounded SFsub d end.

Definition add (d : float_type) : float -> float -> float :=
  match d with Float64 => PrimFloat.add | _ => rounded SFadd d end.

Definition mul (d : float_type) : float -> float -> float :=
  match d with Float64 => PrimFloat.mul | _ => rounded SFmul d end.

(** [x.astype(d)]: the number rounded to the format of [d]. *)
Definition astype (d : float_type) (x : float) : float :=
  match d with
  | Float64 => x
  | _ =>
      SF2Prim match Prim2SF x with
              | S754_finite s m e =>
                  binary_round (prec_of d) (emax_of d) s m e
              | other => other
              end
  end.

(** [area(boxes)] for [boxes] of element type [d]: the differences and the
    product are computed in [d]. *)
Definition area (d : float_type) (boxes : list row4) : list float :=
  map2 (mul d)
    (map2 (sub d) (column 2 boxes) (column 0 boxes))
    (map2 (sub d) (column 3 boxes) (column 1 boxes)).

(** [intersection(boxes1, boxes2)] for arrays of element types [d1] and
    [d2]: the differences are computed in the common type, [np.maximum]
    against the [float64] zeros gives [float64] sides, and the product is a
    binary64 one. *)
Definition intersection (d1 d2 : float_type) (boxes1 boxes2 : list row4)
  : list (list float) :=
  let d := result_type d1 d2 in
  let '(y_min1, x_min1, y_max1, x_max1) :=
    (column 0 boxes1, column 1 boxes1, column 2 boxes1, column 3 boxes1) in
  let '(y_min2, x_min2, y_max2, x_max2) :=
    (column 0 boxes2, column 1 boxes2, column 2 boxes2, column 3 boxes2) in
  let all_pairs_min_ymax := broadcast minimum y_max1 y_max2 in
  let all_pairs_max_ymin := broadcast maximum y_min1 y_min2 in
  let intersect_heights :=
    map2_2d maximum
      (zeros_like all_pairs_max_ymin)
      (map2_2d (sub d) all_pairs_min_ymax all_pairs_max_ymin) in
  let all_pairs_min_xmax := broadcast minimum x_max1 x_max2 in
  let all_pairs_max_xmin := broadcast maximum x_min1 x_min2 in
  let intersect_widths :=
    map2_2d maximum
      (zeros_like all_pairs_max_xmin)
      (map2_2d (sub d) all_pairs_min_xmax all_pairs_max_xmin) in
  map2_2d PrimFloat.mul intersect_heights intersect_widths.

(** The local [union] of [iou]: the two areas are added in their common
    type, and the [float64] intersection is subtracted in binary64. *)
Definition union (d1 d2 : float_type) (boxes1 boxes2 : list row4)
  : list (list float) :=
  let intersect := intersection d1 d2 boxes1 boxes2 in
  let area1 := area d1 boxes1 in
  let area2 := area d2 boxes2 in
  map2_2d PrimFloat.sub
    (broadcast (add (result_type d1 d2)) area1 area2) intersect.

Definition iou (d1 d2 : float_type) (boxes1 boxes2 : list row4)
  : list (list float) :=
  let intersect := intersection d1 d2 boxes1 boxes2 in
  let union := union d1 d2 boxes1 boxes2 in
  map2_2d PrimFloat.div intersect union.

End Typed.

(** ** Python values and exceptions *)

Module Py.

Inductive exn : Type :=
| ValueError (msg : string)
| KeyError (key : string)
| IndexError.

(** The outcome of a call: a returned value or a raised exception. *)
Inductive result (A : Type) : Type :=
| Return (a : A)
| Raise (e : exn).
Arguments Return {A} a.
Arguments Raise {A} e.

(** NumPy element types. [np.floating] comprises [float16], [float32],
    [float64] and [longdouble]. *)
Inductive dtype : Type :=
| bool_ | int8 | int16 | int32 | int64 | uint8 | uint16 | uint32 | uint64
| float16 | float32 | float64 | longdouble
| complex64 | complex128 | object_.

Definition dtype_eqb (a b : dtype) : bool :=
  match a, b with
  | bool_, bool_ | int8, int8 | int16, int16 | int32, int32 | int64, int64
  | uint8, uint8 | uint16, uint16 | uint32, uint32 | uint64, uint64
  | float16, float16 | float32, float32 | float64, float64
  | longdouble, longdouble | complex64, complex64
  | complex128, complex128 | object_, object_ => true
  | _, _ => false
  end.

(** [np.issubdtype(d, np.floating)]. *)
Definition is_floating (d : dtype) : bool :=
  match d with
  | float16 | float32 | float64 | longdouble => true
  | _ => false
  end.

(** An [np.ndarray]: element type, shape, and the elements in row-major
    order.  Elements are read by this module only from [float32] and
    [float64] arrays, whose values binary64 holds exactly. *)
Record ndarray : Type := {
  dtype_of : dtype;
  shape : list nat;
  buffer : list float
}.

(** [len(a.shape)] and [a.shape[k]]. *)
Definition ndim (a : ndarray) : nat := List.length (shape a).
Definition shape_at (k : nat) (a : ndarray) : option nat :=
  nth_error (shape a) k.

(** [a[i][k]] (equally [a[i, k]]) for a 2-d array. *)
Definition item2 (a : ndarray) (i k : nat) : float :=
  nth (i * nth 1 (shape a) 0 + k) (buffer a) 0%float.

(** The indices [for v in a] runs over: [len(a)] is [a.shape[0]]. *)
Definition len (a : ndarray) : nat := nth 0 (shape a) 0.
Definition row_indices (a : ndarray) : list nat := seq 0 (len a).

(** [a[:, k]] for a 2-d array: a 1-d array of the entries of column [k]. *)
Definition column_of (a : ndarray) (k : nat) : ndarray :=
  {| dtype_of := dtype_of a;
     shape := [len a];
     buffer := map (fun i => item2 a i k) (row_indices a) |}.

(** A value passed as [data] to the constructor: an [np.ndarray] or an
    object of another type. *)
Inductive object : Type :=
| Ndarray (a : ndarray)
| Other.

(** A [dict] with string keys, in insertion order. *)
Definition dict (V : Type) : Type := list (string * V).

Fixpoint dict_get {V : Type} (k : string) (d : dict V) : option V :=
  match d with
  | [] => None
  | (k', v) :: d' => if String.eqb k k' then Some v else dict_get k d'
  end.

(** [k in d]. *)
Definition dict_contains {V : Type} (k : string) (d : dict V) : bool :=
  match dict_get k d with
  | Some _ => true
  | None => false
  end.

(** [d[k] = v]: the entry of [k] is replaced where it is, a new key goes
    last. *)
Fixpoint dict_set {V : Type} (k : string) (v : V) (d : dict V) : dict V :=
  match d with
  | [] => [(k, v)]
  | (k', v') :: d' =>
      if String.eqb k k' then (k, v) :: d' else (k', v') :: dict_set k v d'
  end.

(** The keys, as iteration yields them. *)
Definition dict_keys {V : Type} (d : dict V) : list string := map fst d.

End Py.

(** ** The box collection *)

Module BoxList.
Import Py.

(** The instance: its only attribute is the dict [self.data]. *)
Record t : Type := { data : dict ndarray }.

(** A method body: it reads and may update [self], and returns or raises.
    An exception leaves the object as the statements before it made it. *)
Definition method (A : Type) : Type := t -> result A * t.

Definition ret {A : Type} (a : A) : method A := fun self => (Return a, self).
Definition raise {A : Type} (e : exn) : method A := fun self => (Raise e, self).
Definition bind {A B : Type} (m : method A) (k : A -> method B) : method B :=
  fun self =>
    match m self with
    | (Return a, self') => k a self'
    | (Raise e, self') => (Raise e, self')
    end.
Definition get_data : method (dict ndarray) := fun self => (Return (data self), self).
Definition set_data (d : dict ndarray) : method unit :=
  fun _ => (Return tt, {| data := d |}).
Definition lift {A : Type} (e : exn) (o : option A) : method A :=
  match o with
  | Some a => ret a
  | None => raise e
  end.

Declare Scope method_scope.
Delimit Scope method_scope with method.
Notation "x <- m ;; k" := (bind m (fun x => k))
  (at level 61, m at next level, right associativity) : method_scope.
Notation "m ;;; k" := (bind m (fun _ => k))
  (at level 61, right associativity) : method_scope.
Local Open Scope method_scope.
Local Open Scope string_scope.

(** [_is_valid_boxes]: the loop returns [False] at the first row with
    [v[0] > v[2]] or [v[1] > v[3]]. *)
Fixpoint valid_rows (a : ndarray) (rows : list nat) : bool :=
  match rows with
  | [] => true
  | i :: rest =>
      if NumPy.gt (item2 a i 0) (item2 a i 2)
         || NumPy.gt (item2 a i 1) (item2 a i 3)
      then false
      else valid_rows a rest
  end.

Definition _is_valid_boxes (a : ndarray) : bool :=
  if negb (len a =? 0)%nat then valid_rows a (row_indices a) else true.

Definition __init__ (arg : object) : result t :=
  match arg with
  | Other => Raise (ValueError "data must be a numpy array.")
  | Ndarray a =>
      if negb (ndim a =? 2)%nat || negb (nth 1 (shape a) 0 =? 4)%nat then
        Raise (ValueError "Invalid dimensions for box data.")
      else if negb (dtype_eqb (dtype_of a) float32)
              && negb (dtype_eqb (dtype_of a) float64) then
        Raise (ValueError "Invalid data type for box data: float is required.")
      else if negb (_is_valid_boxes a) then
        Raise (ValueError
          "Invalid box data. data must be a numpy array of N*[y_min, x_min, y_max, x_max]")
      else Return {| data := [("boxes", a)] |}
  end.

Definition num_boxes : method nat :=
  d <- get_data ;;
  boxes <- lift (KeyError "boxes") (dict_get "boxes" d) ;;
  lift IndexError (shape_at 0 boxes).

Definition get_extra_fields : method (list string) :=
  d <- get_data ;;
  ret (filter (fun k => negb (String.eqb k "boxes")) (dict_keys d)).

Definition has_field (field : string) : method bool :=
  d <- get_data ;;
  ret (dict_contains field d).

Definition add_field (field : string) (field_data : ndarray) : method unit :=
  exists_ <- has_field field ;;
  if (exists_ : bool) then
    raise (ValueError ("Field " ++ field ++ "already exists"))
  else if (ndim field_data <? 1)%nat then
    raise (ValueError "Invalid dimensions for field data")
  else
    n <- num_boxes ;;
    if negb (nth 0 (shape field_data) 0 =? n)%nat then
      raise (ValueError "Invalid dimensions for field data")
    else
      d <- get_data ;;
      set_data (dict_set field field_data d).

Definition get_field (field : string) : method ndarray :=
  exists_ <- has_field field ;;
  if negb exists_ then
    raise (ValueError ("field " ++ field ++ " does not exist"))
  else
    d <- get_data ;;
    lift (KeyError field) (dict_get field d).

Definition get : method ndarray := get_field "boxes".

Definition get_coordinates : method (list ndarray) :=
  box_coordinates <- get ;;
  let y_min := column_of box_coordinates 0 in
  let x_min := column_of box_coordinates 1 in
  let y_max := column_of box_coordinates 2 in
  let x_max := column_of box_coordinates 3 in
  ret [y_min; x_min; y_max; x_max].

(** The methods of the class, and what a call returns. *)
Inductive call : Type :=
| NumBoxes
| GetExtraFields
| HasField (field : string)
| AddField (field : string) (field_data : ndarray)
| Get
| GetField (field : string)
| GetCoordinates.

Inductive value : Type :=
| VNone
| VInt (n : nat)
| VBool (b : bool)
| VStrs (l : list string)
| VArray (a : ndarray)
| VArrays (l : list ndarray).

Definition run (c : call) : method value :=
  match c with
  | NumBoxes => n <- num_boxes ;; ret (VInt n)
  | GetExtraFields => l <- get_extra_fields ;; ret (VStrs l)
  | HasField field => b <- has_field field ;; ret (VBool b)
  | AddField field field_data => add_field field field_data ;;; ret VNone
  | Get => a <- get ;; ret (VArray a)
  | GetField field => a <- get_field field ;; ret (VArray a)
  | GetCoordinates => l <- get_coordinates ;; ret (VArrays l)
  end.

(** The class invariant of the data model: the mandatory field is a 2-d
    array with four columns, field names are unique, and the leading
    dimension of every field is the number of boxes. *)
Definition leading_dim (a : ndarray) : option nat := shape_at 0 a.

Definition invariant (self : t) : Prop :=
  exists boxes n,
    dict_get "boxes" (data self) = Some boxes /\
    shape boxes = [n; 4] /\
    NoDup (dict_keys (data self)) /\
    Forall (fun kv => leading_dim (snd kv) = Some n) (data self).

End BoxList.

(** ** The skeleton transformer: granularity strings and joint parts
    ([pyskl/models/transformers/skeletr.py]) *)

Module SkeleTR_neck.
Import Ascii.
Local Open Scope Z_scope.

(** A string given to [_count_g] and [_legal_g]: the sequence of its code
    points, of any script. *)
Definition char : Type := N.
Definition str : Type := list char.

(** The code point of a character the class names. *)
Definition chr (c : ascii) : char := N_of_ascii c.

(** [{'1': 1, 'P': 5, 'V': V}[c]], which raises [KeyError] on another
    character. *)
Definition spatial_of (V : Z) (c : char) : option Z :=
  if N.eqb c (chr "1") then Some 1
  else if N.eqb c (chr "P") then Some 5
  else if N.eqb c (chr "V") then Some V
  else None.

Section Builtin.

(** [int(c)] for a one-character string [c]: the value of [c] when it is a
    decimal digit (of any script: Python reads the digits of the Unicode
    database), and [ValueError], here [None], on every other character. *)
Variable int : char -> option Z.

(** [_count_g(s, T, V)]: any exception inside [try] gives [-1]. *)
Definition _count_g (s : str) (T V : Z) : Z :=
  if negb (List.length s =? 2)%nat then -1
  else
    match nth_error s 0, nth_error s 1 with
    | Some s0, Some s1 =>
        match (if N.eqb s0 (chr "T") then Some T else int s0) with
        | Some temporal =>
            match spatial_of V s1 with
            | Some spatial => spatial * temporal
            | None => -1
            end
        | None => -1
        end
    | _, _ => -1
    end.

(** The loop of [_legal_g]: [False] at the first granularity that
    [_count_g], with its default [T = 15] and [V = 17], counts as [-1]. *)
Fixpoint all_counted (grans : list str) : bool :=
  match grans with
  | [] => true
  | g :: rest =>
      if _count_g g 15 17 =? -1 then false else all_counted rest
  end.

End Builtin.

(** [s.split(sep)] for a one-character separator. *)
Fixpoint split (sep : char) (s : str) : list str :=
  match s with
  | [] => [[]]
  | c :: s' =>
      if N.eqb c sep then [] :: split sep s'
      else
        match split sep s' with
        | piece :: pieces => (c :: piece) :: pieces
        | [] => [[c]]
        end
  end.

Definition _legal_g (int : char -> option Z) (s : str) : bool :=
  all_counted int (split (chr "+") s).

(** [part_defn_dict[layout]], which raises [KeyError] on another layout. *)
Definition part_defn_dict (layout : string) : option (list (list nat)) :=
  if String.eqb layout "coco" then
    Some [[0; 1; 2; 3; 4]; [5; 7; 9]; [6; 8; 10]; [11; 13; 15]; [12; 14; 16]]%nat
  else if String.eqb layout "openpose" then
    Some [[0; 1; 14; 15; 16; 17]; [2; 3; 4]; [5; 6; 7]; [8; 9; 10];
          [11; 12; 13]]%nat
  else if String.eqb layout "nturgb+d" then
    Some [[2; 3]; [0; 1; 4; 8; 12; 16; 20]; [5; 6; 7; 21; 22];
          [9; 10; 11; 23; 24]; [13; 14; 15]; [17; 18; 19]]%nat
  else None.

(** The number of joints of a layout, as [SkeleTR.__init__] has it. *)
Definition num_joint (layout : string) : option nat :=
  if String.eqb layout "coco" then Some 17%nat
  else if String.eqb layout "openpose" then Some 18%nat
  else if String.eqb layout "nturgb+d" then Some 25%nat
  else None.

End SkeleTR_neck.

(** ** The skeleton transformer: configuration defaults
    ([pyskl/models/transformers/skeletr.py]) *)

Module SkeleTR.
Import Py.

(** The values the configuration dicts of the class hold. *)
#[warnings="-register-all"]
Inductive pyvalue : Type :=
| PNone
| PBool (b : bool)
| PInt (z : Z)
| PStr (s : string)
| PDict (d : list (string * pyvalue)).

(** Dicts are objects: an attribute holds a reference, and two attributes
    may hold the same one.  The store gives every reference its dict. *)
Definition ref : Type := nat.
Definition store : Type := ref -> dict pyvalue.

(** [h[r] = d]. *)
Definition assign (r : ref) (d : dict pyvalue) (h : store) : store :=
  fun r' => if (r' =? r)%nat then d else h r'.

(** The instance attributes [gcn_config], [tr_config] and [neck_config], and
    the class attributes [default_gcn_config], [default_tr_config] and
    [default_neck_config]. *)
Record t : Type := {
  gcn_config : ref;
  tr_config : ref;
  neck_config : ref;
  default_gcn_config : ref;
  default_tr_config : ref;
  default_neck_config : ref
}.

(** [if k not in cfg: cfg[k] = v]. *)
Definition set_default (cfg : ref) (h : store) (kv : string * pyvalue)
  : store :=
  let '(k, v) := kv in
  if negb (dict_contains k (h cfg)) then assign cfg (dict_set k v (h cfg)) h
  else h.

(** [for k, v in default_cfg.items(): ...]: the loop runs over the items
    [default_cfg] has when it starts. *)
Definition merge_into (cfg default_cfg : ref) (h : store) : store :=
  fold_left (set_default cfg) (h default_cfg) h.

Definition _merge_default_cfg (self : t) (h : store) : store :=
  let tups :=
    [(gcn_config self, default_gcn_config self);
     (tr_config self, default_tr_config self);
     (neck_config self, default_neck_config self)] in
  fold_left (fun h tup => merge_into (fst tup) (snd tup) h) tups h.

(** The class attributes as the class body writes them. *)
Definition default_gcn_config_literal : dict pyvalue :=
  [("type", PStr "STGCN");
   ("graph_cfg", PDict [("layout", PStr "coco"); ("mode", PStr "spatial")])]%string.

Definition default_tr_config_literal : dict pyvalue :=
  [("dim", PNone); ("num_tr", PInt 2); ("heads", PInt 8);
   ("reduction", PInt 2); ("mlp_ratio", PInt 2); ("ln_type", PStr "postln");
   ("dropout", PInt 0)]%string.

Definition default_neck_config_literal : dict pyvalue :=
  [("granularity", PStr "11"); ("embed_type", PNone);
   ("with_cls_token", PBool false)]%string.

End SkeleTR.

Import NumPy NpBox Py BoxList.

(** * Notions used to state the properties *)

(** Every pair of a box of the first set with a box of the second. *)
Definition all_pairs (f : row4 -> row4 -> float) (boxes1 boxes2 : list row4)
  : list (list float) :=
  map (fun b1 => map (fun b2 => f b1 b2) boxes2) boxes1.

(** The denominator of [iou] for one pair of boxes. *)
Definition box_union (b1 b2 : row4) : float :=
  (box_area b1 + box_area b2 - box_intersection b1 b2)%float.

(** The quotient [iou] computes for one pair of boxes. *)
Definition box_iou (b1 b2 : row4) : float :=
  (box_intersection b1 b2 / box_union b1 b2)%float.

(** A row that breaks the ordering the constructor checks. *)
Definition bad_row (a : ndarray) (i : nat) : Prop :=
  gt (item2 a i 0) (item2 a i 2) = true \/
  gt (item2 a i 1) (item2 a i 3) = true.

(** An array of shape [N, 4]. *)
Definition n_by_4 (a : ndarray) : Prop := exists n, shape a = [n; 4].

(** The constructor raises a [ValueError]. *)
Definition init_error (arg : object) : Prop :=
  exists msg, __init__ arg = Raise (ValueError msg).

(** [np.array([[0, 0, 1, 1]], dtype=np.float16)]. *)
Definition half_precision_box : ndarray :=
  {| dtype_of := float16; shape := [1; 4]; buffer := [0; 0; 1; 1]%float |}.

(** [np.array([[0, 0, -1, 1]], dtype=float)]. *)
Definition inverted_box : ndarray :=
  {| dtype_of := float64; shape := [1; 4]; buffer := [0; 0; -1; 1]%float |}.

(** [BoxList(np.array([[0, 0, 1, 1]], dtype=float))] and a field of scores
    for it. *)
Definition unit_box : ndarray :=
  {| dtype_of := float64; shape := [1; 4]; buffer := [0; 0; 1; 1]%float |}.

(** The instance the constructor builds from [unit_box]. *)
Definition unit_box_list : t := {| data := [("boxes"%string, unit_box)] |}.

(** [np.array([0.5])]. *)
Definition unit_scores : ndarray :=
  {| dtype_of := float64; shape := [1]; buffer := [0.5]%float |}.

(** Equal, the sign of a zero apart. *)
Definition zeq (x y : float) : Prop :=
  x = y \/ (is_zero x = true /\ is_zero y = true).

(** The entries of [Typed.area], [Typed.intersection], [Typed.union] and
    [Typed.iou], box by box. *)
Definition box_area_in (d : Typed.float_type) (b : row4) : float :=
  let '(y_min, x_min, y_max, x_max) := b in
  Typed.mul d (Typed.sub d y_max y_min) (Typed.sub d x_max x_min).

Definition box_intersection_in (d : Typed.float_type) (b1 b2 : row4)
  : float :=
  let '(y_min1, x_min1, y_max1, x_max1) := b1 in
  let '(y_min2, x_min2, y_max2, x_max2) := b2 in
  (maximum 0 (Typed.sub d (minimum y_max1 y_max2) (maximum y_min1 y_min2))
   * maximum 0 (Typed.sub d (minimum x_max1 x_max2)
                  (maximum x_min1 x_min2)))%float.

Definition box_union_in (d1 d2 : Typed.float_type) (b1 b2 : row4) : float :=
  (Typed.add (Typed.result_type d1 d2) (box_area_in d1 b1)
     (box_area_in d2 b2)
   - box_intersection_in (Typed.result_type d1 d2) b1 b2)%float.

Definition box_iou_in (d1 d2 : Typed.float_type) (b1 b2 : row4) : float :=
  (box_intersection_in (Typed.result_type d1 d2) b1 b2
   / box_union_in d1 d2 b1 b2)%float.

(** The rows of [np.array([[0, 0, 0.1, 0.1]], dtype=np.float32)] and of
    [np.array([[0, 0, 0.3, 0.3]], dtype=np.float32)]: Python reads the
    decimals as binary64 numbers, and the array holds them converted to
    binary32. *)
Definition tenth_box32 : row4 :=
  let x := Typed.astype Typed.Float32 0x1.999999999999ap-4 in
  (0, 0, x, x)%float.

Definition third_box32 : row4 :=
  let x := Typed.astype Typed.Float32 0x1.3333333333333p-2 in
  (0, 0, x, x)%float.

(** Two arrays of one shape whose entries are equal as NumPy compares
    numbers ([-0.0 == 0.0]), a NaN standing against a NaN. *)
Definition same_entries (a b : list (list float)) : Prop :=
  Forall2 (Forall2 zeq) a b.

(** The ordering of the data model: [y_min <= y_max] and [x_min <= x_max]. *)
Definition valid_box (b : row4) : Prop :=
  let '(y_min, x_min, y_max, x_max) := b in
  (y_min <=? y_max)%float = true /\ (x_min <=? x_max)%float = true.

(** Two well-ordered boxes of large extent: the width
    [2 ^ 1023 - (- 2 ^ 1023)] of the first overflows to infinity, and so does
    twice the area [2 ^ 1023] of the second. *)
Definition flat_wide_box : row4 := (0, -0x1p1023, 0, 0x1p1023)%float.

Definition huge_box : row4 := (0, 0, 0x1p512, 0x1p511)%float.

(** The row of [np.array([[0, -2 ** 127, 0, 2 ** 127]], dtype=np.float32)]:
    its width overflows binary32. *)
Definition flat_wide_box32 : row4 := (0, -0x1p127, 0, 0x1p127)%float.

(** The rows of an [N, 4] array, as the geometry functions read them. *)
Definition rows_of (a : ndarray) : list row4 :=
  map (fun i => (item2 a i 0, item2 a i 1, item2 a i 2, item2 a i 3))
    (row_indices a).

(** The collection after a sequence of method calls, each on the collection
    as the call before left it. *)
Definition run_calls (calls : list call) (self : t) : t :=
  fold_left (fun s c => snd (run c s)) calls self.

(** What the comparison [lo > hi] of the constructor lets through: an
    ordered pair, and every pair with a NaN. *)
Definition axis_passes (lo hi : float) : Prop :=
  (lo <=? hi)%float = true \/ is_nan lo = true \/ is_nan hi = true.

(** Both axes of the row pass. *)
Definition row_passes (b : row4) : Prop :=
  let '(y_min, x_min, y_max, x_max) := b in
  axis_passes y_min y_max /\ axis_passes x_min x_max.

(** No coordinate of the box is NaN. *)
Definition nan_free (b : row4) : Prop :=
  let '(y_min, x_min, y_max, x_max) := b in
  is_nan y_min = false /\ is_nan x_min = false /\
  is_nan y_max = false /\ is_nan x_max = false.

(** [unit_box_list] after [add_field('scores', unit_scores)]. *)
Definition scored_box_list : t :=
  {| data := [("boxes"%string, unit_box); ("scores"%string, unit_scores)] |}.

Section GranularityNotions.
Import Ascii.

(** [sep.join(pieces)]. *)
Fixpoint join (sep : SkeleTR_neck.str) (pieces : list SkeleTR_neck.str)
  : SkeleTR_neck.str :=
  match pieces with
  | [] => []
  | [piece] => piece
  | piece :: rest => piece ++ sep ++ join sep rest
  end.

(** What is known of [int] on one-character strings: a digit has a value
    from 0 to 9, and [+] alone is no number. *)
Definition digit_values (int : SkeleTR_neck.char -> option Z) : Prop :=
  (forall c n, int c = Some n -> (0 <= n <= 9)%Z) /\
  int (SkeleTR_neck.chr "+") = None.

(** A granularity: a temporal character, [T] or a decimal digit, followed by
    a spatial character, [1], [P] or [V]. *)
Definition granule (int : SkeleTR_neck.char -> option Z)
    (s : SkeleTR_neck.str) : Prop :=
  exists t p,
    s = [t; p] /\
    (t = SkeleTR_neck.chr "T" \/ exists n, int t = Some n) /\
    (p = SkeleTR_neck.chr "1" \/ p = SkeleTR_neck.chr "P" \/
     p = SkeleTR_neck.chr "V").

(** [int] on the digits of two scripts: [0] to [9], and the Arabic-Indic
    digits U+0660 to U+0669. *)
Definition two_scripts_int (c : SkeleTR_neck.char) : option Z :=
  if (48 <=? c)%N && (c <=? 57)%N then Some (Z.of_N c - 48)%Z
  else if (1632 <=? c)%N && (c <=? 1641)%N then Some (Z.of_N c - 1632)%Z
  else None.

(** How often joint [v] occurs in the parts. *)
Definition occurrences (parts : list (list nat)) (v : nat) : nat :=
  count_occ Nat.eq_dec (List.concat parts) v.

End GranularityNotions.

(** The pairs of a configuration and its defaults that [_merge_default_cfg]
    goes through. *)
Definition tups (self : SkeleTR.t) : list (SkeleTR.ref * SkeleTR.ref) :=
  [(SkeleTR.gcn_config self, SkeleTR.default_gcn_config self);
   (SkeleTR.tr_config self, SkeleTR.default_tr_config self);
   (SkeleTR.neck_config self, SkeleTR.default_neck_config self)].

(** The entry of [k] in [d], else its entry in [default_cfg]. *)
Definition lookup_or (d default_cfg : dict SkeleTR.pyvalue) (k : string)
  : option SkeleTR.pyvalue :=
  match dict_get k d with
  | Some v => Some v
  | None => dict_get k default_cfg
  end.

(** An instance whose six dicts are six objects, the caller having chosen
    the GCN type and the number of heads. *)
Definition example_net : SkeleTR.t :=
  {| SkeleTR.gcn_config := 0; SkeleTR.tr_config := 1;
     SkeleTR.neck_config := 2; SkeleTR.default_gcn_config := 3;
     SkeleTR.default_tr_config := 4; SkeleTR.default_neck_config := 5 |}.

(** Its store: the class defaults as written, a partial GCN and transformer
    configuration, an empty neck configuration. *)
Definition example_store : SkeleTR.store :=
  fun r =>
    match r with
    | 0 => [("type"%string, SkeleTR.PStr "AAGCN")]
    | 1 => [("heads"%string, SkeleTR.PInt 4)]
    | 3 => SkeleTR.default_gcn_config_literal
    | 4 => SkeleTR.default_tr_config_literal
    | 5 => SkeleTR.default_neck_config_literal
    | _ => []
    end.

(** * Binary64 arithmetic on exact values

    A finite binary64 number is an integer multiple of a power of two.  The
    definitions below give every number its exact value as an integer (in
    units of [2 ^ ebase]) and describe rounding to nearest, ties to even, on
    these integers; the lemmas further down show that the operations of
    [SpecFloat], which specify the primitive operations, compute them. *)

Unset Implicit Arguments.

Module Binary64.
Local Open Scope Z_scope.

(** The unit of exact values: every exponent met below (of a number, of a
    product of two, of a quotient with its two guard bits) is at least
    [ebase]. *)
Definition ebase : Z := -2150.

(** The mantissa [m] at exponent [e], in units of [2 ^ ebase]. *)
Definition scaled (m e : Z) : Z := m * 2 ^ (e - ebase).

(** The least value that rounds to infinity: [2 ^ emax]. *)
Definition top : Z := 2 ^ (emax - ebase).

(** The exact value of a [spec_float]; an infinity takes [top], NaN has no
    value (0 is a placeholder, never used). *)
Definition Zval (x : spec_float) : Z :=
  match x with
  | S754_zero _ => 0
  | S754_infinity s => cond_Zopp s top
  | S754_nan => 0
  | S754_finite s m e => cond_Zopp s (scaled (Zpos m) e)
  end.

(** Round to nearest, ties to even: [v / 2 ^ k] as an integer. *)
Definition rne (v k : Z) : Z :=
  let d := v / 2 ^ k in
  match 2 * (v mod 2 ^ k) ?= 2 ^ k with
  | Lt => d
  | Eq => if Z.even d then d else d + 1
  | Gt => d + 1
  end.

(** The exponent, over [ebase], of the last place of the binary64 numbers
    about [v]. *)
Definition qexp (v : Z) : Z := fexp prec emax (Z.log2 v + 1 + ebase) - ebase.

(** The rounded value before the overflow test. *)
Definition rnd_raw (v : Z) : Z := rne v (qexp v) * 2 ^ qexp v.

(** Rounding of an exact value [v >= 0] to binary64; [top] stands for
    infinity. *)
Definition rnd (v : Z) : Z :=
  let r := rne v (qexp v) * 2 ^ qexp v in
  if r <? top then r else top.

(** Rounding of an exact value of either sign. *)
Definition srnd (v : Z) : Z := if v <? 0 then - rnd (- v) else rnd v.

(** Exact values that are binary64 numbers: rounding leaves them alone. *)
Definition representable (v : Z) : Prop := v mod 2 ^ qexp v = 0.

(** The state of [SpecFloat.shr] after shifting [m0] by [j] places: the
    quotient, whether the remainder reaches the half, and whether it differs
    from zero and the half. *)
Definition shr_inv (m0 j : Z) (mrs : shr_record) : Prop :=
  shr_m mrs = m0 / 2 ^ j /\
  shr_r mrs = (2 ^ j <=? 2 * (m0 mod 2 ^ j)) /\
  shr_s mrs = negb (m0 mod 2 ^ j =? 0) && negb (2 * (m0 mod 2 ^ j) =? 2 ^ j).

(** A location as two more bits of the mantissa. *)
Definition loc_code (l : location) : Z :=
  match l with
  | loc_Exact => 0
  | loc_Inexact Lt => 1
  | loc_Inexact Eq => 2
  | loc_Inexact Gt => 3
  end.

(** Zeros and finite numbers. *)
Definition SFfinite (x : spec_float) : bool :=
  match x with
  | S754_zero _ | S754_finite _ _ _ => true
  | _ => false
  end.

(** The exact value of 1. *)
Definition one_val : Z := scaled 1 0.

(** What stands for infinity among the values of numbers: beyond every sum,
    difference and product of finite values. *)
Definition big : Z := top * one_val.

(** Overflow to infinity. *)
Definition ext (v : Z) : Z :=
  if top <=? v then big else if v <=? - top then - big else v.

(** The value of a binary64 number: exact when it is finite, [big] or
    [- big] for an infinity. *)
Definition xval (x : float) : Z := ext (Zval (Prim2SF x)).

(** The shapes of a binary64 number. *)
Variant float_shape (x : float) : Prop :=
| shape_nan :
    Prim2SF x = S754_nan -> is_nan x = true -> is_finite x = false ->
    float_shape x
| shape_finite :
    SFfinite (Prim2SF x) = true -> is_nan x = false -> is_finite x = true ->
    - top < Zval (Prim2SF x) < top -> xval x = Zval (Prim2SF x) ->
    float_shape x
| shape_inf s :
    Prim2SF x = S754_infinity s -> is_nan x = false -> is_finite x = false ->
    xval x = cond_Zopp s big -> float_shape x.

End Binary64.

(** * Properties *)

Set Implicit Arguments.

(** ** Element-wise operations and broadcasting *)
Section ArrayLemmas.
Context {A B C D : Type}.
Lemma map2_map (f : B -> C -> D) (g : A -> B) (h : A -> C) (l : list A) :
  map2 f (map g l) (map h l) = map (fun x => f (g x) (h x)) l.
Proof.
  induction l as [|x l IH]; simpl; [reflexivity | now rewrite IH].
Qed.

Lemma map2_length (f : A -> B -> C) (u : list A) (v : list B) :
  List.length (map2 f u v) = Nat.min (List.length u) (List.length v).
Proof.
  revert v; induction u as [|x u IH]; intros [|y v]; simpl; auto.
Qed.

End ArrayLemmas.
Lemma broadcast_columns f k1 k2 boxes1 boxes2 :
  broadcast f (column k1 boxes1) (column k2 boxes2)
  = all_pairs (fun b1 b2 => f (item k1 b1) (item k2 b2)) boxes1 boxes2.
Proof.
  unfold broadcast, column, all_pairs.
  rewrite map_map. apply map_ext; intros b1. now rewrite map_map.
Qed.

Lemma map2_2d_all_pairs f g h boxes1 boxes2 :
  map2_2d f (all_pairs g boxes1 boxes2) (all_pairs h boxes1 boxes2)
  = all_pairs (fun b1 b2 => f (g b1 b2) (h b1 b2)) boxes1 boxes2.
Proof.
  unfold map2_2d, all_pairs. rewrite map2_map.
  apply map_ext; intros b1. apply map2_map.
Qed.

Lemma zeros_like_all_pairs g boxes1 boxes2 :
  zeros_like (all_pairs g boxes1 boxes2)
  = all_pairs (fun _ _ => 0%float) boxes1 boxes2.
Proof.
  unfold zeros_like, all_pairs. rewrite map_map.
  apply map_ext; intros b1. now rewrite map_map.
Qed.

Lemma entry_all_pairs f boxes1 boxes2 i j :
  entry (all_pairs f boxes1 boxes2) i j
  = match nth_error boxes1 i, nth_error boxes2 j with
    | Some b1, Some b2 => Some (f b1 b2)
    | _, _ => None
    end.
Proof.
  unfold entry, all_pairs. rewrite nth_error_map.
  destruct (nth_error boxes1 i) as [b1|]; simpl; [|reflexivity].
  rewrite nth_error_map. now destruct (nth_error boxes2 j).
Qed.

Lemma all_pairs_shape f boxes1 boxes2 :
  List.length (all_pairs f boxes1 boxes2) = List.length boxes1 /\
  Forall (fun r => List.length r = List.length boxes2)
    (all_pairs f boxes1 boxes2).
Proof.
  unfold all_pairs; split; [apply length_map|].
  apply Forall_forall; intros r Hr. apply in_map_iff in Hr.
  destruct Hr as [b1 [<- _]]. apply length_map.
Qed.

(** ** The geometry functions, entry by entry *)
Lemma area_map boxes : area boxes = map box_area boxes.
Proof.
  unfold area, column. rewrite !map2_map.
  apply map_ext; intros [[[y_min x_min] y_max] x_max]; reflexivity.
Qed.

Lemma intersection_all_pairs boxes1 boxes2 :
  intersection boxes1 boxes2 = all_pairs box_intersection boxes1 boxes2.
Proof.
  unfold intersection; cbv zeta beta iota.
  rewrite !broadcast_columns, !map2_2d_all_pairs, !zeros_like_all_pairs,
    !map2_2d_all_pairs.
  unfold all_pairs. apply map_ext; intros [[[y_min1 x_min1] y_max1] x_max1].
  apply map_ext; intros [[[y_min2 x_min2] y_max2] x_max2]; reflexivity.
Qed.

Lemma broadcast_map f g h (boxes1 boxes2 : list row4) :
  broadcast f (map g boxes1) (map h boxes2)
  = all_pairs (fun b1 b2 => f (g b1) (h b2)) boxes1 boxes2.
Proof.
  unfold broadcast, all_pairs.
  rewrite map_map. apply map_ext; intros b1. now rewrite map_map.
Qed.

Lemma union_all_pairs boxes1 boxes2 :
  union boxes1 boxes2 = all_pairs box_union boxes1 boxes2.
Proof.
  unfold union; cbv zeta.
  now rewrite !area_map, intersection_all_pairs, broadcast_map,
    map2_2d_all_pairs.
Qed.

Lemma iou_all_pairs boxes1 boxes2 :
  iou boxes1 boxes2 = all_pairs box_iou boxes1 boxes2.
Proof.
  unfold iou; cbv zeta.
  now rewrite union_all_pairs, intersection_all_pairs, map2_2d_all_pairs.
Qed.

Lemma valid_rows_false a rows :
  valid_rows a rows = false <-> exists i, In i rows /\ bad_row a i.
Proof.
  unfold bad_row. induction rows as [|i rows IH]; simpl.
  - split; [discriminate | intros [i [[] _]]].
  - destruct (gt (item2 a i 0) (item2 a i 2)) eqn:H0; simpl.
    + split; [intros _; exists i; auto | reflexivity].
    + destruct (gt (item2 a i 1) (item2 a i 3)) eqn:H1.
      * split; [intros _; exists i; auto | reflexivity].
      * rewrite IH. split.
        -- intros [k [Hk Hb]]; exists k; auto.
        -- intros [k [[<-|Hk] Hb]]; [|exists k; auto].
           destruct Hb; congruence.
Qed.

Lemma is_valid_boxes_false a :
  _is_valid_boxes a = false <-> exists i, i < len a /\ bad_row a i.
Proof.
  unfold _is_valid_boxes, row_indices.
  destruct (len a =? 0)%nat eqn:Hn; simpl.
  - apply Nat.eqb_eq in Hn. split; [discriminate|].
    intros [i [Hi _]]; lia.
  - rewrite valid_rows_false. split; intros [i [Hi Hb]]; exists i; split; auto.
    + apply in_seq in Hi; lia.
    + apply in_seq; lia.
Qed.

Lemma n_by_4_dec a :
  (negb (ndim a =? 2)%nat || negb (nth 1 (shape a) 0 =? 4)%nat) = false
  <-> n_by_4 a.
Proof.
  unfold n_by_4, ndim. rewrite orb_false_iff, !negb_false_iff, !Nat.eqb_eq.
  split.
  - intros [Hl H4]. destruct (shape a) as [|n [|m [|? ?]]]; try discriminate.
    simpl in H4; subst. now exists n.
  - intros [n ->]; auto.
Qed.

Lemma dtype_eqb_eq a b : dtype_eqb a b = true <-> a = b.
Proof. destruct a, b; simpl; split; congruence. Qed.

Lemma dtype_check_false d :
  (negb (dtype_eqb d float32) && negb (dtype_eqb d float64)) = false
  <-> d = float32 \/ d = float64.
Proof.
  rewrite andb_false_iff, !negb_false_iff, !dtype_eqb_eq. tauto.
Qed.

Lemma init_cases arg :
  match arg with
  | Other => init_error arg
  | Ndarray a =>
      (init_error arg /\
       (~ n_by_4 a \/ (dtype_of a <> float32 /\ dtype_of a <> float64) \/
        exists i, i < len a /\ bad_row a i)) \/
      (__init__ arg = Return {| data := [("boxes"%string, a)] |} /\
       n_by_4 a /\ (dtype_of a = float32 \/ dtype_of a = float64) /\
       ~ exists i, i < len a /\ bad_row a i)
  end.
Proof.
  destruct arg as [a|]; unfold init_error; simpl; [|eauto].
  destruct (negb (ndim a =? 2)%nat || negb (nth 1 (shape a) 0 =? 4)%nat)
    eqn:Hs.
  { left; split; [eauto|]. left. rewrite <- n_by_4_dec. congruence. }
  apply n_by_4_dec in Hs.
  destruct (negb (dtype_eqb (dtype_of a) float32)
            && negb (dtype_eqb (dtype_of a) float64)) eqn:Hd.
  { left; split; [eauto|]. right; left.
    apply andb_true_iff in Hd. rewrite !negb_true_iff in Hd.
    destruct Hd as [H1 H2].
    split; intros E; rewrite E in *; discriminate. }
  apply dtype_check_false in Hd.
  destruct (_is_valid_boxes a) eqn:Hv; simpl.
  - right. repeat split; auto.
    rewrite <- is_valid_boxes_false. congruence.
  - left; split; [eauto|]. right; right. now apply is_valid_boxes_false.
Qed.

(** C4 (as the code has it).  Constructing a [BoxList] raises [ValueError]
    exactly when the argument is not an [np.ndarray], or its shape is not
    [N, 4], or its element type is neither [float32] nor [float64], or some
    row has [y_min > y_max] or [x_min > x_max]; nothing else is raised, and
    otherwise the instance holds the array as its only field.  In particular
    every 3 x 3 array is refused, and so is the single box [0, 0, -1, 1]. *)
Theorem init_raises_iff :
  (forall arg,
     init_error arg <->
     (arg = Other \/
      exists a, arg = Ndarray a /\
        (~ n_by_4 a \/
         (dtype_of a <> float32 /\ dtype_of a <> float64) \/
         exists i, i < len a /\ bad_row a i))) /\
  (forall arg e, __init__ arg = Raise e -> exists msg, e = ValueError msg) /\
  (forall arg self, __init__ arg = Return self ->
     exists a, arg = Ndarray a /\ data self = [("boxes"%string, a)]) /\
  (forall d buf,
     init_error (Ndarray {| dtype_of := d; shape := [3; 3]; buffer := buf |})) /\
  init_error (Ndarray inverted_box).
Proof.
  split; [|split; [|split; [|split]]].
  - intros arg. generalize (init_cases arg).
    destruct arg as [a|].
    + intros [[He Hc] | [Hr [Hs [Hd Hv]]]].
      * split; [intros _; right; eauto | auto].
      * split.
        -- intros [msg Hm]. congruence.
        -- intros [Ho | [a' [Ha' Hc]]]; [discriminate|].
           injection Ha' as <-.
           destruct Hc as [Hc | [[H1 H2] | Hc]]; try contradiction.
           destruct Hd; contradiction.
    + intros He; split; auto.
  - intros arg e Hr. generalize (init_cases arg).
    destruct arg as [a|].
    + intros [[[msg Hm] _] | [Hok _]]; [|congruence].
      exists msg; congruence.
    + intros [msg Hm]; exists msg; congruence.
  - intros arg self Hr. generalize (init_cases arg).
    destruct arg as [a|].
    + intros [[[msg Hm] _] | [Hok _]]; [congruence|].
      exists a; split; auto. rewrite Hr in Hok. now injection Hok as ->.
    + intros [msg Hm]; congruence.
  - intros d buf. eexists; reflexivity.
  - eexists; reflexivity.
Qed.

(** C4 (as stated) fails: a well-ordered [N, 4] array of the floating-point
    type [float16] is refused. *)
Lemma init_refuses_float16 :
  ~ (init_error (Ndarray half_precision_box) <->
     (Ndarray half_precision_box = Other \/
      ~ n_by_4 half_precision_box \/
      is_floating (dtype_of half_precision_box) = false \/
      exists i, i < len half_precision_box /\ bad_row half_precision_box i)).
Proof.
  intros [H _].
  destruct H as [H | [H | [H | [i [Hi Hb]]]]].
  - eexists; reflexivity.
  - discriminate.
  - apply H. now exists 1.
  - discriminate.
  - unfold len in Hi; simpl in Hi.
    assert (i = 0) by lia; subst.
    destruct Hb as [Hb | Hb]; vm_compute in Hb; discriminate.
Qed.

(** ** [BoxList]: fields *)
Section DictLemmas.
Context {V : Type}.
Implicit Types (d : dict V) (k : string) (v : V).
Lemma dict_contains_In k d :
  dict_contains k d = true <-> In k (dict_keys d).
Proof.
  unfold dict_contains. induction d as [|[k' v'] d IH]; simpl.
  - split; [discriminate | tauto].
  - destruct (String.eqb k k') eqn:E.
    + apply String.eqb_eq in E. split; auto.
    + apply String.eqb_neq in E. rewrite IH. split; [tauto|].
      intros [H|H]; [congruence | auto].
Qed.

Lemma dict_contains_false k d :
  dict_contains k d = false <-> dict_get k d = None.
Proof.
  unfold dict_contains. destruct (dict_get k d); split; congruence.
Qed.

Lemma dict_set_new k v d :
  dict_get k d = None -> dict_set k v d = d ++ [(k, v)].
Proof.
  induction d as [|[k' v'] d IH]; simpl; [reflexivity|].
  destruct (String.eqb k k'); [discriminate|].
  intros H; now rewrite IH.
Qed.

Lemma dict_get_app k d d' x :
  dict_get k d = Some x -> dict_get k (d ++ d') = Some x.
Proof.
  induction d as [|[k' v'] d IH]; simpl; [discriminate|].
  destruct (String.eqb k k'); auto.
Qed.

Lemma dict_keys_app d d' : dict_keys (d ++ d') = dict_keys d ++ dict_keys d'.
Proof. apply map_app. Qed.

End DictLemmas.
(** Unfolds a method body down to its state function. *)
Ltac method_unfold :=
  unfold run, add_field, get_coordinates, get, get_field, get_extra_fields,
    has_field, num_boxes, bind, get_data, set_data, lift, ret, raise;
  simpl.

Lemma num_boxes_invariant self :
  invariant self -> exists n, num_boxes self = (Return n, self).
Proof.
  intros [boxes [n [Hb [Hs _]]]]. exists n. method_unfold.
  rewrite Hb; simpl. unfold shape_at. now rewrite Hs.
Qed.

(** What [add_field] does, by cases. *)
Lemma add_field_cases self field field_data n :
  fst (num_boxes self) = Return n ->
  (dict_contains field (data self) = true /\
   add_field field field_data self
   = (Raise (ValueError ("Field " ++ field ++ "already exists")), self))
  \/
  (dict_contains field (data self) = false /\
   leading_dim field_data <> Some n /\
   add_field field field_data self
   = (Raise (ValueError "Invalid dimensions for field data"), self))
  \/
  (dict_contains field (data self) = false /\
   leading_dim field_data = Some n /\
   add_field field field_data self
   = (Return tt, {| data := data self ++ [(field, field_data)] |})).
Proof.
  intros Hn.
  assert (Hnb : num_boxes self = (Return n, self)).
  { revert Hn. cbv beta iota delta [num_boxes bind get_data lift ret raise fst].
    destruct (dict_get "boxes" (data self)) as [b|];
      [destruct (shape_at 0 b)|]; cbv beta iota; congruence. }
  cbv beta iota delta [add_field has_field bind get_data ret raise set_data].
  destruct (dict_contains field (data self)) eqn:Hc; [left; auto|].
  right. unfold leading_dim, shape_at, ndim.
  destruct (shape field_data) as [|m rest] eqn:Hs.
  { left. repeat split; auto. discriminate. }
  change (List.length (m :: rest) <? 1)%nat with false; cbv beta iota.
  rewrite Hnb. cbn [nth nth_error].
  destruct (m =? n)%nat eqn:Hm; cbn [negb].
  - apply Nat.eqb_eq in Hm; subst. right. repeat split; auto.
    now rewrite dict_set_new by now apply dict_contains_false.
  - apply Nat.eqb_neq in Hm. left. repeat split; auto. congruence.
Qed.

(** C7.  On a collection of [n] boxes, [add_field] raises [ValueError]
    exactly when the field name is already present or the leading dimension of
    the field data is not [n] (a 0-d array has none); it then leaves the
    collection as it was.  Otherwise it returns, and the field is appended. *)
Theorem add_field_raises_iff self n field field_data :
  fst (num_boxes self) = Return n ->
  ((exists msg,
      fst (add_field field field_data self) = Raise (ValueError msg)) <->
   (dict_contains field (data self) = true \/
    leading_dim field_data <> Some n)) /\
  (forall e, fst (add_field field field_data self) = Raise e ->
     (exists msg, e = ValueError msg) /\
     snd (add_field field field_data self) = self) /\
  (dict_contains field (data self) = false ->
   leading_dim field_data = Some n ->
   add_field field field_data self
   = (Return tt, {| data := data self ++ [(field, field_data)] |})).
Proof.
  intros Hn.
  destruct (add_field_cases self field field_data Hn)
    as [[Hc Hr] | [[Hc [Hl Hr]] | [Hc [Hl Hr]]]]; rewrite Hr; simpl.
  - split; [split; eauto | split].
    + intros e [= <-]; eauto.
    + congruence.
  - split; [split; eauto | split].
    + intros e [= <-]; eauto.
    + congruence.
  - split; [split | split].
    + intros [msg ?]; discriminate.
    + intros [H | H]; congruence.
    + discriminate.
    + reflexivity.
Qed.

Lemma add_field_raises_iff_witness :
  fst (num_boxes unit_box_list) = Return 1 /\
  ((exists msg,
      fst (add_field "scores" unit_scores unit_box_list)
      = Raise (ValueError msg)) <->
   (dict_contains "scores" (data unit_box_list) = true \/
    leading_dim unit_scores <> Some 1)) /\
  add_field "scores" unit_scores unit_box_list
  = (Return tt,
     {| data := [("boxes"%string, unit_box); ("scores"%string, unit_scores)] |}).
Proof.
  split; [reflexivity|].
  destruct (@add_field_raises_iff unit_box_list 1 "scores" unit_scores
              eq_refl) as [Hiff [_ Hok]].
  split; [exact Hiff | exact (Hok eq_refl eq_refl)].
Defined.

(** ** [BoxList]: the class invariant *)
Lemma invariant_num_boxes self boxes n :
  dict_get "boxes" (data self) = Some boxes -> shape boxes = [n; 4] ->
  num_boxes self = (Return n, self).
Proof.
  intros Hb Hs. method_unfold. rewrite Hb; simpl.
  unfold shape_at. now rewrite Hs.
Qed.

Lemma init_invariant arg self : __init__ arg = Return self -> invariant self.
Proof.
  intros Hr. generalize (init_cases arg). destruct arg as [a|].
  - intros [[[msg Hm] _] | [Hok [[n Hs] _]]]; [congruence|].
    rewrite Hr in Hok. injection Hok as ->.
    exists a, n. simpl. repeat split; auto.
    + constructor; [intros [] | constructor].
    + constructor; [|constructor]. unfold leading_dim, shape_at; simpl.
      now rewrite Hs.
  - intros [msg Hm]; congruence.
Qed.

Lemma invariant_append self field field_data n :
  invariant self ->
  fst (num_boxes self) = Return n ->
  dict_contains field (data self) = false ->
  leading_dim field_data = Some n ->
  invariant {| data := data self ++ [(field, field_data)] |}.
Proof.
  intros [boxes [n' [Hb [Hs [Hnd Hall]]]]] Hn Hc Hl.
  rewrite (invariant_num_boxes self Hb Hs) in Hn. injection Hn as ->.
  exists boxes, n. simpl. repeat split; auto.
  - now apply dict_get_app.
  - rewrite dict_keys_app; simpl.
    apply NoDup_app; auto.
    + constructor; [intros [] | constructor].
    + intros k Hk [<- | []].
      apply dict_contains_In in Hk. congruence.
  - apply Forall_app; split; auto.
Qed.

(** The methods other than [add_field] leave the object as it is. *)
Lemma readers_keep_state c self :
  (forall field field_data, c <> AddField field field_data) ->
  snd (run c self) = self.
Proof.
  intros Hc. destruct c; try (now elim (Hc field field_data));
    method_unfold.
  - destruct (dict_get "boxes" (data self)) as [b|]; simpl;
      [destruct (shape_at 0 b)|]; reflexivity.
  - reflexivity.
  - reflexivity.
  - destruct (dict_contains "boxes" (data self)); simpl; [|reflexivity].
    destruct (dict_get "boxes" (data self)); reflexivity.
  - destruct (dict_contains field (data self)); simpl; [|reflexivity].
    destruct (dict_get field (data self)); reflexivity.
  - destruct (dict_contains "boxes" (data self)); simpl; [|reflexivity].
    destruct (dict_get "boxes" (data self)); reflexivity.
Qed.

Lemma run_add_field self field field_data :
  run (AddField field field_data) self
  = match add_field field field_data self with
    | (Return _, self') => (Return VNone, self')
    | (Raise e, self') => (Raise e, self')
    end.
Proof.
  cbv beta iota delta [run bind ret].
  now destruct (add_field field field_data self) as [[[]|e] self'].
Qed.

(** C9.  The constructor establishes the class invariant (the field "boxes"
    is present, field names are unique, every field has the number of boxes
    as its leading dimension) and every method keeps it.  A method call
    either leaves the collection as it was or is an [add_field] that returns
    and appends one field under a name that was absent; so every field that
    was there, the box array included, is still there with the same array. *)
Theorem methods_keep_invariant :
  (forall arg self, __init__ arg = Return self -> invariant self) /\
  (forall c self,
     invariant self ->
     invariant (snd (run c self)) /\
     (snd (run c self) = self \/
      exists field field_data,
        c = AddField field field_data /\
        fst (run c self) = Return VNone /\
        dict_get field (data self) = None /\
        data (snd (run c self)) = data self ++ [(field, field_data)]) /\
     (forall k v,
        dict_get k (data self) = Some v ->
        dict_get k (data (snd (run c self))) = Some v)).
Proof.
  split; [exact init_invariant|].
  intros c self Hinv.
  assert (Hcases :
    snd (run c self) = self \/
    exists field field_data,
      c = AddField field field_data /\
      fst (run c self) = Return VNone /\
      dict_get field (data self) = None /\
      data (snd (run c self)) = data self ++ [(field, field_data)] /\
      invariant (snd (run c self))).
  { destruct c as [| |f|field field_data| |f|];
      try (left; apply readers_keep_state; discriminate).
    destruct (num_boxes_invariant Hinv) as [n Hn].
    assert (Hn' : fst (num_boxes self) = Return n) by now rewrite Hn.
    rewrite run_add_field.
    destruct (add_field_cases self field field_data Hn')
      as [[Hc Hr] | [[Hc [Hl Hr]] | [Hc [Hl Hr]]]]; rewrite Hr; simpl;
      auto.
    right. exists field, field_data. repeat split; auto.
    - now apply dict_contains_false.
    - now apply invariant_append with (n := n). }
  destruct Hcases as [-> | [field [field_data [-> [Hr [Hnew [Hd Hi]]]]]]].
  - repeat split; auto.
  - split; [exact Hi | split].
    + right. exists field, field_data. auto.
    + intros k v Hk. rewrite Hd. now apply dict_get_app.
Qed.

Lemma methods_keep_invariant_witness :
  invariant unit_box_list /\
  invariant (snd (run (AddField "scores" unit_scores) unit_box_list)) /\
  dict_get "boxes" (data (snd (run (AddField "scores" unit_scores)
                                  unit_box_list)))
  = Some unit_box.
Proof.
  assert (Hinv : invariant unit_box_list).
  { apply (proj1 methods_keep_invariant (Ndarray unit_box)). reflexivity. }
  destruct (proj2 methods_keep_invariant
              (AddField "scores" unit_scores) unit_box_list Hinv)
    as [Hi [_ Hk]].
  split; [exact Hinv | split; [exact Hi | apply Hk; reflexivity]].
Defined.

(** ** Area, intersection and IoU as the specification words them *)
(** C2.  [intersection(boxes1, boxes2)] is an [N, M] array, and its entry
    [(i, j)] is [max(0, min(y_max1_i, y_max2_j) - max(y_min1_i, y_min2_j))]
    times [max(0, min(x_max1_i, x_max2_j) - max(x_min1_i, x_min2_j))], each
    row being read as [(y_min, x_min, y_max, x_max)]. *)
Theorem intersection_entry boxes1 boxes2 :
  List.length (intersection boxes1 boxes2) = List.length boxes1 /\
  Forall (fun r => List.length r = List.length boxes2)
    (intersection boxes1 boxes2) /\
  forall i j,
    entry (intersection boxes1 boxes2) i j
    = match nth_error boxes1 i, nth_error boxes2 j with
      | Some (y_min1, x_min1, y_max1, x_max1),
        Some (y_min2, x_min2, y_max2, x_max2) =>
          Some (maximum 0 (minimum y_max1 y_max2 - maximum y_min1 y_min2)
                * maximum 0 (minimum x_max1 x_max2 - maximum x_min1 x_min2))%float
      | _, _ => None
      end.
Proof.
  rewrite intersection_all_pairs.
  split; [|split]; try apply all_pairs_shape.
  intros i j. rewrite entry_all_pairs.
  destruct (nth_error boxes1 i) as [[[[y_min1 x_min1] y_max1] x_max1]|];
    [|reflexivity].
  now destruct (nth_error boxes2 j) as [[[[y_min2 x_min2] y_max2] x_max2]|].
Qed.

(** C1.  [iou(boxes1, boxes2)] is an [N, M] array, and its entry [(i, j)] is
    [intersection(boxes1, boxes2)[i, j]] divided by [area(boxes1)[i] +
    area(boxes2)[j] - intersection(boxes1, boxes2)[i, j]].  For
    [[0, 0, 10, 10]] against [[5, 5, 15, 15]] the intersection is [[25]],
    both areas are [100] and the IoU is [[25 / 175]]. *)
Theorem iou_entry :
  (forall boxes1 boxes2,
     List.length (iou boxes1 boxes2) = List.length boxes1 /\
     Forall (fun r => List.length r = List.length boxes2)
       (iou boxes1 boxes2) /\
     forall i j,
       entry (iou boxes1 boxes2) i j
       = match entry (intersection boxes1 boxes2) i j,
               nth_error (area boxes1) i, nth_error (area boxes2) j with
         | Some inter, Some area1, Some area2 =>
             Some (inter / (area1 + area2 - inter))%float
         | _, _, _ => None
         end) /\
  (let boxes1 := [(0, 0, 10, 10)%float] in
   let boxes2 := [(5, 5, 15, 15)%float] in
   intersection boxes1 boxes2 = [[25%float]] /\
   area boxes1 = [100%float] /\
   area boxes2 = [100%float] /\
   iou boxes1 boxes2 = [[(25 / 175)%float]]).
Proof.
  split; [|repeat split].
  intros boxes1 boxes2.
  rewrite iou_all_pairs, intersection_all_pairs, !area_map.
  split; [|split]; try apply all_pairs_shape.
  intros i j. rewrite !entry_all_pairs, !nth_error_map.
  destruct (nth_error boxes1 i) as [b1|]; [|reflexivity].
  now destruct (nth_error boxes2 j) as [b2|].
Qed.

(** C3.  [iou] divides by [union] unguarded, and [union] can be zero: for
    two copies of the zero-area box [[0, 0, 0, 0]] the denominator is 0 and
    the quotient 0 / 0 is what [iou] returns (NaN). *)
Theorem iou_zero_denominator :
  (forall boxes1 boxes2,
     iou boxes1 boxes2
     = map2_2d PrimFloat.div (intersection boxes1 boxes2)
         (union boxes1 boxes2)) /\
  exists boxes1 boxes2,
    area boxes1 = [0%float] /\
    area boxes2 = [0%float] /\
    boxes1 = boxes2 /\
    union boxes1 boxes2 = [[0%float]] /\
    iou boxes1 boxes2 = [[(0 / 0)%float]] /\
    iou boxes1 boxes2 = [[nan]].
Proof.
  split; [reflexivity|].
  exists [(0, 0, 0, 0)%float], [(0, 0, 0, 0)%float].
  repeat split.
Qed.


(** ** Binary64: exact values, order and rounding *)

Unset Implicit Arguments.
Import Binary64.

Section Binary64Facts.
Local Open Scope Z_scope.

(** The exponents binary64 uses. *)
Lemma emin_value : emin = -1074.
Proof. reflexivity. Qed.

(** Number of binary digits. *)
Lemma digits2_pos_bounds m :
  2 ^ (Zpos (digits2_pos m) - 1) <= Zpos m < 2 ^ Zpos (digits2_pos m).
Proof.
  induction m as [m IH|m IH|]; simpl digits2_pos.
  - rewrite Pos2Z.inj_succ.
    replace (Z.succ (Zpos (digits2_pos m)) - 1) with (Zpos (digits2_pos m) - 1 + 1) by lia.
    rewrite Z.pow_succ_r by lia.
    destruct (Z.eq_dec (Zpos (digits2_pos m)) 1) as [E|E].
    + rewrite E in *. simpl in IH. simpl. lia.
    + rewrite Z.pow_add_r by lia. simpl (2 ^ 1). lia.
  - rewrite Pos2Z.inj_succ.
    replace (Z.succ (Zpos (digits2_pos m)) - 1) with (Zpos (digits2_pos m) - 1 + 1) by lia.
    rewrite Z.pow_succ_r by lia.
    rewrite Z.pow_add_r by lia. simpl (2 ^ 1). lia.
  - simpl. lia.
Qed.

(** What validity says of a finite binary64 number. *)
Lemma bounded_inv m e :
  bounded prec emax m e = true ->
  emin <= e <= emax - prec /\
  Zpos m < 2 ^ prec /\
  (emin < e -> 2 ^ (prec - 1) <= Zpos m).
Proof.
  unfold bounded, canonical_mantissa, fexp. fold emin.
  rewrite andb_true_iff, Z.eqb_eq, Z.leb_le.
  intros [Hc He].
  pose proof (digits2_pos_bounds m) as [Hlo Hhi].
  set (d := Zpos (digits2_pos m)) in *.
  assert (Hd : 0 < d) by (unfold d; lia).
  split; [lia|]. split.
  - assert (d <= prec) by lia.
    eapply Z.lt_le_trans; [exact Hhi|].
    apply Z.pow_le_mono_r; lia.
  - intros He'. assert (d = prec) by lia. now rewrite <- H.
Qed.

Lemma scaled_pos m e : 0 < m -> ebase <= e -> 0 < scaled m e.
Proof.
  intros Hm He. unfold scaled. apply Z.mul_pos_pos; auto.
  apply Z.pow_pos_nonneg; lia.
Qed.

Lemma scaled_lt_top m e :
  bounded prec emax m e = true -> 0 < scaled (Zpos m) e < top.
Proof.
  intros Hb. apply bounded_inv in Hb. destruct Hb as [He [Hm _]].
  rewrite emin_value in He.
  split; [apply scaled_pos; unfold ebase; lia|].
  unfold scaled, top.
  apply Z.lt_le_trans with (2 ^ prec * 2 ^ (e - ebase)).
  - apply Z.mul_lt_mono_pos_r; auto. apply Z.pow_pos_nonneg; unfold ebase; lia.
  - rewrite <- Z.pow_add_r by (unfold prec, ebase; lia).
    apply Z.pow_le_mono_r; lia.
Qed.

Lemma scaled_exp_lt m1 e1 m2 e2 :
  bounded prec emax m1 e1 = true -> bounded prec emax m2 e2 = true ->
  e1 < e2 -> scaled (Zpos m1) e1 < scaled (Zpos m2) e2.
Proof.
  intros H1 H2 He.
  apply bounded_inv in H1, H2.
  destruct H1 as [He1 [Hm1 _]], H2 as [He2 [_ Hm2]].
  rewrite emin_value in *. specialize (Hm2 ltac:(lia)).
  unfold scaled.
  apply Z.lt_le_trans with (2 ^ prec * 2 ^ (e1 - ebase)).
  - apply Z.mul_lt_mono_pos_r; auto. apply Z.pow_pos_nonneg; unfold ebase; lia.
  - apply Z.le_trans with (2 ^ (prec - 1) * 2 ^ (e2 - ebase)).
    + rewrite <- !Z.pow_add_r by (unfold prec, ebase; lia).
      apply Z.pow_le_mono_r; lia.
    + apply Z.mul_le_mono_nonneg_r; auto.
      apply Z.pow_nonneg; lia.
Qed.

Lemma scaled_compare m1 e1 m2 e2 :
  bounded prec emax m1 e1 = true -> bounded prec emax m2 e2 = true ->
  (scaled (Zpos m1) e1 ?= scaled (Zpos m2) e2)
  = match e1 ?= e2 with
    | Lt => Lt
    | Gt => Gt
    | Eq => Pos.compare_cont Eq m1 m2
    end.
Proof.
  intros H1 H2. destruct (Z.compare_spec e1 e2) as [->|He|He].
  - pose proof (@bounded_inv _ _ H1) as [He _]. rewrite emin_value in He.
    change (Pos.compare_cont Eq m1 m2) with (Zpos m1 ?= Zpos m2).
    unfold scaled. symmetry. apply Zmult_compare_compat_r.
    apply Z.lt_gt, Z.pow_pos_nonneg; unfold ebase; lia.
  - apply Z.compare_lt_iff. now apply scaled_exp_lt.
  - apply Z.compare_gt_iff. now apply scaled_exp_lt.
Qed.

Ltac compare_lia :=
  first [ apply Z.compare_eq_iff; lia
        | apply Z.compare_lt_iff; lia
        | apply Z.compare_gt_iff; lia ].

Lemma SFcompare_Zval x y :
  valid_binary x = true -> valid_binary y = true ->
  x <> S754_nan -> y <> S754_nan ->
  SFcompare x y = Some (Zval x ?= Zval y).
Proof.
  assert (Htop : 0 < top) by (apply Z.pow_pos_nonneg; unfold emax, ebase; lia).
  destruct x as [sx|sx| |sx mx ex], y as [sy|sy| |sy my ey];
    intros Hx Hy Nx Ny; try congruence;
    cbn [valid_binary] in Hx, Hy; cbn [SFcompare Zval];
    try pose proof (@scaled_lt_top _ _ Hx) as Bx;
    try pose proof (@scaled_lt_top _ _ Hy) as By; f_equal; symmetry;
    try (destruct sx); try (destruct sy); cbn [cond_Zopp];
    try compare_lia.
  - rewrite Z.compare_opp. rewrite (@scaled_compare my ey mx ex Hy Hx).
    rewrite (Z.compare_antisym ex ey).
    destruct (ex ?= ey); simpl; auto.
    now rewrite Pos.compare_cont_antisym.
  - now apply scaled_compare.
Qed.

Lemma SFcompare_refl x : x <> S754_nan -> SFcompare x x = Some Eq.
Proof.
  destruct x as [s|s| |s m e]; simpl; intros H; try congruence;
    try (destruct s; reflexivity).
  rewrite Z.compare_refl.
  change (Pos.compare_cont Eq m m) with (Pos.compare m m).
  rewrite Pos.compare_refl. now destruct s.
Qed.

Lemma SFcompare_antisym x y :
  SFcompare y x = option_map CompOpp (SFcompare x y).
Proof.
  destruct x as [sx|sx| |sx mx ex], y as [sy|sy| |sy my ey]; simpl;
    try reflexivity;
    try (destruct sx; reflexivity); try (destruct sy; reflexivity);
    try (destruct sx, sy; reflexivity).
  destruct sx, sy; simpl; try reflexivity;
    rewrite (Z.compare_antisym ex ey);
    destruct (ex ?= ey)%Z; simpl; try reflexivity;
    rewrite ?Pos.compare_cont_antisym; simpl; try reflexivity.
Qed.

Lemma SFcompare_None x y :
  SFcompare x y = None <-> x = S754_nan \/ y = S754_nan.
Proof.
  destruct x as [sx|sx| |sx mx ex], y as [sy|sy| |sy my ey]; simpl;
    split; try discriminate; auto; intros [H|H]; discriminate.
Qed.

Lemma is_nan_SF x :
  is_nan x = match Prim2SF x with S754_nan => true | _ => false end.
Proof.
  unfold is_nan. rewrite eqb_spec. unfold SFeqb.
  destruct (Prim2SF x) eqn:E; try reflexivity;
    rewrite SFcompare_refl; try reflexivity; discriminate.
Qed.

Lemma is_zero_SF x :
  is_zero x = match Prim2SF x with S754_zero _ => true | _ => false end.
Proof.
  unfold is_zero. rewrite eqb_spec. change (Prim2SF zero) with (S754_zero false).
  unfold SFeqb.
  destruct (Prim2SF x) as [s|s| |s m e]; simpl; try reflexivity; now destruct s.
Qed.

Lemma is_finite_SF x :
  is_finite x
  = match Prim2SF x with
    | S754_zero _ | S754_finite _ _ _ => true
    | _ => false
    end.
Proof.
  unfold is_finite, is_infinity. rewrite is_nan_SF, eqb_spec, abs_spec.
  change (Prim2SF infinity) with (S754_infinity false).
  unfold SFeqb.
  destruct (Prim2SF x) as [s|s| |s m e]; simpl; reflexivity.
Qed.

(** Alignment to a smaller exponent keeps the value. *)
Lemma shl_align_spec m e e' :
  e' <= e ->
  snd (shl_align m e e') = e' /\
  Zpos (fst (shl_align m e e')) = Zpos m * 2 ^ (e - e').
Proof.
  intros He. unfold shl_align.
  destruct (e' - e) as [|d|d] eqn:Hd; try lia.
  - replace (e - e') with 0 by lia. cbn [fst snd]. split; lia.
  - cbn [fst snd]. split; [reflexivity|].
    change (Pos.iter xO m d) with (shift_pos d m).
    rewrite shift_pos_correct. replace (e - e') with (Zpos d) by lia.
    change (Z.pow_pos 2 d) with (2 ^ Zpos d). ring.
Qed.

Lemma shl_align_scaled m e e' :
  ebase <= e' <= e ->
  scaled (Zpos (fst (shl_align m e e'))) e' = scaled (Zpos m) e.
Proof.
  intros He. destruct (@shl_align_spec m e e' ltac:(lia)) as [_ ->].
  unfold scaled. rewrite <- Z.mul_assoc, <- Z.pow_add_r by lia.
  f_equal. f_equal. lia.
Qed.

Lemma top_pos : 0 < top.
Proof. apply Z.pow_pos_nonneg; unfold emax, ebase; lia. Qed.

Lemma minimum_same x : minimum x x = x.
Proof. unfold minimum. now destruct (is_nan x || (x <? x)%float). Qed.

Lemma maximum_same x : maximum x x = x.
Proof. unfold maximum. now destruct (is_nan x || (x <? x)%float). Qed.

Lemma maximum_0_pos h : (0 <? h)%float = true -> maximum 0 h = h.
Proof.
  unfold maximum. rewrite !ltb_spec.
  change (is_nan 0) with false. change (Prim2SF 0) with (S754_zero false).
  unfold SFltb.
  destruct (Prim2SF h) as [s|s| |s m e]; cbn [SFcompare]; try discriminate;
    destruct s; try discriminate; reflexivity.
Qed.

Lemma rne_bounds v k :
  0 <= k -> v / 2 ^ k <= rne v k <= v / 2 ^ k + 1.
Proof.
  intros Hk. unfold rne.
  destruct (2 * (v mod 2 ^ k) ?= 2 ^ k); try destruct (Z.even _); lia.
Qed.

Lemma rne_exact v k : 0 <= k -> v mod 2 ^ k = 0 -> rne v k = v / 2 ^ k.
Proof.
  intros Hk H. unfold rne. rewrite H.
  assert (0 < 2 ^ k) by (apply Z.pow_pos_nonneg; lia).
  now replace (2 * 0 ?= 2 ^ k) with Lt by (symmetry; apply Z.compare_lt_iff; lia).
Qed.

Lemma rne_mono v1 v2 k : 0 <= k -> v1 <= v2 -> rne v1 k <= rne v2 k.
Proof.
  intros Hk Hv.
  assert (Hp : 0 < 2 ^ k) by (apply Z.pow_pos_nonneg; lia).
  pose proof (Z.div_mod v1 (2 ^ k) ltac:(lia)) as E1.
  pose proof (Z.div_mod v2 (2 ^ k) ltac:(lia)) as E2.
  pose proof (Z.mod_pos_bound v1 (2 ^ k) Hp) as B1.
  pose proof (Z.mod_pos_bound v2 (2 ^ k) Hp) as B2.
  unfold rne.
  set (d1 := v1 / 2 ^ k) in *. set (d2 := v2 / 2 ^ k) in *.
  set (r1 := v1 mod 2 ^ k) in *. set (r2 := v2 mod 2 ^ k) in *.
  set (p := 2 ^ k) in *.
  assert (Hd : d1 <= d2) by nia.
  assert (Hcase : d1 = d2 \/ d1 + 1 <= d2) by lia.
  destruct Hcase as [Heq | Hlt].
  - assert (r1 <= r2) by nia. rewrite <- Heq.
    destruct (Z.compare_spec (2 * r1) p), (Z.compare_spec (2 * r2) p);
      try destruct (Z.even d1); lia.
  - destruct (Z.compare_spec (2 * r1) p), (Z.compare_spec (2 * r2) p);
      try destruct (Z.even d1) eqn:Ev1; try destruct (Z.even d2) eqn:Ev2;
      try lia.
Qed.

Lemma qexp_eq v : qexp v = Z.max (Z.log2 v - 52) 1076.
Proof.
  unfold qexp, fexp, SpecFloat.emin, prec, emax, ebase. lia.
Qed.

Lemma qexp_nonneg v : 0 <= qexp v.
Proof. rewrite qexp_eq. lia. Qed.

Lemma qexp_mono v1 v2 : v1 <= v2 -> qexp v1 <= qexp v2.
Proof.
  intros H. rewrite !qexp_eq. pose proof (Z.log2_le_mono v1 v2 H). lia.
Qed.

Lemma pow2_split a b : 0 <= a -> 0 <= b -> 2 ^ (a + b) = 2 ^ a * 2 ^ b.
Proof. intros. now apply Z.pow_add_r. Qed.

Lemma rnd_raw_mono v1 v2 : 0 <= v1 <= v2 -> rnd_raw v1 <= rnd_raw v2.
Proof.
  intros [H0 Hv]. unfold rnd_raw.
  pose proof (qexp_mono _ _ Hv) as Hk.
  pose proof (qexp_nonneg v1) as Hk1.
  pose proof (qexp_eq v1) as Hq1. pose proof (qexp_eq v2) as Hq2.
  set (k1 := qexp v1) in *. set (k2 := qexp v2) in *.
  assert (Hp1 : 0 < 2 ^ k1) by (apply Z.pow_pos_nonneg; lia).
  assert (Hp2 : 0 < 2 ^ k2) by (apply Z.pow_pos_nonneg; lia).
  destruct (Z.eq_dec k1 k2) as [E|E].
  - rewrite <- E. apply Z.mul_le_mono_nonneg_r; [lia|].
    apply rne_mono; lia.
  - assert (Hlt : k1 < k2) by lia.
    assert (Hv2 : 0 < v2).
    { destruct (Z.eq_dec v2 0) as [Z0|]; [|lia].
      assert (v1 = 0) by lia. subst v1 v2. lia. }
    assert (Hk2 : k2 = Z.log2 v2 - 52) by lia.
    assert (Hl1 : Z.log2 v1 - 52 <= k1) by lia.
    (* the larger value is at least a power of two the smaller cannot pass *)
    apply Z.le_trans with (2 ^ (k2 + 52)).
    + apply Z.le_trans with (2 ^ 53 * 2 ^ k1).
      * apply Z.mul_le_mono_nonneg_r; [lia|].
        destruct (rne_bounds v1 _ Hk1) as [_ Hub].
        assert (v1 / 2 ^ k1 < 2 ^ 53); [|lia].
        apply Z.div_lt_upper_bound; [lia|].
        rewrite Z.mul_comm, <- pow2_split by lia.
        destruct (Z.eq_dec v1 0) as [->|]; [apply Z.pow_pos_nonneg; lia|].
        destruct (Z.log2_spec v1 ltac:(lia)) as [_ Hhi].
        eapply Z.lt_le_trans; [exact Hhi|].
        apply Z.pow_le_mono_r; lia.
      * rewrite <- pow2_split by lia. apply Z.pow_le_mono_r; lia.
    + rewrite pow2_split by lia. rewrite (Z.mul_comm (2 ^ k2)).
      apply Z.mul_le_mono_nonneg_r; [lia|].
      destruct (rne_bounds v2 _ (qexp_nonneg v2)) as [Hlb _]. fold k2 in Hlb.
      assert (2 ^ 52 <= v2 / 2 ^ k2); [|lia].
      apply Z.div_le_lower_bound; [lia|].
      rewrite Z.mul_comm, <- pow2_split by lia.
      destruct (Z.log2_spec v2 Hv2) as [Hlo _].
      replace (52 + k2) with (Z.log2 v2) by lia. exact Hlo.
Qed.

Lemma rnd_mono v1 v2 : 0 <= v1 <= v2 -> rnd v1 <= rnd v2.
Proof.
  intros H. pose proof (rnd_raw_mono _ _ H) as Hr. unfold rnd. fold (rnd_raw v1) (rnd_raw v2).
  destruct (Z.ltb_spec (rnd_raw v1) top), (Z.ltb_spec (rnd_raw v2) top); lia.
Qed.

Lemma rnd_0 : rnd 0 = 0.
Proof. reflexivity. Qed.

Lemma rnd_nonneg v : 0 <= v -> 0 <= rnd v.
Proof.
  intros H. rewrite <- rnd_0. apply rnd_mono. lia.
Qed.

Lemma rnd_le_top v : rnd v <= top.
Proof. unfold rnd. destruct (Z.ltb_spec (rne v (qexp v) * 2 ^ qexp v) top); lia. Qed.

Lemma srnd_mono v1 v2 : v1 <= v2 -> srnd v1 <= srnd v2.
Proof.
  intros H. unfold srnd.
  destruct (Z.ltb_spec v1 0), (Z.ltb_spec v2 0); try lia.
  - assert (rnd (- v2) <= rnd (- v1)) by (apply rnd_mono; lia). lia.
  - pose proof (rnd_nonneg (- v1) ltac:(lia)).
    pose proof (rnd_nonneg v2 ltac:(lia)). lia.
  - apply rnd_mono; lia.
Qed.

Lemma srnd_opp v : srnd (- v) = - srnd v.
Proof.
  unfold srnd. destruct (Z.ltb_spec v 0), (Z.ltb_spec (- v) 0); try lia.
  - now rewrite Z.opp_involutive.
  - assert (v = 0) by lia. subst. reflexivity.
Qed.

(** *** Shifting a mantissa to the right *)
Lemma shr_1_spec m r s :
  0 <= m ->
  shr_1 {| shr_m := m; shr_r := r; shr_s := s |}
  = {| shr_m := m / 2; shr_r := Z.odd m; shr_s := r || s |}.
Proof.
  intros Hm. rewrite <- Z.div2_div.
  destruct m as [|[p|p|]|p]; try lia; reflexivity.
Qed.

Lemma shr_inv_0 m0 :
  shr_inv m0 0 {| shr_m := m0; shr_r := false; shr_s := false |}.
Proof.
  unfold shr_inv; cbn [shr_m shr_r shr_s].
  rewrite Z.pow_0_r, Z.div_1_r, Z.mod_1_r. repeat split.
Qed.

Lemma shr_inv_step m0 j mrs :
  0 <= m0 -> 0 <= j -> shr_inv m0 j mrs -> shr_inv m0 (j + 1) (shr_1 mrs).
Proof.
  intros Hm Hj [Hq [Hr Hs]]. destruct mrs as [m r s].
  cbn [shr_m shr_r shr_s] in *.
  assert (Hp : 0 < 2 ^ j) by (apply Z.pow_pos_nonneg; lia).
  assert (Hm' : 0 <= m) by (subst m; apply Z.div_pos; lia).
  rewrite shr_1_spec by exact Hm'. unfold shr_inv; cbn [shr_m shr_r shr_s].
  rewrite pow2_split by lia. change (2 ^ 1) with 2.
  rewrite Z.rem_mul_r by lia. rewrite <- Z.div_div by lia. rewrite <- Hq.
  rewrite (Zmod_odd m).
  pose proof (Z.mod_pos_bound m0 (2 ^ j) Hp) as Hb.
  set (rho := m0 mod 2 ^ j) in *. set (p := 2 ^ j) in *.
  split; [reflexivity|]. subst r s.
  destruct (Z.odd m); split;
    repeat match goal with
      | |- context [?a <=? ?b] => destruct (Z.leb_spec a b)
      | |- context [?a =? ?b] => destruct (Z.eqb_spec a b)
      end; cbn [negb andb orb]; try reflexivity; lia.
Qed.

Lemma iter_pos_shr_inv m0 p :
  0 <= m0 ->
  forall j mrs, 0 <= j -> shr_inv m0 j mrs ->
  shr_inv m0 (j + Zpos p) (iter_pos shr_1 p mrs).
Proof.
  intros Hm. induction p as [p IH|p IH|]; intros j mrs Hj Hi; cbn [iter_pos].
  - replace (j + Zpos p~1) with (j + 1 + Zpos p + Zpos p) by lia.
    apply IH; [lia|]. apply IH; [lia|]. now apply shr_inv_step.
  - replace (j + Zpos p~0) with (j + Zpos p + Zpos p) by lia.
    apply IH; [lia|]. now apply IH.
  - now apply shr_inv_step.
Qed.

Lemma shr_spec m0 j mrs e n :
  0 <= m0 -> 0 <= j -> 0 <= n -> shr_inv m0 j mrs ->
  shr_inv m0 (j + n) (fst (shr mrs e n)) /\ snd (shr mrs e n) = e + n.
Proof.
  intros Hm Hj Hn Hi. destruct n as [|p|p]; try lia; cbn [shr fst snd].
  - rewrite Z.add_0_r. split; [exact Hi | lia].
  - split; [|reflexivity]. now apply iter_pos_shr_inv.
Qed.

Lemma round_of_shr_inv m0 j mrs :
  0 <= j -> shr_inv m0 j mrs ->
  round_nearest_even (shr_m mrs) (loc_of_shr_record mrs) = rne m0 j.
Proof.
  intros Hj [Hq [Hr Hs]]. destruct mrs as [m r s].
  cbn [shr_m shr_r shr_s] in *. unfold rne. rewrite <- Hq.
  assert (Hp : 0 < 2 ^ j) by (apply Z.pow_pos_nonneg; lia).
  pose proof (Z.mod_pos_bound m0 (2 ^ j) Hp) as Hb.
  set (rho := m0 mod 2 ^ j) in *. set (p := 2 ^ j) in *.
  subst r s.
  destruct (Z.compare_spec (2 * rho) p);
    repeat match goal with
      | |- context [?a <=? ?b] => destruct (Z.leb_spec a b)
      | |- context [?a =? ?b] => destruct (Z.eqb_spec a b)
      end; cbn [negb andb orb loc_of_shr_record round_nearest_even];
    try reflexivity; lia.
Qed.

(** *** Rounding an exact value *)
Lemma digits_log2 m : Zpos (digits2_pos m) = Z.log2 (Zpos m) + 1.
Proof.
  pose proof (digits2_pos_bounds m) as [Hlo Hhi].
  assert (Z.log2 (Zpos m) = Zpos (digits2_pos m) - 1); [|lia].
  apply Z.log2_unique; [lia|]. split; [exact Hlo|].
  now replace (Z.succ (Zpos (digits2_pos m) - 1)) with (Zpos (digits2_pos m)) by lia.
Qed.

Lemma qexp_scaled m e :
  ebase <= e ->
  qexp (scaled (Zpos m) e) = fexp prec emax (Zpos (digits2_pos m) + e) - ebase.
Proof.
  intros He. unfold qexp, scaled.
  rewrite Z.log2_mul_pow2 by lia. rewrite digits_log2.
  f_equal. f_equal. lia.
Qed.

Lemma rne_scaled m n t : 0 <= n -> 0 <= t -> rne (m * 2 ^ t) (n + t) = rne m n.
Proof.
  intros Hn Ht. unfold rne.
  assert (Hpn : 0 < 2 ^ n) by (apply Z.pow_pos_nonneg; lia).
  assert (Hpt : 0 < 2 ^ t) by (apply Z.pow_pos_nonneg; lia).
  rewrite pow2_split by lia.
  rewrite Z.div_mul_cancel_r by lia.
  rewrite Z.mul_mod_distr_r by lia.
  replace (2 * (m mod 2 ^ n * 2 ^ t)) with (2 * (m mod 2 ^ n) * 2 ^ t) by ring.
  now rewrite <- Zmult_compare_compat_r by lia.
Qed.

Lemma scaled_below_top M E :
  0 <= M < 2 ^ prec -> ebase <= E <= emax - prec -> scaled M E < top.
Proof.
  intros [H0 HM] [HE1 HE2]. unfold scaled, top.
  assert (Hp : 0 < 2 ^ (E - ebase)) by (apply Z.pow_pos_nonneg; lia).
  apply Z.lt_le_trans with (2 ^ prec * 2 ^ (E - ebase)).
  - apply Z.mul_lt_mono_pos_r; lia.
  - rewrite <- pow2_split by (unfold prec; lia).
    apply Z.pow_le_mono_r; lia.
Qed.

Lemma scaled_above_top M E :
  2 ^ (prec - 1) <= M -> emax - prec < E -> top <= scaled M E.
Proof.
  intros HM HE. unfold scaled, top.
  assert (Hb : ebase <= E) by (unfold ebase, emax, prec in *; lia).
  assert (Hp : 0 < 2 ^ (E - ebase)) by (apply Z.pow_pos_nonneg; lia).
  apply Z.le_trans with (2 ^ (prec - 1) * 2 ^ (E - ebase)).
  - rewrite <- pow2_split by (unfold prec; lia).
    apply Z.pow_le_mono_r; lia.
  - apply Z.mul_le_mono_nonneg_r; lia.
Qed.

Lemma Zdigits2_bounds M :
  0 < M -> 2 ^ (Zdigits2 M - 1) <= M < 2 ^ Zdigits2 M.
Proof.
  destruct M as [|q|q]; try lia. intros _. apply digits2_pos_bounds.
Qed.

Lemma shr_nonpos mrs e n : n <= 0 -> shr mrs e n = (mrs, e).
Proof. destruct n; try lia; reflexivity. Qed.

Lemma loc_code_range l : 0 <= loc_code l <= 3.
Proof. destruct l as [|[]]; simpl; lia. Qed.

Lemma shr_inv_loc m l :
  0 <= m -> shr_inv (4 * m + loc_code l) 2 (shr_record_of_loc m l).
Proof.
  intros Hm. unfold shr_inv. change (2 ^ 2) with 4.
  pose proof (loc_code_range l) as Hc.
  replace ((4 * m + loc_code l) / 4) with m
    by (apply Z.div_unique with (loc_code l); lia).
  replace ((4 * m + loc_code l) mod 4) with (loc_code l)
    by (apply Z.mod_unique with m; lia).
  destruct l as [|[]]; repeat split.
Qed.

Lemma log2_with_loc m c :
  0 < m -> 0 <= c <= 3 -> Z.log2 (4 * m + c) = Z.log2 m + 2.
Proof.
  intros Hm Hc. destruct (Z.log2_spec m Hm) as [Hlo Hhi].
  pose proof (Z.log2_nonneg m).
  apply Z.log2_unique; [lia|].
  replace (Z.succ (Z.log2 m + 2)) with (Z.succ (Z.log2 m) + 2) by lia.
  rewrite !pow2_split by lia. change (2 ^ 2) with 4. lia.
Qed.

Lemma Zdigits2_log2 m : 0 < m -> Zdigits2 m = Z.log2 m + 1.
Proof. destruct m; try lia. intros _. apply digits_log2. Qed.

Lemma binary_round_aux_spec s m l e :
  0 <= m -> ebase + 2 <= e ->
  e <= fexp prec emax (Zdigits2 m + e) ->
  (m = 0 -> e <= emin) ->
  binary_round_aux prec emax s m e l <> S754_nan /\
  Zval (binary_round_aux prec emax s m e l)
  = cond_Zopp s (rnd (scaled (4 * m + loc_code l) (e - 2))).
Proof.
  intros Hm He Hpre Hm0.
  pose proof (loc_code_range l) as Hc.
  set (m0 := 4 * m + loc_code l) in *.
  set (E := fexp prec emax (Zdigits2 m + e)) in *.
  assert (HE : E = Z.max (Zdigits2 m + e - prec) emin) by reflexivity.
  rewrite emin_value in HE, Hm0.
  set (n := E - e).
  assert (Hn : 0 <= n) by (unfold n; lia).
  assert (Hq : qexp (scaled m0 (e - 2)) = E - ebase).
  { rewrite qexp_eq. unfold scaled.
    destruct (Z.eq_dec m0 0) as [Hz|Hz].
    - rewrite Hz. assert (m = 0) by lia. subst m.
      cbn [Zdigits2 Z.mul Z.log2] in *. unfold ebase, prec in *. lia.
    - rewrite Z.log2_mul_pow2 by (unfold ebase in *; lia).
      destruct (Z.eq_dec m 0) as [->|Hmz].
      + specialize (Hm0 eq_refl). cbn [Zdigits2] in HE.
        assert (Hl : 0 <= Z.log2 m0 <= 1).
        { split; [apply Z.log2_nonneg|].
          assert (Z.log2 m0 <= Z.log2 3) by (apply Z.log2_le_mono; lia).
          simpl in H; lia. }
        unfold ebase, prec in *. lia.
      + unfold m0. rewrite log2_with_loc by lia.
        rewrite Zdigits2_log2 in HE by lia. unfold ebase, prec in *. lia. }
  unfold binary_round_aux, shr_fexp. fold E n.
  destruct (@shr_spec m0 2 (shr_record_of_loc m l) e n
              ltac:(lia) ltac:(lia) Hn (shr_inv_loc m l Hm)) as [Hinv He'].
  destruct (shr (shr_record_of_loc m l) e n) as [mrs' e'].
  cbn [fst snd] in Hinv, He'.
  rewrite (@round_of_shr_inv m0 (2 + n) mrs' ltac:(lia) Hinv).
  replace e' with E by (unfold n in He'; lia). clear e' He'.
  assert (Hrne : rne (scaled m0 (e - 2)) (qexp (scaled m0 (e - 2)))
                 = rne m0 (2 + n)).
  { rewrite Hq. unfold scaled.
    replace (E - ebase) with (2 + n + (e - 2 - ebase)) by (unfold n; lia).
    apply rne_scaled; lia. }
  unfold rnd. rewrite Hrne, Hq. clear Hrne Hq Hinv mrs'.
  (* the rounded mantissa *)
  set (M := rne m0 (2 + n)).
  assert (Hpn : 0 < 2 ^ n) by (apply Z.pow_pos_nonneg; lia).
  assert (Hdiv : m0 / 2 ^ (2 + n) = m / 2 ^ n).
  { rewrite pow2_split by lia. rewrite <- Z.div_div by lia.
    f_equal. symmetry. apply Z.div_unique with (loc_code l); unfold m0;
      change (2 ^ 2) with 4; lia. }
  pose proof (@rne_bounds m0 (2 + n) ltac:(lia)) as [Hlb Hub].
  fold M in Hlb, Hub. rewrite Hdiv in Hlb, Hub.
  assert (HM : 0 <= M <= 2 ^ prec).
  { split; [pose proof (Z.div_pos m (2 ^ n)); lia|].
    assert (m / 2 ^ n < 2 ^ prec); [|lia].
    apply Z.div_lt_upper_bound; [lia|].
    destruct (Z.eq_dec m 0) as [->|Hmz];
      [apply Z.mul_pos_pos; [lia | apply Z.pow_pos_nonneg; unfold prec; lia]|].
    destruct (@Zdigits2_bounds m ltac:(lia)) as [_ Hdhi].
    eapply Z.lt_le_trans; [exact Hdhi|].
    rewrite <- pow2_split by (unfold prec; lia).
    apply Z.pow_le_mono_r; unfold n; lia. }
  assert (HMn : -1074 < E -> 2 ^ (prec - 1) <= M).
  { intros HEn.
    assert (Hmz : 0 < m).
    { destruct (Z.eq_dec m 0) as [Hz|]; [|lia].
      exfalso. specialize (Hm0 Hz). rewrite Hz in HE. cbn [Zdigits2] in HE.
      unfold prec in HE. lia. }
    destruct (@Zdigits2_bounds m Hmz) as [Hdlo _].
    assert (2 ^ (prec - 1) <= m / 2 ^ n); [|lia].
    apply Z.div_le_lower_bound; [lia|].
    rewrite <- pow2_split by (unfold prec; lia).
    eapply Z.le_trans; [|exact Hdlo].
    apply Z.pow_le_mono_r; unfold n; lia. }
  fold (scaled M E).
  destruct (Z.eq_dec M (2 ^ prec)) as [Hcarry | Hnocarry].
  - (* the mantissa was rounded up to the next power of two *)
    rewrite Hcarry.
    replace (fexp prec emax (Zdigits2 (2 ^ prec) + E) - E) with 1
      by (unfold fexp; rewrite emin_value; change (Zdigits2 (2 ^ prec)) with 54;
          unfold prec; lia).
    cbn [shr iter_pos shr_record_of_loc]. rewrite shr_1_spec by (unfold prec; lia).
    cbn [shr_m]. change (2 ^ prec / 2) with (Zpos 4503599627370496).
    cbv iota beta.
    assert (Hs : scaled (2 ^ prec) E = scaled (2 ^ (prec - 1)) (E + 1)).
    { unfold scaled. replace (E + 1 - ebase) with (1 + (E - ebase)) by lia.
      rewrite pow2_split by (unfold ebase; lia).
      change (2 ^ prec) with (2 ^ (prec - 1) * 2 ^ 1). ring. }
    rewrite Hs.
    destruct (Z.leb_spec (E + 1) (emax - prec)) as [Hfin | Hinf].
    + split; [discriminate|]. cbn [Zval].
      change (Zpos 4503599627370496) with (2 ^ (prec - 1)).
      pose proof (@scaled_below_top (2 ^ (prec - 1)) (E + 1)
                    ltac:(unfold prec; simpl; lia)
                    ltac:(unfold ebase; lia)) as Hlt.
      apply Z.ltb_lt in Hlt. now rewrite Hlt.
    + split; [discriminate|]. cbn [Zval].
      pose proof (@scaled_above_top (2 ^ (prec - 1)) (E + 1)
                    ltac:(lia) ltac:(lia)) as Hge.
      apply Z.ltb_ge in Hge. now rewrite Hge.
  - assert (HM' : 0 <= M < 2 ^ prec) by lia.
    assert (Hshift : fexp prec emax (Zdigits2 M + E) - E <= 0).
    { unfold fexp. rewrite emin_value.
      destruct (Z.eq_dec M 0) as [->|HMz]; [cbn [Zdigits2]; unfold prec; lia|].
      pose proof (@Zdigits2_bounds M ltac:(lia)) as [Hlo _].
      assert (Zdigits2 M - 1 < prec); [|lia].
      apply (Z.pow_lt_mono_r_iff 2); [lia | unfold prec; lia | lia]. }
    cbn [shr_record_of_loc].
    rewrite shr_nonpos by exact Hshift. cbn [shr_m].
    destruct M as [|q|q] eqn:EM; try lia.
    + split; [discriminate|]. cbn [Zval].
      replace (scaled 0 E) with 0 by (unfold scaled; lia).
      pose proof top_pos. assert (Ht : (0 <? top) = true) by (apply Z.ltb_lt; lia).
      rewrite Ht. now destruct s.
    + destruct (Z.leb_spec E (emax - prec)) as [Hfin | Hinf].
      * split; [discriminate|]. cbn [Zval].
        pose proof (@scaled_below_top (Zpos q) E HM'
                      ltac:(unfold ebase; lia)) as Hlt.
        apply Z.ltb_lt in Hlt. now rewrite Hlt.
      * split; [discriminate|]. cbn [Zval].
        pose proof (@scaled_above_top (Zpos q) E
                      ltac:(apply HMn; unfold emax, prec in *; lia)
                      ltac:(lia)) as Hge.
        apply Z.ltb_ge in Hge. now rewrite Hge.
Qed.

Lemma scaled_loc_exact m e :
  ebase + 2 <= e -> scaled (4 * m + loc_code loc_Exact) (e - 2) = scaled m e.
Proof.
  intros He. unfold scaled, loc_code.
  replace (e - ebase) with (2 + (e - 2 - ebase)) by lia.
  rewrite pow2_split by lia. change (2 ^ 2) with 4. ring.
Qed.

Lemma binary_round_spec s m e :
  ebase + 2 <= e ->
  binary_round prec emax s m e <> S754_nan /\
  Zval (binary_round prec emax s m e) = cond_Zopp s (rnd (scaled (Zpos m) e)).
Proof.
  intros He. unfold binary_round.
  set (E := fexp prec emax (Zpos (digits2_pos m) + e)).
  assert (HE : E = Z.max (Zpos (digits2_pos m) + e - prec) emin) by reflexivity.
  rewrite emin_value in HE.
  destruct (Z.le_gt_cases e E) as [Hle | Hgt].
  - assert (Hal : shl_align m e E = (m, e)).
    { unfold shl_align. destruct (E - e) eqn:Hd; try reflexivity; lia. }
    rewrite Hal. rewrite <- (@scaled_loc_exact (Zpos m) e He).
    apply binary_round_aux_spec; try lia. exact Hle.
  - destruct (@shl_align_spec m e E ltac:(lia)) as [Hs Hf].
    destruct (shl_align m e E) as [mz ez]. cbn [fst snd] in Hs, Hf. subst ez.
    assert (Hsc : scaled (Zpos mz) E = scaled (Zpos m) e).
    { unfold scaled. rewrite Hf.
      replace (e - ebase) with (e - E + (E - ebase)) by lia.
      rewrite pow2_split by (unfold ebase in *; lia). ring. }
    rewrite <- Hsc.
    rewrite <- (@scaled_loc_exact (Zpos mz) E ltac:(unfold ebase in *; lia)).
    apply binary_round_aux_spec; try lia.
    + unfold ebase in *; lia.
    + assert (Hd : Zdigits2 (Zpos mz) + E = Zpos (digits2_pos m) + e).
      { rewrite Zdigits2_log2 by lia. rewrite Hf.
        rewrite Z.log2_mul_pow2 by lia. rewrite digits_log2. lia. }
      rewrite Hd. fold E. lia.
Qed.

Lemma rnd_representable v :
  0 <= v -> representable v -> rnd v = Z.min v top.
Proof.
  intros Hv Hr. unfold rnd. pose proof (qexp_nonneg v) as Hk.
  rewrite rne_exact by assumption.
  assert (Hp : 0 < 2 ^ qexp v) by (apply Z.pow_pos_nonneg; lia).
  replace (v / 2 ^ qexp v * 2 ^ qexp v) with v.
  - destruct (Z.ltb_spec v top); lia.
  - unfold representable in Hr.
    pose proof (Z.div_mod v (2 ^ qexp v) ltac:(lia)). lia.
Qed.

Lemma representable_scaled m e :
  bounded prec emax m e = true -> representable (scaled (Zpos m) e).
Proof.
  intros Hb. pose proof (bounded_inv _ _ Hb) as [He _]. rewrite emin_value in He.
  unfold representable. rewrite qexp_scaled by (unfold ebase; lia).
  unfold bounded, canonical_mantissa in Hb.
  apply andb_true_iff in Hb. destruct Hb as [Hc _]. apply Z.eqb_eq in Hc.
  rewrite Hc. unfold scaled. apply Z.mod_mul.
  apply Z.pow_nonzero; unfold ebase; lia.
Qed.

Lemma rnd_scaled m e :
  bounded prec emax m e = true ->
  rnd (scaled (Zpos m) e) = scaled (Zpos m) e.
Proof.
  intros Hb. pose proof (scaled_lt_top _ _ Hb) as [H0 Ht].
  rewrite rnd_representable; [lia | lia | now apply representable_scaled].
Qed.

Lemma representable_double v :
  0 <= v -> representable v -> representable (2 * v).
Proof.
  intros Hv Hr. unfold representable in *.
  destruct (Z.eq_dec v 0) as [->|Hz]; [reflexivity|].
  pose proof (qexp_nonneg v) as Hk. pose proof (qexp_nonneg (2 * v)) as Hk'.
  assert (Hle : qexp (2 * v) <= qexp v + 1).
  { rewrite !qexp_eq. rewrite Z.log2_double by lia. lia. }
  apply Z.mod_divide; [apply Z.pow_nonzero; lia|].
  apply Z.mod_divide in Hr; [|apply Z.pow_nonzero; lia].
  destruct Hr as [c Hc].
  exists (c * 2 ^ (qexp v + 1 - qexp (2 * v))).
  rewrite <- Z.mul_assoc, <- pow2_split by lia.
  replace (qexp v + 1 - qexp (2 * v) + qexp (2 * v)) with (qexp v + 1) by lia.
  rewrite pow2_split by lia. change (2 ^ 1) with 2. lia.
Qed.

Lemma srnd_cond_Zopp s v : 0 <= v -> srnd (cond_Zopp s v) = cond_Zopp s (rnd v).
Proof.
  intros Hv. destruct s; cbn [cond_Zopp].
  - rewrite srnd_opp. f_equal. unfold srnd.
    now destruct (Z.ltb_spec v 0); [lia|].
  - unfold srnd. now destruct (Z.ltb_spec v 0); [lia|].
Qed.

Lemma srnd_Zval x :
  valid_binary x = true -> SFfinite x = true -> srnd (Zval x) = Zval x.
Proof.
  destruct x as [s|s| |s m e]; try discriminate; intros Hv _; cbn [Zval].
  - reflexivity.
  - cbn [valid_binary] in Hv. pose proof (scaled_lt_top _ _ Hv).
    rewrite srnd_cond_Zopp by lia. now rewrite rnd_scaled.
Qed.

Lemma binary_normalize_spec z e :
  ebase + 2 <= e ->
  binary_normalize prec emax z e false <> S754_nan /\
  Zval (binary_normalize prec emax z e false) = srnd (scaled z e).
Proof.
  intros He. destruct z as [|p|p]; cbn [binary_normalize].
  - split; [discriminate | reflexivity].
  - destruct (@binary_round_spec false p e He) as [Hn Hv].
    split; [exact Hn|]. rewrite Hv. cbn [cond_Zopp].
    assert (0 < scaled (Zpos p) e) by (apply scaled_pos; lia).
    unfold srnd. now destruct (Z.ltb_spec (scaled (Zpos p) e) 0); [lia|].
  - destruct (@binary_round_spec true p e He) as [Hn Hv].
    split; [exact Hn|]. rewrite Hv. cbn [cond_Zopp].
    assert (0 < scaled (Zpos p) e) by (apply scaled_pos; lia).
    replace (scaled (Zneg p) e) with (- scaled (Zpos p) e)
      by (unfold scaled; lia).
    rewrite srnd_opp. f_equal.
    unfold srnd. now destruct (Z.ltb_spec (scaled (Zpos p) e) 0); [lia|].
Qed.

Lemma aligned_value s m e ez :
  bounded prec emax m e = true -> ebase <= ez <= e ->
  scaled (cond_Zopp s (Zpos (fst (shl_align m e ez)))) ez
  = Zval (S754_finite s m e).
Proof.
  intros Hb He. cbn [Zval]. rewrite <- (shl_align_scaled m e ez He).
  unfold scaled. destruct s; cbn [cond_Zopp]; ring.
Qed.

Lemma scaled_add a b e : scaled (a + b) e = scaled a e + scaled b e.
Proof. unfold scaled. ring. Qed.

Lemma scaled_sub a b e : scaled (a - b) e = scaled a e - scaled b e.
Proof. unfold scaled. ring. Qed.

Lemma Zval_opp x : Zval (SFopp x) = - Zval x.
Proof.
  destruct x as [[]|[]| |[] m e]; cbn [SFopp Zval negb cond_Zopp]; lia.
Qed.

Lemma SFsub_val x y :
  valid_binary x = true -> valid_binary y = true ->
  SFfinite x = true -> SFfinite y = true ->
  SF64sub x y <> S754_nan /\ Zval (SF64sub x y) = srnd (Zval x - Zval y).
Proof.
  intros Vx Vy Fx Fy. unfold SF64sub, SFsub.
  destruct x as [sx|sx| |sx mx ex], y as [sy|sy| |sy my ey];
    try discriminate.
  - split; [destruct sx, sy; discriminate|].
    destruct sx, sy; reflexivity.
  - split; [discriminate|].
    change (S754_finite (negb sy) my ey) with (SFopp (S754_finite sy my ey)).
    rewrite Zval_opp. change (Zval (S754_zero sx)) with 0.
    replace (0 - Zval (S754_finite sy my ey))
      with (- Zval (S754_finite sy my ey)) by lia.
    rewrite srnd_opp. f_equal. symmetry. now apply srnd_Zval.
  - split; [discriminate|]. change (Zval (S754_zero sy)) with 0.
    rewrite Z.sub_0_r. symmetry. now apply srnd_Zval.
  - cbn [valid_binary] in Vx, Vy.
    pose proof (bounded_inv _ _ Vx) as [Hex _].
    pose proof (bounded_inv _ _ Vy) as [Hey _].
    rewrite emin_value in *.
    set (ez := Z.min ex ey).
    destruct (binary_normalize_spec
                (cond_Zopp sx (Zpos (fst (shl_align mx ex ez)))
                 - cond_Zopp sy (Zpos (fst (shl_align my ey ez)))) ez
                ltac:(unfold ebase, ez; lia)) as [Hn Hv].
    split; [exact Hn|]. rewrite Hv, scaled_sub.
    rewrite !aligned_value by (auto; unfold ebase, ez; lia). reflexivity.
Qed.

Lemma SFadd_val x y :
  valid_binary x = true -> valid_binary y = true ->
  SFfinite x = true -> SFfinite y = true ->
  SF64add x y <> S754_nan /\ Zval (SF64add x y) = srnd (Zval x + Zval y).
Proof.
  intros Vx Vy Fx Fy. unfold SF64add, SFadd.
  destruct x as [sx|sx| |sx mx ex], y as [sy|sy| |sy my ey];
    try discriminate.
  - split; [destruct sx, sy; discriminate|].
    destruct sx, sy; reflexivity.
  - split; [discriminate|]. change (Zval (S754_zero sx)) with 0.
    rewrite Z.add_0_l. symmetry. now apply srnd_Zval.
  - split; [discriminate|]. change (Zval (S754_zero sy)) with 0.
    rewrite Z.add_0_r. symmetry. now apply srnd_Zval.
  - cbn [valid_binary] in Vx, Vy.
    pose proof (bounded_inv _ _ Vx) as [Hex _].
    pose proof (bounded_inv _ _ Vy) as [Hey _].
    rewrite emin_value in *.
    set (ez := Z.min ex ey).
    destruct (binary_normalize_spec
                (cond_Zopp sx (Zpos (fst (shl_align mx ex ez)))
                 + cond_Zopp sy (Zpos (fst (shl_align my ey ez)))) ez
                ltac:(unfold ebase, ez; lia)) as [Hn Hv].
    split; [exact Hn|]. rewrite Hv, scaled_add.
    rewrite !aligned_value by (auto; unfold ebase, ez; lia). reflexivity.
Qed.

Lemma digits_mul mx my :
  Zpos (digits2_pos mx) + Zpos (digits2_pos my) - 1
  <= Zpos (digits2_pos (mx * my)).
Proof.
  pose proof (digits2_pos_bounds mx) as [Hx _].
  pose proof (digits2_pos_bounds my) as [Hy _].
  pose proof (digits2_pos_bounds (mx * my)) as [_ Hxy].
  set (dx := Zpos (digits2_pos mx)) in *.
  set (dy := Zpos (digits2_pos my)) in *.
  set (D := Zpos (digits2_pos (mx * my))) in *.
  assert (0 < dx /\ 0 < dy /\ 0 < D) as [? [? ?]] by (unfold dx, dy, D; lia).
  assert (dx - 1 + (dy - 1) < D); [|lia].
  apply (Z.pow_lt_mono_r_iff 2); [lia | lia |].
  rewrite pow2_split by lia. rewrite Pos2Z.inj_mul in Hxy.
  assert (0 < 2 ^ (dx - 1)) by (apply Z.pow_pos_nonneg; lia).
  assert (0 < 2 ^ (dy - 1)) by (apply Z.pow_pos_nonneg; lia).
  nia.
Qed.

Lemma SFmul_val x y :
  valid_binary x = true -> valid_binary y = true ->
  SFfinite x = true -> SFfinite y = true ->
  SF64mul x y <> S754_nan /\
  exists p, p * one_val = Zval x * Zval y /\ Zval (SF64mul x y) = srnd p.
Proof.
  intros Vx Vy Fx Fy. unfold SF64mul, SFmul.
  destruct x as [sx|sx| |sx mx ex], y as [sy|sy| |sy my ey];
    try discriminate;
    try (split; [discriminate|]; exists 0; cbn [Zval]; split; [lia | reflexivity]).
  cbn [valid_binary] in Vx, Vy.
  pose proof (bounded_inv _ _ Vx) as [Hex _].
  pose proof (bounded_inv _ _ Vy) as [Hey _].
  rewrite emin_value in *.
  assert (Hpre : ex + ey <= fexp prec emax (Zdigits2 (Zpos (mx * my)) + (ex + ey))).
  { pose proof (digits_mul mx my) as HD. cbn [Zdigits2].
    unfold bounded, canonical_mantissa, fexp in *. rewrite emin_value in *.
    apply andb_true_iff in Vx, Vy.
    destruct Vx as [Cx _], Vy as [Cy _]. apply Z.eqb_eq in Cx, Cy.
    unfold prec in *. lia. }
  destruct (binary_round_aux_spec (xorb sx sy) (Zpos (mx * my)) loc_Exact
              (ex + ey) ltac:(lia) ltac:(unfold ebase; lia) Hpre
              ltac:(discriminate)) as [Hn Hv].
  split; [exact Hn|].
  rewrite scaled_loc_exact in Hv by (unfold ebase; lia).
  exists (cond_Zopp (xorb sx sy) (scaled (Zpos (mx * my)) (ex + ey))).
  assert (Hsp : 0 < scaled (Zpos (mx * my)) (ex + ey))
    by (apply scaled_pos; unfold ebase; lia).
  split.
  - cbn [Zval]. unfold one_val, scaled. rewrite Pos2Z.inj_mul.
    assert (Hpw : 2 ^ (ex + ey - ebase) * 2 ^ (0 - ebase)
                  = 2 ^ (ex - ebase) * 2 ^ (ey - ebase)).
    { rewrite <- !pow2_split by (unfold ebase; lia). f_equal. lia. }
    assert (Hgen : Zpos mx * Zpos my * 2 ^ (ex + ey - ebase) * (1 * 2 ^ (0 - ebase))
                   = Zpos mx * 2 ^ (ex - ebase) * (Zpos my * 2 ^ (ey - ebase))).
    { transitivity (Zpos mx * Zpos my
                    * (2 ^ (ex + ey - ebase) * 2 ^ (0 - ebase)));
        [ring | rewrite Hpw; ring]. }
    destruct sx, sy; cbn [xorb cond_Zopp]; lia.
  - rewrite Hv. symmetry. apply srnd_cond_Zopp. lia.
Qed.

(** *** Quotients *)
Lemma new_location_code m r :
  0 <= loc_code (new_location m r) <= 3 /\
  (r = 0 -> loc_code (new_location m r) = 0).
Proof.
  split; [apply loc_code_range|]. intros ->.
  unfold new_location, new_location_even, new_location_odd.
  now destruct (Z.even m).
Qed.

Lemma one_val_rnd : rnd one_val = one_val.
Proof.
  assert (H : one_val = scaled (Zpos 4503599627370496) (-52)).
  { unfold one_val, scaled.
    replace (0 - ebase) with (52 + (-52 - ebase)) by (unfold ebase; lia).
    rewrite pow2_split by (unfold ebase; lia). reflexivity. }
  rewrite H. apply rnd_scaled. reflexivity.
Qed.

Lemma fexp_mono a b : a <= b -> fexp prec emax a <= fexp prec emax b.
Proof. unfold fexp. lia. Qed.

(** A positive finite number divided by one at least as large is at most 1. *)
Lemma SFdiv_le_one sx m1 e1 sy m2 e2 :
  bounded prec emax m1 e1 = true -> bounded prec emax m2 e2 = true ->
  scaled (Zpos m1) e1 <= scaled (Zpos m2) e2 ->
  exists r,
    0 <= r <= one_val /\
    SF64div (S754_finite sx m1 e1) (S754_finite sy m2 e2) <> S754_nan /\
    Zval (SF64div (S754_finite sx m1 e1) (S754_finite sy m2 e2))
    = cond_Zopp (xorb sx sy) r.
Proof.
  intros V1 V2 Hle.
  pose proof (bounded_inv _ _ V1) as [He1 [Hm1 _]].
  pose proof (bounded_inv _ _ V2) as [He2 [Hm2 _]].
  rewrite emin_value in *.
  assert (Hee : e1 <= e2).
  { destruct (Z.le_gt_cases e1 e2) as [|Hgt]; [assumption|].
    pose proof (scaled_exp_lt _ _ _ _ V2 V1 Hgt). lia. }
  unfold SF64div, SFdiv, SFdiv_core_binary. cbn [Zdigits2].
  pose proof (digits2_pos_bounds m1) as [Hd1lo Hd1hi].
  pose proof (digits2_pos_bounds m2) as [Hd2lo Hd2hi].
  set (d1 := Zpos (digits2_pos m1)) in *.
  set (d2 := Zpos (digits2_pos m2)) in *.
  assert (0 < d1 /\ 0 < d2) as [Hd1 Hd2] by (unfold d1, d2; lia).
  set (delta := d1 + e1 - (d2 + e2)).
  set (e' := Z.min (fexp prec emax delta) (e1 - e2)).
  assert (He'f : e' <= fexp prec emax delta) by (unfold e'; lia).
  assert (He'0 : e' <= e1 - e2) by (unfold e'; lia).
  assert (He'lo : -2045 <= e').
  { unfold e', fexp. rewrite emin_value. unfold emax, prec in *. lia. }
  set (s := e1 - e2 - e').
  assert (Hs : 0 <= s) by (unfold s; lia).
  set (m' := match s with
             | 0 => Zpos m1
             | Zpos _ => Z.shiftl (Zpos m1) s
             | Zneg _ => 0
             end).
  assert (Hm' : m' = Zpos m1 * 2 ^ s).
  { unfold m'. destruct s as [|p|p] eqn:Es; try lia.
    now rewrite Z.shiftl_mul_pow2 by lia. }
  clearbody m'.
  assert (Hps : 0 < 2 ^ s) by (apply Z.pow_pos_nonneg; lia).
  destruct (Z.div_eucl m' (Zpos m2)) as [q r] eqn:Hdiv.
  assert (Hq : q = m' / Zpos m2) by (unfold Z.div; now rewrite Hdiv).
  assert (Hr : r = m' mod Zpos m2) by (unfold Z.modulo; now rewrite Hdiv).
  pose proof (Z.div_mod m' (Zpos m2) ltac:(lia)) as Hdm.
  pose proof (Z.mod_pos_bound m' (Zpos m2) ltac:(lia)) as Hrb.
  rewrite <- Hq, <- Hr in Hdm. rewrite <- Hr in Hrb.
  assert (Hq0 : 0 <= q) by (subst q; apply Z.div_pos; lia).
  (* the quotient has the digits the exponent was chosen for *)
  assert (Hdq : delta <= Zdigits2 q + e').
  { destruct (Z.eq_dec q 0) as [Hz|Hz].
    - rewrite Hz. cbn [Zdigits2].
      assert (d1 + s - 1 < d2); [|unfold delta, s in *; lia].
      apply (Z.pow_lt_mono_r_iff 2); [lia | lia |].
      assert (2 ^ (d1 + s - 1) = 2 ^ (d1 - 1) * 2 ^ s)
        by (rewrite <- pow2_split by lia; f_equal; lia).
      nia.
    - destruct (Zdigits2_bounds q ltac:(lia)) as [_ Hqhi].
      assert (Hdq0 : 0 < Zdigits2 q) by (destruct q; cbn; lia).
      assert (d1 + s - 1 < Zdigits2 q + d2); [|unfold delta, s in *; lia].
      apply (Z.pow_lt_mono_r_iff 2); [lia | lia |].
      assert (2 ^ (d1 + s - 1) = 2 ^ (d1 - 1) * 2 ^ s)
        by (rewrite <- pow2_split by lia; f_equal; lia).
      rewrite (pow2_split (Zdigits2 q) d2) by lia.
      assert (0 < 2 ^ Zdigits2 q) by (apply Z.pow_pos_nonneg; lia).
      nia. }
  assert (Hpre : e' <= fexp prec emax (Zdigits2 q + e')).
  { pose proof (fexp_mono _ _ Hdq). lia. }
  assert (Hz : q = 0 -> e' <= emin).
  { intros Hz0. rewrite Hz0 in Hdq. cbn [Zdigits2] in Hdq.
    unfold fexp in He'f. rewrite emin_value in *. unfold prec in *. lia. }
  destruct (binary_round_aux_spec (xorb sx sy) q (new_location (Zpos m2) r) e'
              Hq0 ltac:(unfold ebase; lia) Hpre Hz) as [Hn Hv].
  destruct (new_location_code (Zpos m2) r) as [Hc Hc0].
  set (c := loc_code (new_location (Zpos m2) r)) in *.
  exists (rnd (scaled (4 * q + c) (e' - 2))).
  split; [|split; assumption].
  (* the dividend is at most the divisor scaled to the quotient's unit *)
  assert (HN : m' <= Zpos m2 * 2 ^ (- e')).
  { assert (Hm12 : Zpos m1 <= Zpos m2 * 2 ^ (e2 - e1)).
    { unfold scaled in Hle.
      replace (e2 - ebase) with (e2 - e1 + (e1 - ebase)) in Hle by lia.
      rewrite pow2_split in Hle by (unfold ebase; lia).
      assert (0 < 2 ^ (e1 - ebase))
        by (apply Z.pow_pos_nonneg; unfold ebase; lia).
      nia. }
    rewrite Hm'. replace (- e') with (e2 - e1 + s) by (unfold s; lia).
    rewrite pow2_split by lia. nia. }
  assert (HpN : 0 < 2 ^ (- e')) by (apply Z.pow_pos_nonneg; lia).
  assert (Hqc : 4 * q + c <= 4 * 2 ^ (- e')).
  { assert (Hcase : q < 2 ^ (- e') \/ q = 2 ^ (- e') /\ r = 0) by nia.
    destruct Hcase as [Hlt | [Hqe Hr0]]; [lia|].
    rewrite (Hc0 Hr0). lia. }
  split.
  - apply rnd_nonneg. unfold scaled.
    apply Z.mul_nonneg_nonneg; [lia | apply Z.pow_nonneg; lia].
  - rewrite <- one_val_rnd. apply rnd_mono. split.
    + unfold scaled. apply Z.mul_nonneg_nonneg; [lia | apply Z.pow_nonneg; lia].
    + unfold one_val, scaled.
      replace (0 - ebase) with (2 + - e' + (e' - 2 - ebase))
        by (unfold ebase; lia).
      rewrite !pow2_split by (unfold ebase; lia). change (2 ^ 2) with 4.
      assert (0 < 2 ^ (e' - 2 - ebase))
        by (apply Z.pow_pos_nonneg; unfold ebase; lia).
      nia.
Qed.

Lemma one_val_pos : 1 < one_val.
Proof.
  unfold one_val, scaled. rewrite Z.mul_1_l.
  change 1 with (2 ^ 0) at 1. apply Z.pow_lt_mono_r; unfold ebase; lia.
Qed.

Lemma big_top : 2 * top <= big.
Proof. unfold big. pose proof one_val_pos. pose proof top_pos. nia. Qed.

Lemma ext_mono v1 v2 : v1 <= v2 -> ext v1 <= ext v2.
Proof.
  intros H. unfold ext. pose proof big_top. pose proof top_pos.
  destruct (Z.leb_spec top v1), (Z.leb_spec top v2),
    (Z.leb_spec v1 (- top)), (Z.leb_spec v2 (- top)); lia.
Qed.

Lemma ext_small v : - top < v < top -> ext v = v.
Proof.
  intros H. unfold ext.
  destruct (Z.leb_spec top v), (Z.leb_spec v (- top)); lia.
Qed.

Lemma ext_opp v : ext (- v) = - ext v.
Proof.
  unfold ext. pose proof top_pos.
  destruct (Z.leb_spec top v), (Z.leb_spec v (- top)),
    (Z.leb_spec top (- v)), (Z.leb_spec (- v) (- top)); lia.
Qed.

Lemma srnd_range v : - top <= srnd v <= top.
Proof.
  unfold srnd. destruct (Z.ltb_spec v 0).
  - pose proof (rnd_le_top (- v)). pose proof (rnd_nonneg (- v)). lia.
  - pose proof (rnd_le_top v). pose proof (rnd_nonneg v). lia.
Qed.

Lemma rnd_top v : top <= v -> rnd v = top.
Proof.
  intros H. pose proof top_pos.
  assert (Ht : rnd top = top).
  { rewrite rnd_representable; [lia | lia |].
    unfold representable, top. rewrite qexp_eq.
    rewrite Z.log2_pow2 by (unfold emax, ebase; lia).
    apply Z.mod_divide; [apply Z.pow_nonzero; unfold emax, ebase; lia|].
    exists (2 ^ (emax - ebase - Z.max (emax - ebase - 52) 1076)).
    rewrite <- pow2_split by (unfold emax, ebase; lia).
    f_equal; lia. }
  pose proof (rnd_mono top v ltac:(lia)). pose proof (rnd_le_top v). lia.
Qed.

Lemma srnd_top v : top <= v -> srnd v = top.
Proof.
  intros H. pose proof top_pos. unfold srnd.
  destruct (Z.ltb_spec v 0); [lia|]. now apply rnd_top.
Qed.

Lemma srnd_0 : srnd 0 = 0.
Proof. reflexivity. Qed.

Lemma srnd_nonneg v : 0 <= v -> 0 <= srnd v.
Proof. intros H. rewrite <- srnd_0. now apply srnd_mono. Qed.

Lemma ext_top : ext top = big.
Proof. unfold ext. now destruct (Z.leb_spec top top); [|lia]. Qed.

Lemma float_shape_of x : float_shape x.
Proof.
  pose proof (Prim2SF_valid x) as V.
  pose proof (is_nan_SF x) as Hn. pose proof (is_finite_SF x) as Hf.
  pose proof top_pos as Ht.
  destruct (Prim2SF x) as [s|s| |s m e] eqn:E.
  - assert (- top < Zval (S754_zero s) < top) by (cbn [Zval]; lia).
    apply shape_finite; rewrite ?E; auto. unfold xval. rewrite E.
    now apply ext_small.
  - apply (shape_inf x s); auto. unfold xval. rewrite E. cbn [Zval].
    destruct s; cbn [cond_Zopp]; [rewrite ext_opp|]; now rewrite ext_top.
  - now apply shape_nan.
  - cbn [valid_binary] in V. pose proof (scaled_lt_top _ _ V).
    assert (- top < Zval (S754_finite s m e) < top)
      by (cbn [Zval]; destruct s; cbn [cond_Zopp]; lia).
    apply shape_finite; rewrite ?E; auto. unfold xval. rewrite E.
    now apply ext_small.
Qed.

Lemma ext_strict v1 v2 :
  - top <= v1 <= top -> - top <= v2 <= top ->
  (ext v1 ?= ext v2) = (v1 ?= v2).
Proof.
  intros H1 H2. unfold ext. pose proof big_top. pose proof top_pos.
  destruct (Z.leb_spec top v1), (Z.leb_spec top v2),
    (Z.leb_spec v1 (- top)), (Z.leb_spec v2 (- top));
    destruct (Z.compare_spec v1 v2); try lia; try reflexivity; compare_lia.
Qed.

Lemma valid_Zval_range x :
  valid_binary x = true -> - top <= Zval x <= top.
Proof.
  intros V. pose proof top_pos.
  destruct x as [s|[]| |s m e]; cbn [Zval cond_Zopp]; try lia.
  cbn [valid_binary] in V. pose proof (scaled_lt_top _ _ V).
  destruct s; cbn [cond_Zopp]; lia.
Qed.

Lemma compare_xval x y :
  is_nan x = false -> is_nan y = false ->
  SFcompare (Prim2SF x) (Prim2SF y) = Some (xval x ?= xval y).
Proof.
  rewrite !is_nan_SF. intros Hx Hy. unfold xval.
  rewrite ext_strict by (apply valid_Zval_range, Prim2SF_valid).
  apply SFcompare_Zval; try apply Prim2SF_valid.
  - intros E; rewrite E in Hx; discriminate.
  - intros E; rewrite E in Hy; discriminate.
Qed.

Lemma leb_xval x y :
  is_nan x = false -> is_nan y = false ->
  (x <=? y)%float = (xval x <=? xval y).
Proof.
  intros Hx Hy. rewrite leb_spec. unfold SFleb.
  rewrite (compare_xval x y Hx Hy). unfold Z.leb.
  now destruct (xval x ?= xval y).
Qed.

Lemma ltb_xval x y :
  is_nan x = false -> is_nan y = false ->
  (x <? y)%float = (xval x <? xval y).
Proof.
  intros Hx Hy. rewrite ltb_spec. unfold SFltb.
  rewrite (compare_xval x y Hx Hy). unfold Z.ltb.
  now destruct (xval x ?= xval y).
Qed.

Lemma leb_nan x y :
  (x <=? y)%float = true -> is_nan x = false /\ is_nan y = false.
Proof.
  rewrite leb_spec, !is_nan_SF. unfold SFleb.
  destruct (Prim2SF x), (Prim2SF y); simpl; try discriminate; auto.
Qed.

Lemma ltb_nan x y :
  (x <? y)%float = true -> is_nan x = false /\ is_nan y = false.
Proof.
  rewrite ltb_spec, !is_nan_SF. unfold SFltb.
  destruct (Prim2SF x), (Prim2SF y); simpl; try discriminate; auto.
Qed.

Lemma leb_le x y : (x <=? y)%float = true -> xval x <= xval y.
Proof.
  intros H. destruct (leb_nan x y H) as [Hx Hy].
  rewrite (leb_xval x y Hx Hy) in H. now apply Z.leb_le.
Qed.

Lemma ltb_lt x y : (x <? y)%float = true -> xval x < xval y.
Proof.
  intros H. destruct (ltb_nan x y H) as [Hx Hy].
  rewrite (ltb_xval x y Hx Hy) in H. now apply Z.ltb_lt.
Qed.

Lemma le_leb x y :
  is_nan x = false -> is_nan y = false -> xval x <= xval y ->
  (x <=? y)%float = true.
Proof. intros Hx Hy H. rewrite (leb_xval x y Hx Hy). now apply Z.leb_le. Qed.

Lemma xval_0 : xval 0 = 0.
Proof. reflexivity. Qed.

Lemma xval_1 : xval 1 = one_val.
Proof.
  unfold xval. change (Prim2SF 1) with (S754_finite false 4503599627370496 (-52)).
  cbn [Zval cond_Zopp].
  assert (H : one_val = scaled (Zpos 4503599627370496) (-52)).
  { unfold one_val, scaled.
    replace (0 - ebase) with (52 + (-52 - ebase)) by (unfold ebase; lia).
    rewrite pow2_split by (unfold ebase; lia). reflexivity. }
  rewrite <- H. apply ext_small. pose proof one_val_pos.
  pose proof (scaled_lt_top 4503599627370496 (-52) eq_refl). lia.
Qed.

Lemma ext_srnd_top v : top <= v -> ext (srnd v) = big.
Proof. intros H. rewrite srnd_top by assumption. apply ext_top. Qed.

Lemma ext_srnd_bot v : v <= - top -> ext (srnd v) = - big.
Proof.
  intros H. replace v with (- - v) by lia.
  rewrite srnd_opp, ext_opp. f_equal. apply ext_srnd_top. lia.
Qed.

Lemma ext_srnd_mono v1 v2 : v1 <= v2 -> ext (srnd v1) <= ext (srnd v2).
Proof. intros H. now apply ext_mono, srnd_mono. Qed.

(** Destructs the shapes of the operands of an operation, drops the cases
    where an operand is NaN, and leaves the specification of the result. *)
Ltac by_shape x y :=
  destruct (float_shape_of x) as [Ex Nx _ | Fx Nx Ix Bx Vx | sx Ex Nx Ix Vx];
  destruct (float_shape_of y) as [Ey Ny _ | Fy Ny Iy By Vy | sy Ey Ny Iy Vy].

Lemma sub_xval x y :
  is_nan (x - y) = false ->
  xval (x - y) = ext (srnd (xval x - xval y)).
Proof.
  rewrite is_nan_SF. unfold xval at 1. rewrite sub_spec.
  pose proof top_pos as Ht. pose proof big_top as Hb.
  by_shape x y.
  - rewrite Ex. discriminate.
  - rewrite Ex. discriminate.
  - rewrite Ex. discriminate.
  - rewrite Ey. destruct (Prim2SF x); discriminate.
  - intros _. rewrite Vx, Vy.
    now destruct (SFsub_val _ _ (Prim2SF_valid x) (Prim2SF_valid y) Fx Fy)
      as [_ ->].
  - intros _. rewrite Vx, Vy, Ey.
    assert (Hr : SF64sub (Prim2SF x) (S754_infinity sy)
                 = S754_infinity (negb sy))
      by (destruct (Prim2SF x); try discriminate; reflexivity).
    rewrite Hr. cbn [Zval].
    destruct sy; cbn [cond_Zopp negb].
    + rewrite ext_top. symmetry. apply ext_srnd_top. lia.
    + rewrite ext_opp, ext_top. symmetry. apply ext_srnd_bot. lia.
  - rewrite Ey. destruct (Prim2SF x); discriminate.
  - intros _. rewrite Vx, Vy, Ex.
    assert (Hr : SF64sub (S754_infinity sx) (Prim2SF y) = S754_infinity sx)
      by (destruct (Prim2SF y); try discriminate; reflexivity).
    rewrite Hr. cbn [Zval].
    destruct sx; cbn [cond_Zopp].
    + rewrite ext_opp, ext_top. symmetry. apply ext_srnd_bot. lia.
    + rewrite ext_top. symmetry. apply ext_srnd_top. lia.
  - rewrite Vx, Vy, Ex, Ey.
    destruct sx, sy; cbn [SF64sub SFsub]; try discriminate; intros _;
      cbn [Zval cond_Zopp].
    + rewrite ext_opp, ext_top. symmetry. apply ext_srnd_bot. lia.
    + rewrite ext_top. symmetry. apply ext_srnd_top. lia.
Qed.

Lemma add_xval x y :
  is_nan (x + y) = false ->
  xval (x + y) = ext (srnd (xval x + xval y)).
Proof.
  rewrite is_nan_SF. unfold xval at 1. rewrite add_spec.
  pose proof top_pos as Ht. pose proof big_top as Hb.
  by_shape x y.
  - rewrite Ex. discriminate.
  - rewrite Ex. discriminate.
  - rewrite Ex. discriminate.
  - rewrite Ey. destruct (Prim2SF x); discriminate.
  - intros _. rewrite Vx, Vy.
    now destruct (SFadd_val _ _ (Prim2SF_valid x) (Prim2SF_valid y) Fx Fy)
      as [_ ->].
  - intros _. rewrite Vx, Vy, Ey.
    assert (Hr : SF64add (Prim2SF x) (S754_infinity sy) = S754_infinity sy)
      by (destruct (Prim2SF x); try discriminate; reflexivity).
    rewrite Hr. cbn [Zval].
    destruct sy; cbn [cond_Zopp negb].
    + rewrite ext_opp, ext_top. symmetry. apply ext_srnd_bot. lia.
    + rewrite ext_top. symmetry. apply ext_srnd_top. lia.
  - rewrite Ey. destruct (Prim2SF x); discriminate.
  - intros _. rewrite Vx, Vy, Ex.
    assert (Hr : SF64add (S754_infinity sx) (Prim2SF y) = S754_infinity sx)
      by (destruct (Prim2SF y); try discriminate; reflexivity).
    rewrite Hr. cbn [Zval].
    destruct sx; cbn [cond_Zopp].
    + rewrite ext_opp, ext_top. symmetry. apply ext_srnd_bot. lia.
    + rewrite ext_top. symmetry. apply ext_srnd_top. lia.
  - rewrite Vx, Vy, Ex, Ey.
    destruct sx, sy; cbn [SF64add SFadd]; try discriminate; intros _;
      cbn [Zval cond_Zopp].
    + rewrite ext_opp, ext_top. symmetry. apply ext_srnd_bot. lia.
    + rewrite ext_top. symmetry. apply ext_srnd_top. lia.
Qed.

Lemma finite_Zval_sign s m e :
  bounded prec emax m e = true ->
  1 <= cond_Zopp s (Zval (S754_finite s m e)) < top.
Proof.
  intros V. pose proof (scaled_lt_top _ _ V). cbn [Zval].
  destruct s; cbn [cond_Zopp]; lia.
Qed.

Lemma mul_xval x y :
  is_nan (x * y) = false ->
  exists p,
    p * one_val = xval x * xval y /\ xval (x * y) = ext (srnd p).
Proof.
  rewrite is_nan_SF. unfold xval at 3. rewrite mul_spec.
  pose proof top_pos as Ht. pose proof big_top as Hb.
  pose proof one_val_pos as Ho.
  by_shape x y.
  - rewrite Ex. discriminate.
  - rewrite Ex. discriminate.
  - rewrite Ex. discriminate.
  - rewrite Ey. destruct (Prim2SF x); discriminate.
  - intros _.
    destruct (SFmul_val _ _ (Prim2SF_valid x) (Prim2SF_valid y) Fx Fy)
      as [_ [p [Hp Hv]]].
    exists p. now rewrite Hv, Vx, Vy.
  - rewrite Ey. pose proof (Prim2SF_valid x) as V. revert Vx.
    destruct (Prim2SF x) as [s|s| |s m e]; try discriminate.
    cbn [valid_binary] in V. pose proof (finite_Zval_sign s m e V) as Hs.
    intros Vx _. cbn [SF64mul SFmul].
    exists (Zval (S754_finite s m e) * cond_Zopp sy top).
    rewrite Vx, Vy.
    split; [unfold big; destruct sy; cbn [cond_Zopp]; ring|].
    destruct s, sy; cbn [xorb Zval cond_Zopp] in *.
    + rewrite ext_top. symmetry. apply ext_srnd_top. nia.
    + rewrite ext_opp, ext_top. symmetry. apply ext_srnd_bot. nia.
    + rewrite ext_opp, ext_top. symmetry. apply ext_srnd_bot. nia.
    + rewrite ext_top. symmetry. apply ext_srnd_top. nia.
  - rewrite Ey. destruct (Prim2SF x); discriminate.
  - rewrite Ex. pose proof (Prim2SF_valid y) as V. revert Vy.
    destruct (Prim2SF y) as [s|s| |s m e]; try discriminate.
    cbn [valid_binary] in V. pose proof (finite_Zval_sign s m e V) as Hs.
    intros Vy _. cbn [SF64mul SFmul].
    exists (cond_Zopp sx top * Zval (S754_finite s m e)).
    rewrite Vx, Vy.
    split; [unfold big; destruct sx; cbn [cond_Zopp]; ring|].
    destruct s, sx; cbn [xorb Zval cond_Zopp] in *.
    + rewrite ext_top. symmetry. apply ext_srnd_top. nia.
    + rewrite ext_opp, ext_top. symmetry. apply ext_srnd_bot. nia.
    + rewrite ext_opp, ext_top. symmetry. apply ext_srnd_bot. nia.
    + rewrite ext_top. symmetry. apply ext_srnd_top. nia.
  - intros _. rewrite Ex, Ey. cbn [SF64mul SFmul Zval].
    exists (cond_Zopp sx top * cond_Zopp sy big).
    rewrite Vx, Vy.
    split; [unfold big; destruct sx, sy; cbn [cond_Zopp]; ring|].
    destruct sx, sy; cbn [xorb cond_Zopp].
    + rewrite ext_top. symmetry. apply ext_srnd_top. nia.
    + rewrite ext_opp, ext_top. symmetry. apply ext_srnd_bot. nia.
    + rewrite ext_opp, ext_top. symmetry. apply ext_srnd_bot. nia.
    + rewrite ext_top. symmetry. apply ext_srnd_top. nia.
Qed.

(** *** Order and the operations *)
Lemma sub_operands x y :
  is_nan (x - y) = false -> is_nan x = false /\ is_nan y = false.
Proof.
  rewrite !is_nan_SF, sub_spec.
  destruct (Prim2SF x), (Prim2SF y); try discriminate; auto.
Qed.

Lemma add_operands x y :
  is_nan (x + y) = false -> is_nan x = false /\ is_nan y = false.
Proof.
  rewrite !is_nan_SF, add_spec.
  destruct (Prim2SF x), (Prim2SF y); try discriminate; auto.
Qed.

Lemma mul_operands x y :
  is_nan (x * y) = false -> is_nan x = false /\ is_nan y = false.
Proof.
  rewrite !is_nan_SF, mul_spec.
  destruct (Prim2SF x), (Prim2SF y); try discriminate; auto.
Qed.

Lemma sub_mono x y x' y' :
  (x <=? x')%float = true -> (y' <=? y)%float = true ->
  is_nan (x - y) = false -> is_nan (x' - y') = false ->
  (x - y <=? x' - y')%float = true.
Proof.
  intros Hx Hy Hn Hn'. apply le_leb; try assumption.
  rewrite !sub_xval by assumption. apply ext_srnd_mono.
  apply leb_le in Hx, Hy. lia.
Qed.

Lemma mul_nonneg a b :
  (0 <=? a)%float = true -> (0 <=? b)%float = true ->
  is_nan (a * b) = false -> (0 <=? a * b)%float = true.
Proof.
  intros Ha Hb Hn. apply le_leb; [reflexivity | assumption |].
  destruct (mul_xval a b Hn) as [p [Hp ->]].
  apply leb_le in Ha, Hb. rewrite xval_0 in *.
  pose proof one_val_pos.
  assert (0 <= p) by nia.
  change 0 with (ext (srnd 0)). now apply ext_srnd_mono.
Qed.

Lemma mul_mono a b a' b' :
  (0 <=? a)%float = true -> (a <=? a')%float = true ->
  (0 <=? b)%float = true -> (b <=? b')%float = true ->
  is_nan (a * b) = false -> is_nan (a' * b') = false ->
  (a * b <=? a' * b')%float = true.
Proof.
  intros Ha Haa Hb Hbb Hn Hn'. apply le_leb; try assumption.
  destruct (mul_xval a b Hn) as [p [Hp ->]].
  destruct (mul_xval a' b' Hn') as [p' [Hp' ->]].
  apply leb_le in Ha, Haa, Hb, Hbb. rewrite xval_0 in *.
  pose proof one_val_pos.
  apply ext_srnd_mono. nia.
Qed.

Lemma SFcompare_Eq x y :
  SFcompare x y = Some Eq ->
  x = y \/ exists s s', x = S754_zero s /\ y = S754_zero s'.
Proof.
  destruct x as [sx|sx| |sx mx ex], y as [sy|sy| |sy my ey]; simpl;
    try discriminate;
    try (destruct sx; discriminate); try (destruct sy; discriminate).
  - intros _; right; eauto.
  - destruct sx, sy; try discriminate; now left.
  - destruct sx, sy; try discriminate;
      destruct (ex ?= ey)%Z eqn:He; try discriminate;
      apply Z.compare_eq in He; subst;
      change (Pos.compare_cont Eq mx my) with (Pos.compare mx my);
      destruct (mx ?= my)%positive eqn:Hm; try discriminate;
      apply Pos.compare_eq in Hm; subst; now left.
Qed.

Lemma SFleb_of_Zval x y :
  valid_binary x = true -> valid_binary y = true ->
  x <> S754_nan -> y <> S754_nan -> Zval x <= Zval y ->
  SFleb x y = true.
Proof.
  intros Vx Vy Nx Ny H. unfold SFleb.
  rewrite (SFcompare_Zval x y Vx Vy Nx Ny).
  destruct (Z.compare_spec (Zval x) (Zval y)); auto; lia.
Qed.

Lemma xval_inj x y :
  is_nan x = false -> is_nan y = false ->
  xval x = xval y -> xval x <> 0 -> x = y.
Proof.
  intros Hx Hy He Hz. pose proof (compare_xval x y Hx Hy) as Hc.
  rewrite He, Z.compare_refl in Hc.
  apply SFcompare_Eq in Hc. destruct Hc as [Hc | [s [s' [Hs Hs']]]].
  - now apply Prim2SF_inj.
  - exfalso. apply Hz. unfold xval. now rewrite Hs.
Qed.

Lemma finite_representable x :
  is_finite x = true -> representable (Z.abs (xval x)).
Proof.
  intros Hf. destruct (float_shape_of x) as [E N I | F N I B V | s E N I V];
    try congruence.
  rewrite V. pose proof (Prim2SF_valid x) as Hv.
  destruct (Prim2SF x) as [s|s| |s m e]; try discriminate.
  - reflexivity.
  - cbn [valid_binary] in Hv. pose proof (scaled_lt_top _ _ Hv).
    cbn [Zval]. replace (Z.abs (cond_Zopp s (scaled (Zpos m) e)))
      with (scaled (Zpos m) e) by (destruct s; cbn [cond_Zopp]; lia).
    now apply representable_scaled.
Qed.

Lemma srnd_representable v :
  representable (Z.abs v) ->
  srnd v = v \/ (top <= v /\ srnd v = top) \/ (v <= - top /\ srnd v = - top).
Proof.
  intros Hr. unfold srnd. destruct (Z.ltb_spec v 0).
  - replace (Z.abs v) with (- v) in Hr by lia.
    rewrite rnd_representable by (auto; lia).
    destruct (Z.le_gt_cases top (- v)); [right; right | left]; lia.
  - replace (Z.abs v) with v in Hr by lia.
    rewrite rnd_representable by (auto; lia).
    destruct (Z.le_gt_cases top v); [right; left | left]; lia.
Qed.

Lemma finite_xval x :
  is_finite x = true -> - top < xval x < top /\ is_nan x = false.
Proof.
  intros Hf. destruct (float_shape_of x) as [E N I | F N I B V | s E N I V];
    try congruence.
  rewrite V. auto.
Qed.

Lemma finite_sub_finite x y :
  is_finite x = true -> is_finite y = true -> is_nan (x - y) = false.
Proof.
  rewrite !is_finite_SF, is_nan_SF, sub_spec. intros Fx Fy.
  destruct (SFsub_val _ _ (Prim2SF_valid x) (Prim2SF_valid y)) as [Hn _].
  - destruct (Prim2SF x); try discriminate; reflexivity.
  - destruct (Prim2SF y); try discriminate; reflexivity.
  - destruct (SF64sub (Prim2SF x) (Prim2SF y)); congruence.
Qed.

Lemma srnd_xval x : is_finite x = true -> srnd (xval x) = xval x.
Proof.
  intros Hf. destruct (finite_xval x Hf) as [Hb _].
  destruct (srnd_representable _ (finite_representable x Hf))
    as [H | [[H _] | [H _]]]; [assumption | lia | lia].
Qed.

(** Doubling a number and taking it away again gives it back, unless the
    double overflows. *)
Lemma add_sub_self a :
  is_finite (a + a) = true -> xval a <> 0 -> (a + a - a)%float = a.
Proof.
  intros Hf Hz.
  destruct (finite_xval _ Hf) as [Hb Hn].
  destruct (add_operands a a Hn) as [Na _].
  assert (Fa : is_finite a = true).
  { destruct (float_shape_of a) as [E N I | F N I B V | s E N I V];
      try congruence.
    exfalso. rewrite (add_xval a a Hn), V in Hb.
    pose proof top_pos. pose proof big_top.
    destruct s; cbn [cond_Zopp] in Hb.
    - rewrite ext_srnd_bot in Hb by lia. lia.
    - rewrite ext_srnd_top in Hb by lia. lia. }
  destruct (finite_xval _ Fa) as [Ba _].
  assert (Hd : xval (a + a) = 2 * xval a).
  { rewrite (add_xval a a Hn) in *.
    replace (xval a + xval a) with (2 * xval a) in * by lia.
    pose proof top_pos. pose proof big_top.
    assert (Hr : representable (Z.abs (2 * xval a))).
    { rewrite Z.abs_mul. change (Z.abs 2) with 2.
      apply representable_double; [lia|]. now apply finite_representable. }
    destruct (srnd_representable _ Hr) as [H1 | [[H1 H2] | [H1 H2]]].
    - rewrite H1 in *. apply ext_small. unfold ext in Hb.
      destruct (Z.leb_spec top (2 * xval a)),
        (Z.leb_spec (2 * xval a) (- top)); lia.
    - rewrite H2, ext_top in Hb. lia.
    - rewrite H2, ext_opp, ext_top in Hb. lia. }
  assert (Hs : is_nan (a + a - a) = false) by now apply finite_sub_finite.
  apply xval_inj; try assumption.
  - rewrite (sub_xval _ _ Hs), Hd.
    replace (2 * xval a - xval a) with (xval a) by lia.
    rewrite srnd_xval by assumption. now apply ext_small.
  - rewrite (sub_xval _ _ Hs), Hd.
    replace (2 * xval a - xval a) with (xval a) by lia.
    rewrite srnd_xval by assumption. now rewrite ext_small.
Qed.

Lemma div_le_one i u :
  is_finite i = true -> (0 <=? i)%float = true ->
  (i <=? u)%float = true -> (0 <? u)%float = true ->
  (0 <=? i / u)%float = true /\ (i / u <=? 1)%float = true.
Proof.
  intros Fi H0 Hiu Hu.
  apply leb_le in H0, Hiu. apply ltb_lt in Hu. rewrite xval_0 in *.
  rewrite !leb_spec.
  pose proof (Prim2SF_valid (i / u)) as Vq. rewrite div_spec in *.
  change (Prim2SF 0) with (S754_zero false).
  change (Prim2SF 1) with (S754_finite false 4503599627370496 (-52)).
  pose proof (Prim2SF_valid i) as Vi. pose proof (Prim2SF_valid u) as Vu.
  pose proof top_pos as Ht. pose proof big_top as Hb.
  destruct (float_shape_of i) as [E N I | F N I B V | s E N I V];
    try congruence.
  rewrite V in *. clear Fi I.
  destruct (float_shape_of u) as [Eu Nu Iu | Fu Nu Iu Bu Vu' | su Eu Nu Iu Vu'];
    [|rewrite Vu' in *..].
  - unfold xval in Hu. rewrite Eu in Hu. cbn [Zval] in Hu.
    change (ext 0) with 0 in Hu. lia.
  - destruct (Prim2SF i) as [si|si| |si m1 e1]; try discriminate;
      destruct (Prim2SF u) as [su|su| |su m2 e2]; try discriminate;
      cbn [Zval] in *; try lia.
    + destruct su; cbn [cond_Zopp] in *;
        [pose proof (scaled_lt_top _ _ Vu); lia|].
      destruct si; split; reflexivity.
    + cbn [valid_binary] in Vi, Vu.
      pose proof (scaled_lt_top _ _ Vi). pose proof (scaled_lt_top _ _ Vu).
      destruct si; cbn [cond_Zopp] in *; [lia|].
      destruct su; cbn [cond_Zopp] in *; [lia|].
      destruct (SFdiv_le_one false m1 e1 false m2 e2 Vi Vu Hiu)
        as [r [Hr [Hnan Hv]]].
      cbn [xorb cond_Zopp] in Hv.
      assert (Hone : Zval (S754_finite false 4503599627370496 (-52)) = one_val).
      { cbn [Zval cond_Zopp]. unfold one_val, scaled.
        replace (0 - ebase) with (52 + (-52 - ebase)) by (unfold ebase; lia).
        rewrite pow2_split by (unfold ebase; lia). reflexivity. }
      split; apply SFleb_of_Zval; auto; try discriminate;
        rewrite ?Hone, Hv; cbn [Zval]; lia.
  - rewrite Eu in *.
    destruct su; cbn [cond_Zopp] in Hu; [lia|].
    destruct (Prim2SF i) as [si|si| |si m1 e1]; try discriminate.
    + destruct si; split; reflexivity.
    + cbn [valid_binary] in Vi. pose proof (scaled_lt_top _ _ Vi).
      cbn [Zval] in *.
      destruct si; cbn [cond_Zopp] in *; [lia|]. split; reflexivity.
Qed.

(** *** Minimum and maximum *)
Lemma leb_total x y :
  is_nan x = false -> is_nan y = false ->
  (x <=? y)%float = false -> (y <=? x)%float = true.
Proof.
  intros Hx Hy. rewrite (leb_xval x y Hx Hy), (leb_xval y x Hy Hx).
  intros H. apply Z.leb_gt in H. apply Z.leb_le. lia.
Qed.

Lemma leb_refl x : is_nan x = false -> (x <=? x)%float = true.
Proof. intros H. apply le_leb; auto. lia. Qed.

Lemma ltb_leb x y : (x <? y)%float = true -> (x <=? y)%float = true.
Proof.
  intros H. destruct (ltb_nan _ _ H) as [Hx Hy].
  apply le_leb; auto. apply ltb_lt in H. lia.
Qed.

Lemma ltb_false_leb x y :
  is_nan x = false -> is_nan y = false ->
  (x <? y)%float = false -> (y <=? x)%float = true.
Proof.
  intros Hx Hy. rewrite (ltb_xval x y Hx Hy), (leb_xval y x Hy Hx).
  intros H. apply Z.ltb_ge in H. now apply Z.leb_le.
Qed.

Lemma minimum_le a b :
  is_nan (minimum a b) = false ->
  (minimum a b <=? a)%float = true /\ (minimum a b <=? b)%float = true.
Proof.
  unfold minimum. destruct (is_nan a) eqn:Ha; cbn [orb]; [congruence|].
  destruct (a <? b)%float eqn:Hab.
  - intros _. split; [now apply leb_refl | now apply ltb_leb].
  - intros Hb. split; [now apply ltb_false_leb | now apply leb_refl].
Qed.

Lemma maximum_ge a b :
  is_nan (maximum a b) = false ->
  (a <=? maximum a b)%float = true /\ (b <=? maximum a b)%float = true.
Proof.
  unfold maximum. destruct (is_nan a) eqn:Ha; cbn [orb]; [congruence|].
  destruct (b <? a)%float eqn:Hba.
  - intros _. split; [now apply leb_refl | now apply ltb_leb].
  - intros Hb. split; [now apply ltb_false_leb | now apply leb_refl].
Qed.

Lemma maximum_0_operand x : is_nan (maximum 0 x) = false -> is_nan x = false.
Proof.
  unfold maximum. change (is_nan 0) with false. cbn [orb].
  destruct (x <? 0)%float eqn:H; [|auto].
  intros _. now destruct (ltb_nan _ _ H).
Qed.

Lemma maximum_0_le x y :
  (x <=? y)%float = true -> (0 <=? y)%float = true ->
  (maximum 0 x <=? y)%float = true.
Proof. intros Hx H0. unfold maximum. now destruct (is_nan 0 || (x <? 0)%float). Qed.

(** *** One axis of a box *)
Lemma extent_nonneg lo hi :
  (lo <=? hi)%float = true -> is_nan (hi - lo) = false ->
  (0 <=? hi - lo)%float = true.
Proof.
  intros Hv Hn. apply le_leb; [reflexivity | assumption |].
  rewrite (sub_xval _ _ Hn). change (xval 0) with (ext (srnd 0)).
  apply ext_srnd_mono. apply leb_le in Hv. lia.
Qed.

Lemma overlap_bounds lo1 hi1 lo2 hi2 :
  (lo1 <=? hi1)%float = true ->
  let overlap := maximum 0 (minimum hi1 hi2 - maximum lo1 lo2)%float in
  is_nan overlap = false ->
  (0 <=? overlap)%float = true /\
  (is_nan (hi1 - lo1) = false -> (overlap <=? hi1 - lo1)%float = true).
Proof.
  intros Hv overlap Hn.
  destruct (maximum_ge _ _ Hn) as [H0 _]. split; [exact H0|].
  intros Hn1.
  pose proof (maximum_0_operand _ Hn) as Hd.
  destruct (sub_operands _ _ Hd) as [Hp Hq].
  destruct (minimum_le _ _ Hp) as [Hp1 _].
  destruct (maximum_ge _ _ Hq) as [Hq1 _].
  apply maximum_0_le; [now apply sub_mono | now apply extent_nonneg].
Qed.

Lemma nan_unique x y : is_nan x = true -> is_nan y = true -> x = y.
Proof.
  rewrite !is_nan_SF. intros Hx Hy. apply Prim2SF_inj.
  destruct (Prim2SF x), (Prim2SF y); congruence.
Qed.

Lemma zeq_SF x y :
  zeq x y <->
  (Prim2SF x = Prim2SF y \/
   exists s s', Prim2SF x = S754_zero s /\ Prim2SF y = S754_zero s').
Proof.
  unfold zeq. rewrite !is_zero_SF. split.
  - intros [-> | [Hx Hy]]; [now left|]. right.
    destruct (Prim2SF x), (Prim2SF y); try discriminate; eauto.
  - intros [H | [s [s' [Hx Hy]]]]; [left; now apply Prim2SF_inj|].
    right. now rewrite Hx, Hy.
Qed.

Lemma leb_antisym x y :
  (x <=? y)%float = true -> (y <=? x)%float = true -> zeq x y.
Proof.
  rewrite !leb_spec, zeq_SF. unfold SFleb.
  rewrite (SFcompare_antisym (Prim2SF x) (Prim2SF y)).
  destruct (SFcompare (Prim2SF x) (Prim2SF y)) as [[]|] eqn:E; simpl;
    try discriminate.
  intros _ _. now apply SFcompare_Eq.
Qed.

Lemma zeq_refl x : zeq x x.
Proof. now left. Qed.

Lemma zeq_sym x y : zeq x y -> zeq y x.
Proof. intros [-> | [? ?]]; [now left | now right]. Qed.

Lemma ltb_asym x y : (x <? y)%float = true -> (y <? x)%float = false.
Proof.
  intros H. destruct (ltb_nan _ _ H) as [Hx Hy].
  rewrite (ltb_xval y x Hy Hx). apply ltb_lt in H. apply Z.ltb_ge. lia.
Qed.

Lemma ltb_nan_false x y :
  is_nan x = true \/ is_nan y = true -> (x <? y)%float = false.
Proof.
  intros H. destruct (x <? y)%float eqn:E; [|reflexivity].
  destruct (ltb_nan _ _ E). destruct H; congruence.
Qed.

Lemma minimum_comm a b : zeq (minimum a b) (minimum b a).
Proof.
  unfold minimum.
  destruct (is_nan a) eqn:Ha, (is_nan b) eqn:Hb; cbn [orb].
  - left. now apply nan_unique.
  - rewrite (ltb_nan_false b a) by auto. apply zeq_refl.
  - rewrite (ltb_nan_false a b) by auto. apply zeq_refl.
  - destruct (a <? b)%float eqn:Hab.
    + rewrite (ltb_asym _ _ Hab). apply zeq_refl.
    + destruct (b <? a)%float eqn:Hba; [apply zeq_refl|].
      apply leb_antisym; now apply ltb_false_leb.
Qed.

Lemma maximum_comm a b : zeq (maximum a b) (maximum b a).
Proof.
  unfold maximum.
  destruct (is_nan a) eqn:Ha, (is_nan b) eqn:Hb; cbn [orb].
  - left. now apply nan_unique.
  - rewrite (ltb_nan_false a b) by auto. apply zeq_refl.
  - rewrite (ltb_nan_false b a) by auto. apply zeq_refl.
  - destruct (b <? a)%float eqn:Hba.
    + rewrite (ltb_asym _ _ Hba). apply zeq_refl.
    + destruct (a <? b)%float eqn:Hab; [apply zeq_refl|].
      apply leb_antisym; now apply ltb_false_leb.
Qed.

Lemma sub_zeq a a' b b' : zeq a a' -> zeq b b' -> zeq (a - b) (a' - b').
Proof.
  rewrite !zeq_SF, !sub_spec.
  intros [-> | [s [s' [-> ->]]]] [-> | [t [t' [-> ->]]]].
  - now left.
  - destruct (Prim2SF a') as [u|u| |u m e]; simpl; auto.
    right. destruct u, t, t'; simpl; eauto.
  - destruct (Prim2SF b') as [u|u| |u m e]; simpl; auto.
    right. destruct u, s, s'; simpl; eauto.
  - right. destruct s, s', t, t'; simpl; eauto.
Qed.

(** [np.maximum(0, z)] of a zero is that zero. *)
Lemma maximum_0_zero z : is_zero z = true -> maximum 0 z = z.
Proof.
  unfold maximum. rewrite is_zero_SF, ltb_spec.
  change (is_nan 0) with false. change (Prim2SF 0) with (S754_zero false).
  destruct (Prim2SF z); try discriminate. reflexivity.
Qed.

Lemma maximum_0_zeq x x' : zeq x x' -> zeq (maximum 0 x) (maximum 0 x').
Proof.
  intros [-> | [Hx Hx']]; [apply zeq_refl|].
  rewrite (maximum_0_zero x Hx), (maximum_0_zero x' Hx'). now right.
Qed.

Lemma mul_zeq a a' b b' : zeq a a' -> zeq b b' -> zeq (a * b) (a' * b').
Proof.
  rewrite !zeq_SF, !mul_spec.
  intros [-> | [s [s' [-> ->]]]] [-> | [t [t' [-> ->]]]].
  - now left.
  - destruct (Prim2SF a') as [u|u| |u m e]; simpl; eauto.
  - destruct (Prim2SF b') as [u|u| |u m e]; simpl; eauto.
  - right. simpl; eauto.
Qed.

(** Numbers equal up to the sign of a zero are both NaN or neither, and
    compare alike. *)
Lemma zeq_nan x y : zeq x y -> is_nan x = is_nan y.
Proof.
  rewrite zeq_SF, !is_nan_SF.
  intros [-> | [s [s' [-> ->]]]]; reflexivity.
Qed.

Lemma zeq_leb x x' y y' :
  zeq x x' -> zeq y y' -> (x <=? y)%float = (x' <=? y')%float.
Proof.
  rewrite !zeq_SF, !leb_spec. unfold SFleb.
  intros [-> | [s [s' [-> ->]]]] [-> | [t [t' [-> ->]]]]; try reflexivity;
    first [ destruct (Prim2SF x') as [u|u| |u m e]; reflexivity
          | destruct (Prim2SF y') as [u|u| |u m e]; reflexivity ].
Qed.

Lemma zeq_trans x y z : zeq x y -> zeq y z -> zeq x z.
Proof.
  intros [-> | [Hx Hy]] [<- | [Hy' Hz]]; try (now left); try (now right).
Qed.

End Binary64Facts.

(** ** Boxes in binary64 *)

Section BoxFacts.
Local Open Scope Z_scope.

Lemma xval_range x : - big <= xval x <= big.
Proof.
  pose proof top_pos. pose proof big_top.
  destruct (float_shape_of x) as [E N I | F N I B V | s E N I V].
  - unfold xval. rewrite E. cbn [Zval]. change (ext 0) with 0. lia.
  - rewrite V. lia.
  - rewrite V. destruct s; cbn [cond_Zopp]; lia.
Qed.

Lemma finite_of_xval x :
  is_nan x = false -> - top < xval x < top -> is_finite x = true.
Proof.
  intros Hn Hb. pose proof top_pos. pose proof big_top.
  destruct (float_shape_of x) as [E N I | F N I B V | s E N I V];
    [congruence | assumption |].
  rewrite V in Hb. destruct s; cbn [cond_Zopp] in Hb; lia.
Qed.

Lemma eqb_xval x y :
  (x =? y)%float = true ->
  is_nan x = false /\ is_nan y = false /\ xval x = xval y.
Proof.
  rewrite eqb_spec. unfold SFeqb. intros H.
  assert (Hn : is_nan x = false /\ is_nan y = false).
  { rewrite !is_nan_SF.
    destruct (Prim2SF x), (Prim2SF y); try discriminate; auto. }
  destruct Hn as [Hx Hy]. rewrite (compare_xval x y Hx Hy) in H.
  repeat split; auto.
  destruct (Z.compare_spec (xval x) (xval y)); auto; discriminate.
Qed.

Lemma is_zero_of_xval x : is_nan x = false -> xval x = 0 -> is_zero x = true.
Proof.
  intros Hn Hz. unfold is_zero. rewrite eqb_spec. unfold SFeqb.
  rewrite (compare_xval x zero Hn eq_refl), Hz. reflexivity.
Qed.

Lemma finite_mul_finite x y :
  is_finite x = true -> is_finite y = true -> is_nan (x * y) = false.
Proof.
  rewrite !is_finite_SF, is_nan_SF, mul_spec. intros Fx Fy.
  destruct (SFmul_val _ _ (Prim2SF_valid x) (Prim2SF_valid y)) as [Hn _].
  - destruct (Prim2SF x); try discriminate; reflexivity.
  - destruct (Prim2SF y); try discriminate; reflexivity.
  - destruct (SF64mul (Prim2SF x) (Prim2SF y)); congruence.
Qed.

Lemma ext_srnd_0 : ext (srnd 0) = 0.
Proof. reflexivity. Qed.

(** A side of length zero: the difference of two equal finite coordinates
    is a zero. *)
Lemma sub_equal_finite lo hi :
  (lo =? hi)%float = true -> is_finite lo = true ->
  is_finite (hi - lo) = true /\ xval (hi - lo) = 0.
Proof.
  intros He Hf. destruct (eqb_xval _ _ He) as [Nlo [Nhi Hv]].
  destruct (finite_xval _ Hf) as [Blo _].
  assert (Fhi : is_finite hi = true)
    by (apply finite_of_xval; [assumption | lia]).
  pose proof (finite_sub_finite hi lo Fhi Hf) as Hn.
  assert (Hz : xval (hi - lo) = 0).
  { rewrite (sub_xval _ _ Hn), Hv, Z.sub_diag. reflexivity. }
  split; [|exact Hz]. apply finite_of_xval; [assumption|].
  pose proof top_pos. lia.
Qed.

Lemma mul_zero_l h w :
  is_finite h = true -> xval h = 0 -> is_finite w = true ->
  is_zero (h * w) = true /\ is_zero (w * h) = true.
Proof.
  intros Fh Hz Fw. pose proof one_val_pos.
  split; apply is_zero_of_xval; try (now apply finite_mul_finite).
  - destruct (mul_xval h w (finite_mul_finite h w Fh Fw)) as [p [Hp ->]].
    rewrite Hz in Hp. assert (p = 0) by nia. now subst p.
  - destruct (mul_xval w h (finite_mul_finite w h Fw Fh)) as [p [Hp ->]].
    rewrite Hz in Hp. assert (p = 0) by nia. now subst p.
Qed.

(** The doubled number being finite, the number is. *)
Lemma finite_of_double a : is_finite (a + a) = true -> is_finite a = true.
Proof.
  intros Hf. destruct (finite_xval _ Hf) as [Hb Hn].
  destruct (float_shape_of a) as [E N I | F N I B V | s E N I V].
  - destruct (add_operands a a Hn); congruence.
  - assumption.
  - exfalso. rewrite (add_xval a a Hn), V in Hb.
    pose proof top_pos. pose proof big_top.
    destruct s; cbn [cond_Zopp] in Hb.
    + rewrite ext_srnd_bot in Hb by lia. lia.
    + rewrite ext_srnd_top in Hb by lia. lia.
Qed.

(** A finite number other than zero divided by itself is one. *)
Lemma div_self a : is_finite a = true -> xval a <> 0 -> (a / a)%float = 1%float.
Proof.
  intros Hf Hz. apply Prim2SF_inj. rewrite div_spec.
  rewrite is_finite_SF in Hf. unfold xval in Hz.
  destruct (Prim2SF a) as [s|s| |s m e]; try discriminate.
  { exfalso. apply Hz. reflexivity. }
  change (Prim2SF 1) with (S754_finite false 4503599627370496 (-52)).
  unfold SF64div, SFdiv, SFdiv_core_binary.
  replace (fexp prec emax (Zdigits2 (Zpos m) + e - (Zdigits2 (Zpos m) + e)))
    with (-53) by (rewrite Z.sub_diag; reflexivity).
  rewrite Z.sub_diag. cbn [Z.min Z.compare Z.sub Z.opp Z.add].
  rewrite Z.shiftl_mul_pow2 by lia.
  assert (Hd : Z.div_eucl (Zpos m * 2 ^ 53) (Zpos m) = (2 ^ 53, 0)).
  { generalize (Z.div_mul (2 ^ 53) (Zpos m) ltac:(lia)).
    generalize (Z.mod_mul (2 ^ 53) (Zpos m) ltac:(lia)).
    unfold Z.div, Z.modulo. rewrite (Z.mul_comm (2 ^ 53)).
    destruct (Z.div_eucl (Zpos m * 2 ^ 53) (Zpos m)); intros; subst; auto. }
  rewrite Hd.
  replace (new_location (Zpos m) 0) with loc_Exact
    by (unfold new_location; destruct (Z.even (Zpos m)); reflexivity).
  now destruct s.
Qed.

(** A positive product of two extents of a well-ordered box has positive
    factors. *)
Lemma positive_area_sides lo1 hi1 lo2 hi2 :
  (lo1 <=? hi1)%float = true -> (lo2 <=? hi2)%float = true ->
  (0 <? (hi1 - lo1) * (hi2 - lo2))%float = true ->
  (0 <? hi1 - lo1)%float = true /\ (0 <? hi2 - lo2)%float = true.
Proof.
  intros H1 H2 Ha. destruct (ltb_nan _ _ Ha) as [_ Hn].
  destruct (mul_operands _ _ Hn) as [Nh Nw].
  pose proof (extent_nonneg _ _ H1 Nh) as Ph.
  pose proof (extent_nonneg _ _ H2 Nw) as Pw.
  apply leb_le in Ph, Pw. apply ltb_lt in Ha. rewrite xval_0 in *.
  destruct (mul_xval _ _ Hn) as [p [Hp Hv]]. rewrite Hv in Ha.
  pose proof one_val_pos.
  assert (0 < p).
  { destruct (Z.lt_ge_cases 0 p); [assumption|].
    pose proof (ext_srnd_mono p 0 ltac:(lia)) as Hm.
    rewrite ext_srnd_0 in Hm. lia. }
  rewrite !ltb_xval by (auto; reflexivity). rewrite xval_0.
  split; apply Z.ltb_lt; nia.
Qed.

End BoxFacts.

Section BoxPairs.
Local Open Scope Z_scope.

Lemma box_intersection_sym b1 b2 :
  zeq (box_intersection b1 b2) (box_intersection b2 b1).
Proof.
  destruct b1 as [[[y_min1 x_min1] y_max1] x_max1].
  destruct b2 as [[[y_min2 x_min2] y_max2] x_max2].
  unfold box_intersection. apply mul_zeq;
    apply maximum_0_zeq, sub_zeq;
    (apply minimum_comm || apply maximum_comm).
Qed.

(** The box compared with itself. *)
Lemma box_iou_self b :
  valid_box b -> (0 <? box_area b)%float = true ->
  is_finite (box_area b + box_area b) = true ->
  box_iou b b = 1%float.
Proof.
  destruct b as [[[y_min x_min] y_max] x_max].
  intros [Hy Hx] Hpos Hfin. unfold box_iou, box_union.
  assert (Hi : box_intersection (y_min, x_min, y_max, x_max)
                 (y_min, x_min, y_max, x_max)
               = box_area (y_min, x_min, y_max, x_max)).
  { unfold box_intersection, box_area in *.
    rewrite !minimum_same, !maximum_same.
    destruct (positive_area_sides _ _ _ _ Hy Hx Hpos) as [Hh Hw].
    now rewrite !maximum_0_pos. }
  rewrite Hi. set (a := box_area (y_min, x_min, y_max, x_max)) in *.
  assert (Hz : xval a <> 0).
  { apply ltb_lt in Hpos. rewrite xval_0 in Hpos. lia. }
  rewrite add_sub_self by assumption.
  apply div_self; [now apply finite_of_double | assumption].
Qed.

(** The intersection against the first box. *)
Lemma box_intersection_bounds b1 b2 :
  valid_box b1 ->
  is_nan (box_intersection b1 b2) = false ->
  (0 <=? box_intersection b1 b2)%float = true /\
  (is_nan (box_area b1) = false ->
   (box_intersection b1 b2 <=? box_area b1)%float = true).
Proof.
  destruct b1 as [[[y_min1 x_min1] y_max1] x_max1].
  destruct b2 as [[[y_min2 x_min2] y_max2] x_max2].
  intros [Hy Hx]. unfold box_intersection, box_area. intros Hn.
  destruct (mul_operands _ _ Hn) as [Nh Nw].
  destruct (overlap_bounds _ _ y_min2 y_max2 Hy Nh) as [Ph Bh].
  destruct (overlap_bounds _ _ x_min2 x_max2 Hx Nw) as [Pw Bw].
  split; [now apply mul_nonneg|].
  intros Na. destruct (mul_operands _ _ Na) as [Nh1 Nw1].
  apply mul_mono; auto.
Qed.

Lemma box_iou_bounds b1 b2 :
  valid_box b1 -> valid_box b2 ->
  (0 <? box_union b1 b2)%float = true ->
  (0 <=? box_iou b1 b2)%float = true /\ (box_iou b1 b2 <=? 1)%float = true.
Proof.
  intros V1 V2 Hu. unfold box_iou. unfold box_union in *.
  destruct (ltb_nan _ _ Hu) as [_ Nu].
  destruct (sub_operands _ _ Nu) as [Ns Ni].
  destruct (add_operands _ _ Ns) as [N1 N2].
  destruct (box_intersection_bounds b1 b2 V1 Ni) as [P0 B1].
  specialize (B1 N1).
  assert (B2 : (box_intersection b1 b2 <=? box_area b2)%float = true).
  { pose proof (box_intersection_sym b1 b2) as Hs.
    rewrite (zeq_leb _ _ _ _ Hs (zeq_refl (box_area b2))).
    rewrite (zeq_nan _ _ Hs) in Ni.
    now apply (box_intersection_bounds b2 b1 V2 Ni). }
  set (i := box_intersection b1 b2) in *.
  set (a1 := box_area b1) in *. set (a2 := box_area b2) in *.
  pose proof top_pos as Ht. pose proof big_top as Hb.
  assert (L0 := leb_le _ _ P0). assert (L1 := leb_le _ _ B1).
  assert (L2 := leb_le _ _ B2). assert (Lu := ltb_lt _ _ Hu).
  rewrite xval_0 in *.
  rewrite (sub_xval _ _ Nu), (add_xval _ _ Ns) in Lu.
  (* the intersection is finite: else the denominator would be inf - inf *)
  assert (Fi : is_finite i = true).
  { apply finite_of_xval; [assumption|]. split; [lia|].
    destruct (Z.lt_ge_cases (xval i) top) as [|Hge]; [assumption|exfalso].
    destruct (float_shape_of i) as [E N I | F N I B V | s E N I V];
      [congruence | lia |].
    assert (Hi : xval i = big)
      by (rewrite V in *; destruct s; cbn [cond_Zopp] in *; lia).
    pose proof (xval_range a1). pose proof (xval_range a2).
    rewrite (ext_srnd_top (xval a1 + xval a2)) in Lu by lia.
    replace (big - xval i) with 0 in Lu by lia.
    rewrite ext_srnd_0 in Lu. lia. }
  destruct (finite_xval _ Fi) as [Bi _].
  (* the denominator is at least the intersection *)
  assert (Hiu : xval i <= ext (srnd (ext (srnd (xval a1 + xval a2)) - xval i))).
  { assert (Hs : 2 * xval i <= ext (srnd (xval a1 + xval a2))).
    { apply Z.le_trans with (ext (srnd (2 * xval i)));
        [|apply ext_srnd_mono; lia].
      assert (Hr : representable (Z.abs (2 * xval i))).
      { rewrite Z.abs_mul. change (Z.abs 2) with 2.
        apply representable_double; [lia|]. now apply finite_representable. }
      destruct (srnd_representable _ Hr) as [H1 | [[H1 H2] | [H1 H2]]].
      - rewrite H1. unfold ext.
        destruct (Z.leb_spec top (2 * xval i)),
          (Z.leb_spec (2 * xval i) (- top)); lia.
      - rewrite H2, ext_top. lia.
      - lia. }
    apply Z.le_trans with (ext (srnd (xval i))).
    - rewrite srnd_xval by assumption. rewrite ext_small by lia. lia.
    - apply ext_srnd_mono. lia. }
  apply div_le_one; try assumption.
  apply le_leb; try assumption.
  now rewrite (sub_xval _ _ Nu), (add_xval _ _ Ns).
Qed.

End BoxPairs.

(** ** Transposed arrays *)

Lemma map_seq_nth {X Y : Type} (h : X -> Y) (l : list X) (d : X) :
  map h l = map (fun j => h (nth j l d)) (seq 0 (List.length l)).
Proof.
  induction l as [|x l IH]; [reflexivity|].
  cbn [List.length seq map nth]. f_equal.
  rewrite <- seq_shift, map_map. exact IH.
Qed.

Lemma transpose_all_pairs f boxes1 boxes2 :
  transpose (List.length boxes1) (all_pairs f boxes2 boxes1)
  = all_pairs (fun b1 b2 => f b2 b1) boxes1 boxes2.
Proof.
  unfold transpose, all_pairs.
  rewrite (map_seq_nth (fun b1 => map (fun b2 => f b2 b1) boxes2) boxes1
             (0, 0, 0, 0)%float).
  apply map_ext_in; intros j Hj. apply in_seq in Hj.
  rewrite map_map. apply map_ext; intros b2.
  rewrite (nth_indep _ 0%float (f b2 (0, 0, 0, 0)%float))
    by (rewrite length_map; lia).
  apply (map_nth (f b2)).
Qed.

Lemma same_entries_all_pairs f g boxes1 boxes2 :
  (forall b1 b2, zeq (f b1 b2) (g b1 b2)) ->
  same_entries (all_pairs f boxes1 boxes2) (all_pairs g boxes1 boxes2).
Proof.
  intros H. unfold same_entries, all_pairs.
  induction boxes1 as [|b1 boxes1 IH]; cbn [map]; constructor; [|exact IH].
  clear IH.
  induction boxes2 as [|b2 boxes2 IH2]; cbn [map]; constructor; auto.
Qed.

(** ** Arrays of each floating-point element type *)

(** *** The typed functions, entry by entry *)

Lemma typed_area_map d boxes :
  Typed.area d boxes = map (box_area_in d) boxes.
Proof.
  unfold Typed.area, column. rewrite !map2_map.
  apply map_ext; intros [[[y_min x_min] y_max] x_max]; reflexivity.
Qed.

Lemma typed_intersection_all_pairs d1 d2 boxes1 boxes2 :
  Typed.intersection d1 d2 boxes1 boxes2
  = all_pairs (box_intersection_in (Typed.result_type d1 d2)) boxes1 boxes2.
Proof.
  unfold Typed.intersection; cbv zeta beta iota.
  rewrite !broadcast_columns, !map2_2d_all_pairs, !zeros_like_all_pairs,
    !map2_2d_all_pairs.
  unfold all_pairs. apply map_ext; intros [[[y_min1 x_min1] y_max1] x_max1].
  apply map_ext; intros [[[y_min2 x_min2] y_max2] x_max2]; reflexivity.
Qed.

Lemma typed_union_all_pairs d1 d2 boxes1 boxes2 :
  Typed.union d1 d2 boxes1 boxes2
  = all_pairs (box_union_in d1 d2) boxes1 boxes2.
Proof.
  unfold Typed.union; cbv zeta.
  now rewrite !typed_area_map, typed_intersection_all_pairs, broadcast_map,
    map2_2d_all_pairs.
Qed.

Lemma typed_iou_all_pairs d1 d2 boxes1 boxes2 :
  Typed.iou d1 d2 boxes1 boxes2 = all_pairs (box_iou_in d1 d2) boxes1 boxes2.
Proof.
  unfold Typed.iou; cbv zeta.
  now rewrite typed_union_all_pairs, typed_intersection_all_pairs,
    map2_2d_all_pairs.
Qed.

(** On [float64] arrays the typed functions are the functions above. *)
Lemma typed_float64 :
  (forall boxes, Typed.area Typed.Float64 boxes = area boxes) /\
  (forall boxes1 boxes2,
     Typed.intersection Typed.Float64 Typed.Float64 boxes1 boxes2
     = intersection boxes1 boxes2) /\
  (forall boxes1 boxes2,
     Typed.union Typed.Float64 Typed.Float64 boxes1 boxes2
     = union boxes1 boxes2) /\
  (forall boxes1 boxes2,
     Typed.iou Typed.Float64 Typed.Float64 boxes1 boxes2
     = iou boxes1 boxes2).
Proof. repeat split. Qed.

Lemma result_type_comm d1 d2 :
  Typed.result_type d1 d2 = Typed.result_type d2 d1.
Proof. destruct d1, d2; reflexivity. Qed.

(** *** Operations in a narrower format *)

Section TypedFacts.
Local Open Scope Z_scope.

Lemma is_zero_SF2Prim b : is_zero (SF2Prim (S754_zero b)) = true.
Proof. destruct b; reflexivity. Qed.

(** The difference of two equal finite numbers is a zero in every format. *)
Lemma SFsub_equal p em x y :
  SFcompare y x = Some Eq -> SFfinite y = true ->
  exists b, SFsub p em x y = S754_zero b.
Proof.
  intros H Hf. destruct (SFcompare_Eq _ _ H) as [<- | [s [s' [-> ->]]]].
  - destruct y as [s|s| |s m e]; try discriminate.
    + destruct s; cbn; eauto.
    + unfold SFsub. rewrite Z.sub_diag. cbn. eauto.
  - destruct s, s'; cbn; eauto.
Qed.

Lemma typed_sub_equal d lo hi :
  (lo =? hi)%float = true -> is_finite lo = true ->
  is_zero (Typed.sub d hi lo) = true.
Proof.
  rewrite eqb_spec, is_finite_SF. unfold SFeqb. intros He Hf.
  assert (Hc : SFcompare (Prim2SF lo) (Prim2SF hi) = Some Eq)
    by (destruct (SFcompare (Prim2SF lo) (Prim2SF hi)) as [[]|];
        congruence).
  assert (Hfin : SFfinite (Prim2SF lo) = true)
    by (destruct (Prim2SF lo); auto).
  destruct d; cbn [Typed.sub]; unfold Typed.rounded.
  - destruct (SFsub_equal (Typed.prec_of Typed.Float16)
                (Typed.emax_of Typed.Float16) _ _ Hc Hfin) as [b ->].
    apply is_zero_SF2Prim.
  - destruct (SFsub_equal (Typed.prec_of Typed.Float32)
                (Typed.emax_of Typed.Float32) _ _ Hc Hfin) as [b ->].
    apply is_zero_SF2Prim.
  - rewrite is_zero_SF, sub_spec. unfold SF64sub.
    now destruct (SFsub_equal prec emax _ _ Hc Hfin) as [b ->].
Qed.

(** A zero times a finite number is a zero in every format. *)
Lemma SFmul_zero p em b y :
  SFfinite y = true ->
  (exists c, SFmul p em (S754_zero b) y = S754_zero c) /\
  (exists c, SFmul p em y (S754_zero b) = S754_zero c).
Proof.
  destruct y as [s|s| |s m e]; try discriminate; intros _; cbn; eauto.
Qed.

Lemma typed_mul_zero d h w :
  is_zero h = true -> is_finite w = true ->
  is_zero (Typed.mul d h w) = true /\ is_zero (Typed.mul d w h) = true.
Proof.
  rewrite is_zero_SF, is_finite_SF. intros Hz Hf.
  destruct (Prim2SF h) as [b| | |] eqn:Eh; try discriminate.
  assert (Hfin : SFfinite (Prim2SF w) = true)
    by (destruct (Prim2SF w); auto).
  destruct d; cbn [Typed.mul]; unfold Typed.rounded; rewrite ?Eh.
  - destruct (SFmul_zero (Typed.prec_of Typed.Float16)
                (Typed.emax_of Typed.Float16) b _ Hfin) as [[c ->] [c' ->]].
    split; apply is_zero_SF2Prim.
  - destruct (SFmul_zero (Typed.prec_of Typed.Float32)
                (Typed.emax_of Typed.Float32) b _ Hfin) as [[c ->] [c' ->]].
    split; apply is_zero_SF2Prim.
  - rewrite !is_zero_SF, !mul_spec, Eh. unfold SF64mul.
    destruct (SFmul_zero prec emax b _ Hfin) as [[c ->] [c' ->]].
    now split.
Qed.

(** Equal up to the sign of a zero, and the operations of each format. *)
Lemma zeq_SF2Prim x y :
  x = y \/ (exists s s', x = S754_zero s /\ y = S754_zero s') ->
  zeq (SF2Prim x) (SF2Prim y).
Proof.
  intros [-> | [s [s' [-> ->]]]]; [apply zeq_refl|].
  right. split; apply is_zero_SF2Prim.
Qed.

Lemma SFsub_zeq p em a a' b b' :
  a = a' \/ (exists s s', a = S754_zero s /\ a' = S754_zero s') ->
  b = b' \/ (exists s s', b = S754_zero s /\ b' = S754_zero s') ->
  SFsub p em a b = SFsub p em a' b' \/
  exists s s', SFsub p em a b = S754_zero s /\
               SFsub p em a' b' = S754_zero s'.
Proof.
  intros [-> | [s [s' [-> ->]]]] [-> | [t [t' [-> ->]]]].
  - now left.
  - destruct a' as [u|u| |u m e]; cbn; auto.
    right. destruct u, t, t'; cbn; eauto.
  - destruct b' as [u|u| |u m e]; cbn; auto.
    right. destruct u, s, s'; cbn; eauto.
  - right. destruct s, s', t, t'; cbn; eauto.
Qed.

Lemma typed_sub_zeq d a a' b b' :
  zeq a a' -> zeq b b' -> zeq (Typed.sub d a b) (Typed.sub d a' b').
Proof.
  destruct d; cbn [Typed.sub]; try apply sub_zeq;
    rewrite !zeq_SF; intros Ha Hb; rewrite <- zeq_SF;
    apply zeq_SF2Prim, SFsub_zeq; assumption.
Qed.

End TypedFacts.

(** *** The sign of a quotient *)

Section QuotientSign.
Local Open Scope Z_scope.

(** The quotient of two finite numbers has the sign of the operands. *)
Lemma SFdiv_sign sx m1 e1 sy m2 e2 :
  bounded prec emax m1 e1 = true -> bounded prec emax m2 e2 = true ->
  exists r,
    0 <= r /\
    SF64div (S754_finite sx m1 e1) (S754_finite sy m2 e2) <> S754_nan /\
    Zval (SF64div (S754_finite sx m1 e1) (S754_finite sy m2 e2))
    = cond_Zopp (xorb sx sy) r.
Proof.
  intros V1 V2.
  pose proof (bounded_inv _ _ V1) as [He1 [Hm1 _]].
  pose proof (bounded_inv _ _ V2) as [He2 [Hm2 _]].
  rewrite emin_value in *.
  unfold SF64div, SFdiv, SFdiv_core_binary. cbn [Zdigits2].
  pose proof (digits2_pos_bounds m1) as [Hd1lo Hd1hi].
  pose proof (digits2_pos_bounds m2) as [Hd2lo Hd2hi].
  set (d1 := Zpos (digits2_pos m1)) in *.
  set (d2 := Zpos (digits2_pos m2)) in *.
  assert (0 < d1 /\ 0 < d2) as [Hd1 Hd2] by (unfold d1, d2; lia).
  set (delta := d1 + e1 - (d2 + e2)).
  set (e' := Z.min (fexp prec emax delta) (e1 - e2)).
  assert (He'f : e' <= fexp prec emax delta) by (unfold e'; lia).
  assert (He'0 : e' <= e1 - e2) by (unfold e'; lia).
  assert (He'lo : -2045 <= e').
  { unfold e', fexp. rewrite emin_value. unfold emax, prec in *. lia. }
  set (s := e1 - e2 - e').
  assert (Hs : 0 <= s) by (unfold s; lia).
  set (m' := match s with
             | 0 => Zpos m1
             | Zpos _ => Z.shiftl (Zpos m1) s
             | Zneg _ => 0
             end).
  assert (Hm' : m' = Zpos m1 * 2 ^ s).
  { unfold m'. destruct s as [|p|p] eqn:Es; try lia.
    now rewrite Z.shiftl_mul_pow2 by lia. }
  clearbody m'.
  assert (Hps : 0 < 2 ^ s) by (apply Z.pow_pos_nonneg; lia).
  destruct (Z.div_eucl m' (Zpos m2)) as [q r] eqn:Hdiv.
  assert (Hq : q = m' / Zpos m2) by (unfold Z.div; now rewrite Hdiv).
  assert (Hr : r = m' mod Zpos m2) by (unfold Z.modulo; now rewrite Hdiv).
  pose proof (Z.div_mod m' (Zpos m2) ltac:(lia)) as Hdm.
  pose proof (Z.mod_pos_bound m' (Zpos m2) ltac:(lia)) as Hrb.
  rewrite <- Hq, <- Hr in Hdm. rewrite <- Hr in Hrb.
  assert (Hq0 : 0 <= q) by (subst q; apply Z.div_pos; lia).
  (* the quotient has the digits the exponent was chosen for *)
  assert (Hdq : delta <= Zdigits2 q + e').
  { destruct (Z.eq_dec q 0) as [Hz|Hz].
    - rewrite Hz. cbn [Zdigits2].
      assert (d1 + s - 1 < d2); [|unfold delta, s in *; lia].
      apply (Z.pow_lt_mono_r_iff 2); [lia | lia |].
      assert (2 ^ (d1 + s - 1) = 2 ^ (d1 - 1) * 2 ^ s)
        by (rewrite <- pow2_split by lia; f_equal; lia).
      nia.
    - destruct (Zdigits2_bounds q ltac:(lia)) as [_ Hqhi].
      assert (Hdq0 : 0 < Zdigits2 q) by (destruct q; cbn; lia).
      assert (d1 + s - 1 < Zdigits2 q + d2); [|unfold delta, s in *; lia].
      apply (Z.pow_lt_mono_r_iff 2); [lia | lia |].
      assert (2 ^ (d1 + s - 1) = 2 ^ (d1 - 1) * 2 ^ s)
        by (rewrite <- pow2_split by lia; f_equal; lia).
      rewrite (pow2_split (Zdigits2 q) d2) by lia.
      assert (0 < 2 ^ Zdigits2 q) by (apply Z.pow_pos_nonneg; lia).
      nia. }
  assert (Hpre : e' <= fexp prec emax (Zdigits2 q + e')).
  { pose proof (fexp_mono _ _ Hdq). lia. }
  assert (Hz : q = 0 -> e' <= emin).
  { intros Hz0. rewrite Hz0 in Hdq. cbn [Zdigits2] in Hdq.
    unfold fexp in He'f. rewrite emin_value in *. unfold prec in *. lia. }
  destruct (binary_round_aux_spec (xorb sx sy) q (new_location (Zpos m2) r) e'
              Hq0 ltac:(unfold ebase; lia) Hpre Hz) as [Hn Hv].
  destruct (new_location_code (Zpos m2) r) as [Hc Hc0].
  set (c := loc_code (new_location (Zpos m2) r)) in *.
  exists (rnd (scaled (4 * q + c) (e' - 2))).
  split; [|split; assumption].
  apply rnd_nonneg. unfold scaled.
  apply Z.mul_nonneg_nonneg; [lia | apply Z.pow_nonneg; lia].
Qed.

Lemma div_nonneg i u :
  is_finite i = true -> (0 <=? i)%float = true -> (0 <? u)%float = true ->
  (0 <=? i / u)%float = true.
Proof.
  intros Fi H0 Hu.
  apply leb_le in H0. apply ltb_lt in Hu. rewrite xval_0 in *.
  rewrite !leb_spec.
  pose proof (Prim2SF_valid (i / u)) as Vq. rewrite div_spec in *.
  change (Prim2SF 0) with (S754_zero false).
  pose proof (Prim2SF_valid i) as Vi. pose proof (Prim2SF_valid u) as Vu.
  pose proof top_pos as Ht. pose proof big_top as Hb.
  destruct (float_shape_of i) as [E N I | F N I B V | s E N I V];
    try congruence.
  rewrite V in *. clear Fi I.
  destruct (float_shape_of u) as [Eu Nu Iu | Fu Nu Iu Bu Vu' | su Eu Nu Iu Vu'];
    [|rewrite Vu' in *..].
  - unfold xval in Hu. rewrite Eu in Hu. cbn [Zval] in Hu.
    change (ext 0) with 0 in Hu. lia.
  - destruct (Prim2SF i) as [si|si| |si m1 e1]; try discriminate;
      destruct (Prim2SF u) as [su|su| |su m2 e2]; try discriminate;
      cbn [Zval] in *; try lia.
    + destruct su; cbn [cond_Zopp] in *;
        [pose proof (scaled_lt_top _ _ Vu); lia|].
      destruct si; reflexivity.
    + cbn [valid_binary] in Vi, Vu.
      pose proof (scaled_lt_top _ _ Vi). pose proof (scaled_lt_top _ _ Vu).
      destruct si; cbn [cond_Zopp] in *; [lia|].
      destruct su; cbn [cond_Zopp] in *; [lia|].
      destruct (SFdiv_sign false m1 e1 false m2 e2 Vi Vu)
        as [r [Hr [Hnan Hv]]].
      cbn [xorb cond_Zopp] in Hv.
      apply SFleb_of_Zval; auto; try discriminate.
      rewrite Hv; cbn [Zval]; lia.
  - rewrite Eu in *.
    destruct su; cbn [cond_Zopp] in Hu; [lia|].
    destruct (Prim2SF i) as [si|si| |si m1 e1]; try discriminate.
    + destruct si; reflexivity.
    + cbn [valid_binary] in Vi. pose proof (scaled_lt_top _ _ Vi).
      cbn [Zval] in *.
      destruct si; cbn [cond_Zopp] in *; [lia|]. reflexivity.
Qed.

(** A positive difference has a finite subtrahend, when that is
    non-negative. *)
Lemma sub_pos_finite s i :
  (0 <=? i)%float = true -> (0 <? s - i)%float = true -> is_finite i = true.
Proof.
  rewrite leb_spec, ltb_spec, sub_spec, is_finite_SF.
  change (Prim2SF 0) with (S754_zero false).
  destruct (Prim2SF i) as [b|b| |b m e]; auto; try discriminate.
  destruct b; [discriminate|]. intros _.
  destruct (Prim2SF s) as [c|c| |c m e]; try discriminate;
    destruct c; discriminate.
Qed.

Lemma maximum_0_nonneg x :
  is_nan (maximum 0 x) = false -> (0 <=? maximum 0 x)%float = true.
Proof. intros H. now apply maximum_ge. Qed.

End QuotientSign.

(** *** Pairs of boxes *)

Section TypedPairs.

Lemma box_intersection_in_nonneg d b1 b2 :
  is_nan (box_intersection_in d b1 b2) = false ->
  (0 <=? box_intersection_in d b1 b2)%float = true.
Proof.
  destruct b1 as [[[y_min1 x_min1] y_max1] x_max1].
  destruct b2 as [[[y_min2 x_min2] y_max2] x_max2].
  unfold box_intersection_in. intros Hn.
  destruct (mul_operands _ _ Hn) as [Nh Nw].
  apply mul_nonneg; auto using maximum_0_nonneg.
Qed.

Lemma box_iou_in_nonneg d1 d2 b1 b2 :
  (0 <? box_union_in d1 d2 b1 b2)%float = true ->
  (0 <=? box_iou_in d1 d2 b1 b2)%float = true.
Proof.
  unfold box_iou_in, box_union_in. intros Hu.
  destruct (ltb_nan _ _ Hu) as [_ Nu].
  destruct (sub_operands _ _ Nu) as [_ Ni].
  pose proof (box_intersection_in_nonneg _ _ _ Ni) as P0.
  apply div_nonneg; auto.
  eapply sub_pos_finite; eauto.
Qed.

Lemma box_intersection_in_sym d b1 b2 :
  zeq (box_intersection_in d b1 b2) (box_intersection_in d b2 b1).
Proof.
  destruct b1 as [[[y_min1 x_min1] y_max1] x_max1].
  destruct b2 as [[[y_min2 x_min2] y_max2] x_max2].
  unfold box_intersection_in. apply mul_zeq;
    apply maximum_0_zeq, typed_sub_zeq;
    (apply minimum_comm || apply maximum_comm).
Qed.

Lemma box_in_float64 b1 b2 :
  box_area_in Typed.Float64 b1 = box_area b1 /\
  box_intersection_in Typed.Float64 b1 b2 = box_intersection b1 b2 /\
  box_union_in Typed.Float64 Typed.Float64 b1 b2 = box_union b1 b2 /\
  box_iou_in Typed.Float64 Typed.Float64 b1 b2 = box_iou b1 b2.
Proof.
  destruct b1 as [[[y_min1 x_min1] y_max1] x_max1].
  destruct b2 as [[[y_min2 x_min2] y_max2] x_max2].
  repeat split.
Qed.

End TypedPairs.

(** ** The claims that depend on floating-point arithmetic *)

(** C6.  [intersection(A, B)] is the transpose of [intersection(B, A)] (an
    [M, N] array, [N] being the number of boxes of [A]), whatever the
    element types of [A] and [B]: the two arrays have one shape and equal
    entries, as NumPy compares numbers, a NaN of the one standing against a
    NaN of the other.  The entries can differ in the sign of a zero, which
    [np.minimum] and [np.maximum] take from one of two operands that compare
    equal. *)
Theorem intersection_transpose d1 d2 (A B : list row4) :
  same_entries (Typed.intersection d1 d2 A B)
    (transpose (List.length A) (Typed.intersection d2 d1 B A)).
Proof.
  rewrite !typed_intersection_all_pairs, transpose_all_pairs.
  rewrite (result_type_comm d2 d1).
  apply same_entries_all_pairs. intros b1 b2. apply box_intersection_in_sym.
Qed.

(** C8 (as the code has it).  [area(boxes)] has one entry per box, the
    product [(y_max - y_min) * (x_max - x_min)] as the element type of the
    array computes it; the entry is a zero (+0 or -0) for a box with
    [y_min = y_max] finite and a finite width [x_max - x_min], and for a box
    with [x_min = x_max] finite and a finite height [y_max - y_min]. *)
Theorem area_entry :
  (forall d boxes,
     List.length (Typed.area d boxes) = List.length boxes /\
     forall i,
       nth_error (Typed.area d boxes) i
       = match nth_error boxes i with
         | Some (y_min, x_min, y_max, x_max) =>
             Some (Typed.mul d (Typed.sub d y_max y_min)
                     (Typed.sub d x_max x_min))
         | None => None
         end) /\
  (forall d (boxes : list row4) i y_min x_min y_max x_max,
     nth_error boxes i = Some (y_min, x_min, y_max, x_max) ->
     ((y_min =? y_max)%float = true /\ is_finite y_min = true /\
      is_finite (Typed.sub d x_max x_min) = true) \/
     ((x_min =? x_max)%float = true /\ is_finite x_min = true /\
      is_finite (Typed.sub d y_max y_min) = true) ->
     exists a, nth_error (Typed.area d boxes) i = Some a /\ is_zero a = true).
Proof.
  split.
  - intros d boxes. rewrite typed_area_map. split; [apply length_map|].
    intros i. rewrite nth_error_map.
    now destruct (nth_error boxes i) as [[[[y_min x_min] y_max] x_max]|].
  - intros d boxes i y_min x_min y_max x_max Hb Hflat.
    exists (box_area_in d (y_min, x_min, y_max, x_max)).
    split; [now rewrite typed_area_map, nth_error_map, Hb|].
    cbn [box_area_in].
    destruct Hflat as [[He [Hf Hw]] | [He [Hf Hh]]];
      pose proof (typed_sub_equal d _ _ He Hf) as Hz.
    + now apply (typed_mul_zero d _ _ Hz Hw).
    + now apply (typed_mul_zero d _ _ Hz Hh).
Qed.

Lemma area_entry_witness :
  exists a,
    nth_error (Typed.area Typed.Float32 [(1, 2, 1, 5)%float]) 0 = Some a /\
    is_zero a = true.
Proof.
  apply (proj2 area_entry Typed.Float32 [(1, 2, 1, 5)%float] 0%nat 1 2 1 5)%float.
  - reflexivity.
  - left. repeat split.
Defined.

(** C8 (as stated) fails: a box with [y_min = y_max] whose width overflows
    has area [0 * inf], which is NaN and not 0; so in a [float64] array and
    so in a [float32] array. *)
Lemma area_flat_wide_nan :
  (let '(y_min, x_min, y_max, x_max) := flat_wide_box in
   (y_min =? y_max)%float = true) /\
  Typed.area Typed.Float64 [flat_wide_box] = [nan] /\
  (let '(y_min, x_min, y_max, x_max) := flat_wide_box32 in
   (y_min =? y_max)%float = true) /\
  Typed.area Typed.Float32 [flat_wide_box32] = [nan] /\
  (nan =? 0)%float = false.
Proof. repeat split. Qed.

(** C5 (as the code has it).  In a [float64] array, for a box with
    [y_min <= y_max] and [x_min <= x_max] whose area [a] is positive and for
    which [a + a] is finite, the diagonal entry of [iou(boxes, boxes)] is
    exactly 1. *)
Theorem iou_diagonal (boxes : list row4) i y_min x_min y_max x_max :
  nth_error boxes i = Some (y_min, x_min, y_max, x_max) ->
  (y_min <=? y_max)%float = true -> (x_min <=? x_max)%float = true ->
  let a := ((y_max - y_min) * (x_max - x_min))%float in
  (0 <? a)%float = true -> is_finite (a + a) = true ->
  entry (Typed.iou Typed.Float64 Typed.Float64 boxes boxes) i i
  = Some 1%float.
Proof.
  intros Hb Hy Hx a Hpos Hfin.
  rewrite typed_iou_all_pairs, entry_all_pairs, Hb. f_equal.
  destruct (box_in_float64 (y_min, x_min, y_max, x_max)
              (y_min, x_min, y_max, x_max)) as [_ [_ [_ ->]]].
  apply box_iou_self; [split; assumption | exact Hpos | exact Hfin].
Qed.

Lemma iou_diagonal_witness :
  entry (Typed.iou Typed.Float64 Typed.Float64
           [(0, 0, 10, 10)%float] [(0, 0, 10, 10)%float]) 0 0
  = Some 1%float.
Proof.
  apply (iou_diagonal [(0, 0, 10, 10)%float] 0 0 0 10 10)%float;
    reflexivity.
Defined.

(** C5 (as stated) fails twice over.  In a [float64] array the box
    [huge_box] has the positive area [2 ^ 1023], the sum of the two areas
    overflows, and the IoU with itself is 0.  In a [float32] array the box
    [tenth_box32] has a positive area, which is rounded to binary32, while
    the intersection is a binary64 product: the IoU with itself is
    0.99999992. *)
Lemma iou_diagonal_not_one :
  (Typed.area Typed.Float64 [huge_box] = [0x1p1023%float] /\
   (0 <? 0x1p1023)%float = true /\
   Typed.iou Typed.Float64 Typed.Float64 [huge_box] [huge_box]
   = [[0%float]] /\
   (0 =? 1)%float = false) /\
  (tenth_box32 = (0, 0, 0x1.99999ap-4, 0x1.99999ap-4)%float /\
   Typed.area Typed.Float32 [tenth_box32] = [0x1.47ae16p-7%float] /\
   (0 <? 0x1.47ae16p-7)%float = true /\
   Typed.iou Typed.Float32 Typed.Float32 [tenth_box32] [tenth_box32]
   = [[0x1.fffffd4000056p-1%float]] /\
   (0x1.fffffd4000056p-1 =? 1)%float = false).
Proof. repeat split. Qed.

(** C10 (as the code has it).  For boxes with [y_min <= y_max] and
    [x_min <= x_max], in arrays of any element types, an entry of
    [intersection] that is not NaN is non-negative, and an entry of [iou]
    whose denominator is positive is non-negative.  When both arrays are
    [float64], the entry of [intersection] is moreover at most each of the
    two areas that is not NaN, and the entry of [iou] is at most 1. *)
Theorem intersection_iou_bounds d1 d2 boxes1 boxes2 :
  Forall valid_box boxes1 -> Forall valid_box boxes2 ->
  forall i j inter area1 area2,
    entry (Typed.intersection d1 d2 boxes1 boxes2) i j = Some inter ->
    nth_error (Typed.area d1 boxes1) i = Some area1 ->
    nth_error (Typed.area d2 boxes2) j = Some area2 ->
    (is_nan inter = false ->
     (0 <=? inter)%float = true /\
     (d1 = Typed.Float64 -> d2 = Typed.Float64 ->
      (is_nan area1 = false -> (inter <=? area1)%float = true) /\
      (is_nan area2 = false -> (inter <=? area2)%float = true))) /\
    (forall denominator quotient,
       entry (Typed.union d1 d2 boxes1 boxes2) i j = Some denominator ->
       entry (Typed.iou d1 d2 boxes1 boxes2) i j = Some quotient ->
       (0 <? denominator)%float = true ->
       (0 <=? quotient)%float = true /\
       (d1 = Typed.Float64 -> d2 = Typed.Float64 ->
        (quotient <=? 1)%float = true)).
Proof.
  intros V1 V2 i j inter area1 area2.
  rewrite typed_intersection_all_pairs, typed_union_all_pairs,
    typed_iou_all_pairs, !typed_area_map, !entry_all_pairs, !nth_error_map.
  destruct (nth_error boxes1 i) as [b1|] eqn:E1; [|discriminate].
  destruct (nth_error boxes2 j) as [b2|] eqn:E2; [|discriminate].
  assert (Hv1 : valid_box b1)
    by (eapply Forall_forall; [exact V1 | eapply nth_error_In; eauto]).
  assert (Hv2 : valid_box b2)
    by (eapply Forall_forall; [exact V2 | eapply nth_error_In; eauto]).
  cbn [option_map]. intros [= <-] [= <-] [= <-]. split.
  - intros Hn. split; [now apply box_intersection_in_nonneg|].
    intros -> ->. revert Hn. cbn [Typed.result_type].
    destruct (box_in_float64 b1 b2) as [-> [-> _]].
    destruct (box_in_float64 b2 b1) as [-> _].
    intros Hn.
    destruct (box_intersection_bounds b1 b2 Hv1 Hn) as [_ B1].
    split; auto.
    pose proof (box_intersection_sym b1 b2) as Hs.
    rewrite (zeq_leb _ _ _ _ Hs (zeq_refl (box_area b2))).
    rewrite (zeq_nan _ _ Hs) in Hn.
    now apply (box_intersection_bounds b2 b1 Hv2 Hn).
  - intros u q [= <-] [= <-] Hu. split; [now apply box_iou_in_nonneg|].
    intros -> ->. revert Hu.
    destruct (box_in_float64 b1 b2) as [_ [_ [-> ->]]].
    intros Hu. now apply box_iou_bounds.
Qed.

Lemma intersection_iou_bounds_witness :
  Forall valid_box [(0, 0, 10, 10)%float] /\
  Forall valid_box [(5, 5, 15, 15)%float] /\
  (0 <=? 25)%float = true /\ (25 <=? 100)%float = true /\
  (0 <=? 25 / 175)%float = true /\ (25 / 175 <=? 1)%float = true.
Proof.
  assert (V1 : Forall valid_box [(0, 0, 10, 10)%float])
    by (repeat constructor).
  assert (V2 : Forall valid_box [(5, 5, 15, 15)%float])
    by (repeat constructor).
  destruct (intersection_iou_bounds Typed.Float64 Typed.Float64
              [(0, 0, 10, 10)%float] [(5, 5, 15, 15)%float] V1 V2
              0 0 25%float 100%float 100%float
              eq_refl eq_refl eq_refl) as [Hi Hq].
  destruct (Hi eq_refl) as [H0 H1].
  destruct (H1 eq_refl eq_refl) as [H1' _].
  destruct (Hq 175%float (25 / 175)%float eq_refl eq_refl eq_refl)
    as [Q0 Q1].
  exact (conj V1 (conj V2 (conj H0 (conj (H1' eq_refl)
           (conj Q0 (Q1 eq_refl eq_refl)))))).
Defined.

(** C10 (as stated) fails twice over.  In a [float64] array the
    well-ordered box [flat_wide_box] has with itself the intersection
    [0 * inf], NaN, which is not non-negative.  In a [float32] array the
    well-ordered box [third_box32] has an area rounded to binary32 and with
    itself an intersection that is a binary64 product: the intersection,
    0.0900000072, exceeds the area, 0.0900000036, and the IoU, over a
    positive denominator, is 1.00000008. *)
Lemma intersection_iou_out_of_bounds :
  (valid_box flat_wide_box /\
   Typed.intersection Typed.Float64 Typed.Float64
     [flat_wide_box] [flat_wide_box] = [[nan]] /\
   (0 <=? nan)%float = false) /\
  (third_box32 = (0, 0, 0x1.333334p-2, 0x1.333334p-2)%float /\
   valid_box third_box32 /\
   Typed.area Typed.Float32 [third_box32] = [0x1.70a3d8p-4%float] /\
   Typed.intersection Typed.Float32 Typed.Float32
     [third_box32] [third_box32] = [[0x1.70a3d8f5c29p-4%float]] /\
   (0x1.70a3d8f5c29p-4 <=? 0x1.70a3d8p-4)%float = false /\
   Typed.union Typed.Float32 Typed.Float32 [third_box32] [third_box32]
   = [[0x1.70a3d70a3d7p-4%float]] /\
   (0 <? 0x1.70a3d70a3d7p-4)%float = true /\
   Typed.iou Typed.Float32 Typed.Float32 [third_box32] [third_box32]
   = [[0x1.0000015555564p+0%float]] /\
   (0x1.0000015555564p+0 <=? 1)%float = false).
Proof. repeat split. Qed.

(** * Further properties *)

(** ** [BoxList]: reading fields *)

(** What [get_field] does, by cases. *)
Lemma get_field_cases self field :
  get_field field self
  = match dict_get field (data self) with
    | Some a => (Return a, self)
    | None => (Raise (ValueError ("field " ++ field ++ " does not exist")%string), self)
    end.
Proof.
  cbv beta iota delta [get_field has_field bind get_data ret raise lift].
  unfold dict_contains.
  destruct (dict_get field (data self)) eqn:E; cbn [negb]; cbv beta iota;
    rewrite ?E; reflexivity.
Qed.

(** X1.  [get_field] (and so [get]) never changes the collection.  It
    raises exactly when [has_field] answers [False], and then a
    [ValueError], never the [KeyError] of the lookup; it returns an array
    exactly when the dict holds that array under the name. *)
Theorem get_field_outcome self field :
  snd (get_field field self) = self /\
  (forall e, fst (get_field field self) = Raise e -> exists msg, e = ValueError msg) /\
  ((exists msg, fst (get_field field self) = Raise (ValueError msg)) <->
   fst (has_field field self) = Return false) /\
  (forall a, fst (get_field field self) = Return a <->
             dict_get field (data self) = Some a).
Proof.
  rewrite get_field_cases.
  cbv beta iota delta [has_field bind get_data ret]. unfold dict_contains.
  destruct (dict_get field (data self)) as [a|]; simpl.
  - repeat split; try discriminate; try congruence.
    intros [msg H]; discriminate.
  - repeat split; try discriminate; eauto.
    intros e [= <-]; eauto.
Qed.

(** What a returning [add_field] has checked and done. *)
Lemma add_field_returns self self' field field_data :
  add_field field field_data self = (Return tt, self') ->
  exists n,
    num_boxes self = (Return n, self) /\
    dict_get field (data self) = None /\
    leading_dim field_data = Some n /\
    self' = {| data := data self ++ [(field, field_data)] |}.
Proof.
  intros H.
  destruct (num_boxes self) as [[n|e] s] eqn:Hn.
  - assert (Hs : s = self).
    { revert Hn. cbv beta iota delta [num_boxes bind get_data lift ret raise].
      destruct (dict_get "boxes" (data self)) as [b|];
        [destruct (shape_at 0 b)|]; cbv beta iota; congruence. }
    subst s.
    assert (Hn' : fst (num_boxes self) = Return n) by now rewrite Hn.
    destruct (add_field_cases self field field_data Hn')
      as [[Hc Hr] | [[Hc [Hl Hr]] | [Hc [Hl Hr]]]]; rewrite Hr in H;
      try discriminate.
    exists n. repeat split; auto.
    + now apply dict_contains_false.
    + congruence.
  - exfalso. revert H Hn.
    cbv beta iota delta [add_field has_field bind get_data ret raise set_data].
    destruct (dict_contains field (data self)); [discriminate|].
    destruct (ndim field_data <? 1)%nat; [discriminate|].
    intros H Hn. rewrite Hn in H. discriminate.
Qed.

Lemma dict_get_last {V} k (v : V) d :
  dict_get k d = None -> dict_get k (d ++ [(k, v)]) = Some v.
Proof.
  induction d as [|[k' v'] d IH]; simpl.
  - now rewrite String.eqb_refl.
  - destruct (String.eqb k k'); [discriminate | auto].
Qed.

Lemma dict_get_other {V} k k' (v : V) d :
  k <> k' -> dict_get k (d ++ [(k', v)]) = dict_get k d.
Proof.
  intros Hk. induction d as [|[k0 v0] d IH]; simpl.
  - apply String.eqb_neq in Hk. now rewrite Hk.
  - now destruct (String.eqb k k0).
Qed.

(** X2.  After an [add_field] that returns, [get_field] of the new name
    returns the array that was added and [has_field] answers [True]; every
    other name reads as before, and the number of boxes is unchanged. *)
Theorem add_field_get_field self self' field field_data :
  add_field field field_data self = (Return tt, self') ->
  get_field field self' = (Return field_data, self') /\
  has_field field self' = (Return true, self') /\
  (forall other, other <> field ->
     fst (get_field other self') = fst (get_field other self)) /\
  fst (num_boxes self') = fst (num_boxes self).
Proof.
  intros H. destruct (add_field_returns _ _ _ _ H) as [n [Hn [Hnew [Hl ->]]]].
  rewrite !get_field_cases. cbn [data].
  rewrite (dict_get_last _ field_data _ Hnew). split; [reflexivity|]. split; [|split].
  - cbv beta iota delta [has_field bind get_data ret]. unfold dict_contains.
    cbn [data]. now rewrite (dict_get_last _ field_data _ Hnew).
  - intros other Ho. rewrite !get_field_cases. cbn [data].
    rewrite (dict_get_other _ _ field_data (data self) Ho).
    now destruct (dict_get other (data self)).
  - cbv beta iota delta [num_boxes bind get_data lift ret raise]. cbn [data].
    assert (Hb : "boxes"%string <> field).
    { intros <-. revert Hn.
      cbv beta iota delta [num_boxes bind get_data lift ret raise].
      rewrite Hnew. discriminate. }
    rewrite (dict_get_other _ _ field_data (data self) Hb).
    destruct (dict_get "boxes" (data self)) as [b|];
      [destruct (shape_at 0 b)|]; reflexivity.
Qed.

(** X3.  After an [add_field] that returns, adding under the same name again
    raises [ValueError], whatever the data, and leaves the collection as it
    is. *)
Theorem add_field_twice self self' field field_data :
  add_field field field_data self = (Return tt, self') ->
  forall again,
    exists msg,
      add_field field again self' = (Raise (ValueError msg), self').
Proof.
  intros H again. destruct (add_field_returns _ _ _ _ H) as [n [Hn [Hnew [Hl ->]]]].
  cbv beta iota delta [add_field has_field bind get_data ret raise].
  unfold dict_contains. cbn [data]. rewrite (dict_get_last _ field_data _ Hnew).
  eexists; reflexivity.
Qed.

(** ** [BoxList]: a constructed collection *)
Lemma init_returns a self :
  __init__ (Ndarray a) = Return self ->
  self = {| data := [("boxes"%string, a)] |} /\
  n_by_4 a /\ (dtype_of a = float32 \/ dtype_of a = float64) /\
  forall i, i < len a -> ~ bad_row a i.
Proof.
  intros H. generalize (init_cases (Ndarray a)).
  intros [[[msg Hm] _] | [Hok [Hs [Hd Hv]]]]; [congruence|].
  rewrite H in Hok. injection Hok as ->.
  repeat split; auto. intros i Hi Hb. apply Hv. now exists i.
Qed.

Lemma run_keeps_boxes c self a :
  invariant self -> dict_get "boxes" (data self) = Some a ->
  invariant (snd (run c self)) /\
  dict_get "boxes" (data (snd (run c self))) = Some a.
Proof.
  intros Hinv Hb.
  destruct c as [| |f|field field_data| |f|];
    try (rewrite readers_keep_state by discriminate; now split).
  destruct (num_boxes_invariant Hinv) as [n Hn].
  assert (Hn' : fst (num_boxes self) = Return n) by now rewrite Hn.
  rewrite run_add_field.
  destruct (add_field_cases self field field_data Hn')
    as [[Hc Hr] | [[Hc [Hl Hr]] | [Hc [Hl Hr]]]]; rewrite Hr; simpl;
    auto.
  split.
  - now apply invariant_append with (n := n).
  - now apply dict_get_app.
Qed.

Lemma run_calls_keep_boxes calls : forall self a,
  invariant self -> dict_get "boxes" (data self) = Some a ->
  invariant (run_calls calls self) /\
  dict_get "boxes" (data (run_calls calls self)) = Some a.
Proof.
  induction calls as [|c calls IH]; intros self a Hinv Hb; [now split|].
  destruct (run_keeps_boxes c self a Hinv Hb) as [Hi' Hb'].
  exact (IH _ _ Hi' Hb').
Qed.

Lemma constructed_boxes a self calls :
  __init__ (Ndarray a) = Return self ->
  invariant (run_calls calls self) /\
  dict_get "boxes" (data (run_calls calls self)) = Some a.
Proof.
  intros H. apply run_calls_keep_boxes.
  - now apply init_invariant with (arg := Ndarray a).
  - destruct (init_returns a self H) as [-> _]. reflexivity.
Qed.

(** X4.  Whatever methods are called on a constructed collection, in
    whatever order, [get] returns the array the constructor was given,
    [num_boxes] its number of rows, and the field "boxes" is present. *)
Theorem calls_keep_boxes a self calls :
  __init__ (Ndarray a) = Return self ->
  let self' := run_calls calls self in
  get self' = (Return a, self') /\
  num_boxes self' = (Return (len a), self') /\
  has_field "boxes" self' = (Return true, self').
Proof.
  intros H self'.
  destruct (constructed_boxes a self calls H) as [Hinv Hb].
  fold self' in Hinv, Hb.
  destruct (init_returns a self H) as [_ [[n Hs] _]].
  split; [|split].
  - unfold get. rewrite get_field_cases. now rewrite Hb.
  - rewrite (invariant_num_boxes self' Hb Hs). unfold len. now rewrite Hs.
  - cbv beta iota delta [has_field bind get_data ret]. unfold dict_contains.
    now rewrite Hb.
Qed.

(** X5.  On a constructed collection, after any method calls,
    [get_coordinates] returns four 1-d arrays of length [N] and changes
    nothing; their entries at [i] are the coordinates of row [i], and the
    constructor's ordering holds between them: neither [y_min[i] > y_max[i]]
    nor [x_min[i] > x_max[i]]. *)
Theorem get_coordinates_columns a self calls :
  __init__ (Ndarray a) = Return self ->
  let self' := run_calls calls self in
  exists y_min x_min y_max x_max,
    get_coordinates self' = (Return [y_min; x_min; y_max; x_max], self') /\
    Forall (fun c => shape c = [len a] /\ List.length (buffer c) = len a)
      [y_min; x_min; y_max; x_max] /\
    forall i, i < len a ->
      nth_error (rows_of a) i
      = Some (nth i (buffer y_min) 0, nth i (buffer x_min) 0,
              nth i (buffer y_max) 0, nth i (buffer x_max) 0)%float /\
      gt (nth i (buffer y_min) 0%float) (nth i (buffer y_max) 0%float) = false /\
      gt (nth i (buffer x_min) 0%float) (nth i (buffer x_max) 0%float) = false.
Proof.
  intros H self'.
  destruct (constructed_boxes a self calls H) as [Hinv Hb].
  fold self' in Hinv, Hb.
  destruct (init_returns a self H) as [_ [_ [_ Hv]]].
  exists (column_of a 0), (column_of a 1), (column_of a 2), (column_of a 3).
  assert (Hcol : forall k i, i < len a ->
            nth i (buffer (column_of a k)) 0%float = item2 a i k).
  { intros k i Hi. unfold column_of, row_indices; cbn [buffer].
    rewrite (nth_indep _ 0%float (item2 a 0 k))
      by (rewrite length_map, length_seq; exact Hi).
    rewrite (map_nth (fun i => item2 a i k)), seq_nth by exact Hi.
    reflexivity. }
  split; [|split].
  - cbv beta iota delta [get_coordinates bind ret]. unfold get.
    rewrite get_field_cases, Hb. reflexivity.
  - repeat constructor; unfold column_of, row_indices; cbn [buffer];
      now rewrite length_map, length_seq.
  - intros i Hi. rewrite !Hcol by exact Hi. split.
    + unfold rows_of, row_indices. rewrite nth_error_map.
      rewrite (nth_error_nth' _ 0) by (rewrite length_seq; exact Hi).
      rewrite seq_nth by exact Hi. reflexivity.
    + specialize (Hv i Hi). unfold bad_row in Hv.
      destruct (gt (item2 a i 0) (item2 a i 2)); [elim Hv; now left|].
      destruct (gt (item2 a i 1) (item2 a i 3)); [elim Hv; now right|].
      now split.
Qed.

(** ** [BoxList]: the extra fields *)
Lemma get_extra_fields_eq self :
  get_extra_fields self
  = (Return (filter (fun k => negb (String.eqb k "boxes"))
               (dict_keys (data self))), self).
Proof. reflexivity. Qed.

Lemma filter_out_absent (x : string) ks :
  ~ In x ks -> filter (fun k => negb (String.eqb k x)) ks = ks.
Proof.
  induction ks as [|k ks IH]; intros Hx; [reflexivity|]. cbn [filter].
  destruct (String.eqb k x) eqn:E; cbn [negb].
  - apply String.eqb_eq in E. elim Hx; now left.
  - f_equal. apply IH. intros Hin; apply Hx; now right.
Qed.

Lemma filter_out_one (x : string) ks :
  NoDup ks -> In x ks ->
  1 + List.length (filter (fun k => negb (String.eqb k x)) ks)
  = List.length ks.
Proof.
  induction ks as [|k ks IH]; intros Hnd Hin; [destruct Hin|].
  inversion Hnd as [|? ? Hk Hnd']; subst. cbn [filter].
  destruct (String.eqb k x) eqn:E; cbn [negb List.length].
  - apply String.eqb_eq in E; subst k. now rewrite filter_out_absent.
  - rewrite <- IH; auto.
    destruct Hin as [<-|Hin]; auto. now rewrite String.eqb_refl in E.
Qed.

(** X6.  Under the class invariant [get_extra_fields] returns every field
    name but "boxes", each once: a name is listed exactly when it is not
    "boxes" and [has_field] answers [True], and the list has one name fewer
    than the collection has fields. *)
Theorem get_extra_fields_spec self :
  invariant self ->
  exists l,
    get_extra_fields self = (Return l, self) /\
    NoDup l /\
    1 + List.length l = List.length (data self) /\
    forall field,
      In field l <->
      field <> "boxes"%string /\ fst (has_field field self) = Return true.
Proof.
  intros [boxes [n [Hb [Hs [Hnd Hall]]]]].
  rewrite get_extra_fields_eq. eexists; split; [reflexivity|].
  split; [|split].
  - now apply NoDup_filter.
  - assert (Hin : In "boxes"%string (dict_keys (data self))).
    { apply dict_contains_In. unfold dict_contains. now rewrite Hb. }
    unfold dict_keys in *. rewrite <- (length_map fst (data self)).
    now apply filter_out_one.
  - intros field. rewrite filter_In, negb_true_iff, String.eqb_neq.
    rewrite <- dict_contains_In.
    cbv beta iota delta [has_field bind get_data ret fst].
    split; intros [H1 H2]; split; auto; congruence.
Qed.

(** X7.  An [add_field] that returns appends its name to the list
    [get_extra_fields] returns: the names come in the order they were added.
    The name was not listed before, and it is not "boxes". *)
Theorem add_field_extends_extra_fields self self' field field_data :
  add_field field field_data self = (Return tt, self') ->
  exists l,
    get_extra_fields self = (Return l, self) /\
    get_extra_fields self' = (Return (l ++ [field]), self') /\
    ~ In field l /\ field <> "boxes"%string.
Proof.
  intros H. destruct (add_field_returns _ _ _ _ H) as [n [Hn [Hnew [Hl ->]]]].
  assert (Hb : field <> "boxes"%string).
  { intros ->. revert Hn.
    cbv beta iota delta [num_boxes bind get_data lift ret raise].
    rewrite Hnew. discriminate. }
  rewrite !get_extra_fields_eq. eexists; split; [reflexivity|].
  cbn [data]. rewrite dict_keys_app, filter_app. cbn [dict_keys map fst filter].
  apply String.eqb_neq in Hb. rewrite Hb. cbn [negb].
  repeat split; auto.
  - rewrite filter_In. intros [Hin _].
    apply dict_contains_In in Hin. apply dict_contains_false in Hnew.
    congruence.
  - now apply String.eqb_neq.
Qed.

(** ** [BoxList]: what the constructor accepts *)
(** X8.  An array of shape [0, 4] and element type [float32] or [float64]
    is accepted: the collection has no box, [get_coordinates] returns four
    empty arrays, [area] of the rows is empty, and [iou] against any boxes
    has no row (resp. rows without entries). *)
Theorem empty_box_array d buf :
  d = float32 \/ d = float64 ->
  let a := {| dtype_of := d; shape := [0; 4]; buffer := buf |} in
  let none := {| dtype_of := d; shape := [0]; buffer := [] |} in
  exists self,
    __init__ (Ndarray a) = Return self /\
    num_boxes self = (Return 0, self) /\
    get_coordinates self = (Return [none; none; none; none], self) /\
    rows_of a = [] /\
    area (rows_of a) = [] /\
    (forall boxes, iou (rows_of a) boxes = []) /\
    (forall boxes, iou boxes (rows_of a) = map (fun _ => []) boxes).
Proof.
  intros Hd a none.
  exists {| data := [("boxes"%string, a)] |}.
  split; [destruct Hd as [-> | ->]; reflexivity|].
  repeat split.
  intros boxes. rewrite iou_all_pairs. reflexivity.
Qed.

(** The ordering test of [_is_valid_boxes], in terms of [<=] and NaN. *)
Lemma gt_false_iff lo hi : gt lo hi = false <-> axis_passes lo hi.
Proof.
  unfold gt, axis_passes.
  destruct (is_nan lo) eqn:Nl.
  { split; auto. intros _.
    destruct (hi <? lo)%float eqn:E; auto.
    apply ltb_nan in E. destruct E; congruence. }
  destruct (is_nan hi) eqn:Nh.
  { split; auto. intros _.
    destruct (hi <? lo)%float eqn:E; auto.
    apply ltb_nan in E. destruct E; congruence. }
  rewrite (ltb_xval _ _ Nh Nl), (leb_xval _ _ Nl Nh).
  rewrite Z.ltb_ge, Z.leb_le.
  split; [auto | intros [H | [H | H]]; [auto | discriminate ..]].
Qed.

Lemma rows_pass a :
  Forall row_passes (rows_of a) <-> forall i, i < len a -> ~ bad_row a i.
Proof.
  unfold rows_of, row_indices. rewrite Forall_map, Forall_forall.
  split.
  - intros H i Hi. specialize (H i). rewrite in_seq in H.
    destruct (H ltac:(lia)) as [Hy Hx].
    apply gt_false_iff in Hy, Hx. unfold bad_row. intros [Hb | Hb]; congruence.
  - intros H i Hi. apply in_seq in Hi. specialize (H i ltac:(lia)).
    unfold bad_row in H. split; apply gt_false_iff.
    + destruct (gt (item2 a i 0) (item2 a i 2)); auto. elim H; now left.
    + destruct (gt (item2 a i 1) (item2 a i 3)); auto. elim H; now right.
Qed.

(** X9.  An [N, 4] array of [float32] or [float64] is accepted by the
    constructor exactly when on each axis of each row the bounds are ordered
    or one of them is NaN: a NaN never fails the test [lo > hi].  For
    arrays without NaN this is the ordering of the data model,
    [y_min <= y_max] and [x_min <= x_max] in every row. *)
Theorem init_accepts_iff a n :
  shape a = [n; 4] ->
  dtype_of a = float32 \/ dtype_of a = float64 ->
  ((exists self, __init__ (Ndarray a) = Return self) <->
   Forall row_passes (rows_of a)) /\
  (Forall nan_free (rows_of a) ->
   ((exists self, __init__ (Ndarray a) = Return self) <->
    Forall valid_box (rows_of a))).
Proof.
  intros Hs Hd.
  assert (Hiff : (exists self, __init__ (Ndarray a) = Return self) <->
                 Forall row_passes (rows_of a)).
  { rewrite rows_pass. split.
    - intros [self H]. now destruct (init_returns a self H) as [_ [_ [_ Hv]]].
    - intros Hv. generalize (init_cases (Ndarray a)).
      intros [[_ [Hc | [[H1 H2] | [i [Hi Hb]]]]] | [Hok _]]; eauto.
      + elim Hc. now exists n.
      + destruct Hd; contradiction.
      + elim (Hv i Hi Hb). }
  split; [exact Hiff|].
  intros Hnan. rewrite Hiff. rewrite !Forall_forall in *.
  split; intros H [[[y_min x_min] y_max] x_max] Hin;
    specialize (H _ Hin); specialize (Hnan _ Hin);
    cbn [row_passes valid_box nan_free axis_passes] in *.
  - destruct Hnan as [N0 [N1 [N2 N3]]].
    unfold axis_passes in H.
    destruct H as [[Hy | [Hy | Hy]] [Hx | [Hx | Hx]]];
      try congruence; now split.
  - destruct H as [Hy Hx]. split; now left.
Qed.

(** *** Instances *)

Lemma add_field_get_field_witness :
  get_field "scores" scored_box_list = (Return unit_scores, scored_box_list).
Proof.
  exact (proj1 (add_field_get_field unit_box_list scored_box_list
                  "scores" unit_scores eq_refl)).
Defined.

Lemma add_field_twice_witness :
  exists msg,
    add_field "scores" unit_box scored_box_list
    = (Raise (ValueError msg), scored_box_list).
Proof.
  exact (add_field_twice unit_box_list scored_box_list "scores" unit_scores
           eq_refl unit_box).
Defined.

Lemma calls_keep_boxes_witness :
  get (run_calls [AddField "scores" unit_scores; GetCoordinates]
         unit_box_list)
  = (Return unit_box,
     run_calls [AddField "scores" unit_scores; GetCoordinates] unit_box_list).
Proof.
  exact (proj1 (calls_keep_boxes unit_box unit_box_list
                  [AddField "scores" unit_scores; GetCoordinates] eq_refl)).
Defined.

Lemma get_coordinates_columns_witness :
  exists y_min x_min y_max x_max,
    get_coordinates scored_box_list
    = (Return [y_min; x_min; y_max; x_max], scored_box_list) /\
    buffer y_min = [0%float] /\ buffer y_max = [1%float].
Proof.
  destruct (get_coordinates_columns unit_box unit_box_list
              [AddField "scores" unit_scores] eq_refl)
    as [y_min [x_min [y_max [x_max [H _]]]]].
  injection H as Hy Hx HY HX.
  exists y_min, x_min, y_max, x_max. subst. repeat split.
Defined.

Lemma get_extra_fields_spec_witness :
  exists l,
    get_extra_fields scored_box_list = (Return l, scored_box_list) /\
    NoDup l /\
    1 + List.length l = List.length (data scored_box_list) /\
    forall field,
      In field l <->
      field <> "boxes"%string /\
      fst (has_field field scored_box_list) = Return true.
Proof.
  apply get_extra_fields_spec.
  exists unit_box, 1. split; [reflexivity|]. split; [reflexivity|]. split.
  - repeat constructor; simpl; intuition discriminate.
  - repeat constructor.
Defined.

Lemma add_field_extends_extra_fields_witness :
  exists l,
    get_extra_fields unit_box_list = (Return l, unit_box_list) /\
    get_extra_fields scored_box_list
    = (Return (l ++ ["scores"%string]), scored_box_list) /\
    ~ In "scores"%string l /\ "scores"%string <> "boxes"%string.
Proof.
  exact (add_field_extends_extra_fields unit_box_list scored_box_list
           "scores" unit_scores eq_refl).
Defined.

Lemma empty_box_array_witness :
  exists self,
    __init__ (Ndarray {| dtype_of := float64; shape := [0; 4]; buffer := [] |})
    = Return self /\
    num_boxes self = (Return 0, self).
Proof.
  destruct (empty_box_array float64 [] (or_intror eq_refl))
    as [self [Hinit [Hn _]]].
  exists self. split; assumption.
Defined.

Lemma init_accepts_iff_witness :
  (exists self, __init__ (Ndarray unit_box) = Return self) <->
  Forall row_passes (rows_of unit_box).
Proof.
  exact (proj1 (init_accepts_iff unit_box 1 eq_refl (or_intror eq_refl))).
Defined.

(** ** Binary64: commutativity, zeros and separated intervals *)

Section MoreBinary64.
Local Open Scope Z_scope.

(** Addition is commutative, NaN and signed zeros included. *)
Lemma add_comm_float x y : (x + y)%float = (y + x)%float.
Proof.
  apply Prim2SF_inj. rewrite !add_spec.
  destruct (Prim2SF x) as [s|s| |s m e], (Prim2SF y) as [s'|s'| |s' m' e'];
    try reflexivity; try (destruct s, s'; reflexivity).
  unfold SF64add, SFadd. rewrite (Z.min_comm e' e), Z.add_comm. reflexivity.
Qed.

(** [np.maximum(0, h)] is [h] for a non-negative or NaN [h]. *)
Lemma maximum_0_extent h :
  is_nan h = true \/ (0 <=? h)%float = true -> zeq (maximum 0 h) h.
Proof.
  intros H. unfold maximum. change (is_nan 0) with false. cbn [orb].
  destruct (h <? 0)%float eqn:E; [|apply zeq_refl].
  destruct (ltb_nan _ _ E) as [Nh _].
  destruct H as [H | H]; [congruence|].
  apply leb_antisym; [exact H | now apply ltb_leb].
Qed.

(** The smaller of two ordered numbers is the first, the larger the
    second, the sign of a zero apart. *)
Lemma minimum_ordered a b : (a <=? b)%float = true -> zeq (minimum a b) a.
Proof.
  intros H. destruct (leb_nan _ _ H) as [Na Nb].
  unfold minimum. rewrite Na. cbn [orb].
  destruct (a <? b)%float eqn:E; [apply zeq_refl|].
  apply leb_antisym; [now apply ltb_false_leb | exact H].
Qed.

Lemma maximum_ordered a b : (b <=? a)%float = true -> zeq (maximum a b) a.
Proof.
  intros H. destruct (leb_nan _ _ H) as [Nb Na].
  unfold maximum. rewrite Na. cbn [orb].
  destruct (b <? a)%float eqn:E; [apply zeq_refl|].
  apply leb_antisym; [exact H | now apply ltb_false_leb].
Qed.

Lemma extent_shape lo hi :
  (lo <=? hi)%float = true ->
  is_nan (hi - lo) = true \/ (0 <=? hi - lo)%float = true.
Proof.
  intros H. destruct (is_nan (hi - lo)) eqn:N; [now left|].
  right. now apply extent_nonneg.
Qed.

Lemma box_intersection_self b :
  valid_box b -> zeq (box_intersection b b) (box_area b).
Proof.
  destruct b as [[[y_min x_min] y_max] x_max]. intros [Hy Hx].
  unfold box_intersection, box_area.
  rewrite !minimum_same, !maximum_same.
  apply mul_zeq; apply maximum_0_extent, extent_shape; assumption.
Qed.

Lemma box_intersection_contained b1 b2 :
  let '(y_min1, x_min1, y_max1, x_max1) := b1 in
  let '(y_min2, x_min2, y_max2, x_max2) := b2 in
  valid_box b1 ->
  (y_min2 <=? y_min1)%float = true /\ (y_max1 <=? y_max2)%float = true /\
  (x_min2 <=? x_min1)%float = true /\ (x_max1 <=? x_max2)%float = true ->
  zeq (box_intersection b1 b2) (box_area b1).
Proof.
  destruct b1 as [[[y_min1 x_min1] y_max1] x_max1].
  destruct b2 as [[[y_min2 x_min2] y_max2] x_max2].
  intros [Hy Hx] [Hy0 [Hy1 [Hx0 Hx1]]].
  unfold box_intersection, box_area.
  apply mul_zeq.
  - apply zeq_trans with (maximum 0 (y_max1 - y_min1)).
    + apply maximum_0_zeq, sub_zeq;
        [now apply minimum_ordered | now apply maximum_ordered].
    + now apply maximum_0_extent, extent_shape.
  - apply zeq_trans with (maximum 0 (x_max1 - x_min1)).
    + apply maximum_0_zeq, sub_zeq;
        [now apply minimum_ordered | now apply maximum_ordered].
    + now apply maximum_0_extent, extent_shape.
Qed.

Lemma box_area_nonneg b :
  valid_box b -> is_nan (box_area b) = false ->
  (0 <=? box_area b)%float = true.
Proof.
  destruct b as [[[y_min x_min] y_max] x_max]. intros [Hy Hx] Hn.
  unfold box_area in *.
  destruct (mul_operands _ _ Hn) as [Nh Nw].
  apply mul_nonneg; try assumption; now apply extent_nonneg.
Qed.

(** Two intervals, one ending where or before the other begins, overlap by
    a zero. *)
Lemma overlap_separated lo1 hi1 lo2 hi2 :
  (hi1 <=? lo2)%float = true \/ (hi2 <=? lo1)%float = true ->
  is_nan (minimum hi1 hi2 - maximum lo1 lo2) = false ->
  is_zero (maximum 0 (minimum hi1 hi2 - maximum lo1 lo2)) = true.
Proof.
  intros Hsep Hn.
  destruct (sub_operands _ _ Hn) as [Nmin Nmax].
  destruct (minimum_le _ _ Nmin) as [Hm1 Hm2].
  destruct (maximum_ge _ _ Nmax) as [HM1 HM2].
  apply leb_le in Hm1, Hm2, HM1, HM2.
  assert (Hle : xval (minimum hi1 hi2) - xval (maximum lo1 lo2) <= 0).
  { destruct Hsep as [H | H]; apply leb_le in H; lia. }
  assert (Hd : (minimum hi1 hi2 - maximum lo1 lo2 <=? 0)%float = true).
  { apply le_leb; [assumption | reflexivity |].
    rewrite sub_xval by assumption. rewrite xval_0, <- ext_srnd_0.
    now apply ext_srnd_mono. }
  set (d := (minimum hi1 hi2 - maximum lo1 lo2)%float) in *.
  unfold maximum. change (is_nan 0) with false. cbn [orb].
  destruct (d <? 0)%float eqn:E; [reflexivity|].
  apply is_zero_of_xval; [assumption|].
  apply leb_le in Hd. rewrite xval_0 in Hd.
  rewrite (ltb_xval d 0 Hn eq_refl), xval_0 in E. apply Z.ltb_ge in E. lia.
Qed.

Lemma mul_0_zero h w :
  is_zero h = true ->
  (is_nan (h * w) = false -> is_zero (h * w) = true) /\
  (is_nan (w * h) = false -> is_zero (w * h) = true).
Proof.
  rewrite !is_nan_SF, !is_zero_SF, !mul_spec.
  destruct (Prim2SF h); try discriminate. intros _.
  destruct (Prim2SF w); simpl; auto.
Qed.

Lemma div_zero_pos i u :
  is_zero i = true -> (0 <? u)%float = true -> is_zero (i / u) = true.
Proof.
  rewrite !is_zero_SF, ltb_spec, div_spec.
  change (Prim2SF 0) with (S754_zero false).
  destruct (Prim2SF i) as [s| | |]; try discriminate. intros _.
  destruct (Prim2SF u) as [s'|s'| |s' m e]; simpl; try discriminate; auto.
Qed.

Lemma box_intersection_separated b1 b2 :
  let '(y_min1, x_min1, y_max1, x_max1) := b1 in
  let '(y_min2, x_min2, y_max2, x_max2) := b2 in
  (y_max1 <=? y_min2)%float = true \/ (y_max2 <=? y_min1)%float = true \/
  (x_max1 <=? x_min2)%float = true \/ (x_max2 <=? x_min1)%float = true ->
  is_nan (box_intersection b1 b2) = false ->
  is_zero (box_intersection b1 b2) = true.
Proof.
  destruct b1 as [[[y_min1 x_min1] y_max1] x_max1].
  destruct b2 as [[[y_min2 x_min2] y_max2] x_max2].
  unfold box_intersection. intros Hsep Hn.
  destruct (mul_operands _ _ Hn) as [Nh Nw].
  apply maximum_0_operand in Nh, Nw.
  assert (Hz : is_zero (maximum 0 (minimum y_max1 y_max2
                                     - maximum y_min1 y_min2)) = true
               \/ is_zero (maximum 0 (minimum x_max1 x_max2
                                        - maximum x_min1 x_min2)) = true).
  { destruct Hsep as [H | [H | [H | H]]];
      [left | left | right | right]; apply overlap_separated; auto. }
  destruct Hz as [Hz | Hz];
    [apply (proj1 (mul_0_zero _ _ Hz)) | apply (proj2 (mul_0_zero _ _ Hz))];
    exact Hn.
Qed.

Lemma zero_quotient_nan a i :
  is_zero a = true -> is_zero i = true ->
  (i / (a + a - i))%float = nan.
Proof.
  intros Ha Hi. apply nan_unique; [|reflexivity].
  revert Ha Hi. rewrite is_nan_SF, !is_zero_SF, div_spec, sub_spec, add_spec.
  destruct (Prim2SF a) as [s| | |]; try discriminate.
  destruct (Prim2SF i) as [t| | |]; try discriminate.
  destruct s, t; reflexivity.
Qed.

Lemma zeq_zero x y : zeq x y -> is_zero y = true -> is_zero x = true.
Proof. intros [-> | [Hx _]]; auto. Qed.

(** A quotient of [iou] whose numerator changes the sign of its zero. *)
Lemma div_sub_zeq s i i' :
  zeq i i' -> zeq (i / (s - i)) (i' / (s - i')).
Proof.
  rewrite !zeq_SF, !div_spec, !sub_spec.
  intros [-> | [b [b' [-> ->]]]]; [now left|].
  destruct (Prim2SF s) as [c|c| |c m e]; destruct b, b'; try destruct c;
    cbn; first [left; reflexivity | right; eauto].
Qed.

Lemma SFadd_comm p em x y : SFadd p em x y = SFadd p em y x.
Proof.
  destruct x as [s|s| |s m e], y as [s'|s'| |s' m' e'];
    try reflexivity; try (destruct s, s'; reflexivity).
  unfold SFadd. rewrite (Z.min_comm e' e), Z.add_comm. reflexivity.
Qed.

Lemma typed_add_comm d x y : Typed.add d x y = Typed.add d y x.
Proof.
  destruct d; cbn [Typed.add]; unfold Typed.rounded;
    [now rewrite SFadd_comm | now rewrite SFadd_comm | apply add_comm_float].
Qed.

Lemma box_iou_in_sym d1 d2 b1 b2 :
  zeq (box_iou_in d1 d2 b1 b2) (box_iou_in d2 d1 b2 b1).
Proof.
  unfold box_iou_in, box_union_in.
  rewrite (result_type_comm d2 d1), (typed_add_comm _ (box_area_in d2 b2)).
  apply div_sub_zeq, box_intersection_in_sym.
Qed.

End MoreBinary64.

(** X10.  [iou(A, B)] is the transpose of [iou(B, A)], whatever the element
    types of [A] and [B]: the two arrays have one shape and equal entries,
    as NumPy compares numbers, a NaN of the one standing against a NaN of
    the other (the entries can differ in the sign of a zero). *)
Theorem iou_transpose d1 d2 (A B : list row4) :
  same_entries (Typed.iou d1 d2 A B)
    (transpose (List.length A) (Typed.iou d2 d1 B A)).
Proof.
  rewrite !typed_iou_all_pairs, transpose_all_pairs.
  apply same_entries_all_pairs. intros b1 b2. apply box_iou_in_sym.
Qed.

(** X11.  For boxes with [y_min <= y_max] and [x_min <= x_max], every area
    that is not NaN is non-negative. *)
Theorem area_nonneg boxes :
  Forall valid_box boxes ->
  forall i a,
    nth_error (area boxes) i = Some a -> is_nan a = false ->
    (0 <=? a)%float = true.
Proof.
  intros V i a. rewrite area_map, nth_error_map.
  destruct (nth_error boxes i) as [b|] eqn:E; [|discriminate].
  cbn [option_map]. intros [= <-]. apply box_area_nonneg.
  eapply Forall_forall; [exact V | eapply nth_error_In; eauto].
Qed.

(** X12.  In [float64] arrays, when box [i] of the first set is well
    ordered and lies within box [j] of the second, their intersection is the
    area of box [i], the sign of a zero apart (it is NaN when the area is).
    In particular the diagonal of [intersection(boxes, boxes)] is
    [area(boxes)]. *)
Theorem intersection_contained (boxes1 boxes2 : list row4) i j
    y_min1 x_min1 y_max1 x_max1 y_min2 x_min2 y_max2 x_max2 :
  nth_error boxes1 i = Some (y_min1, x_min1, y_max1, x_max1) ->
  nth_error boxes2 j = Some (y_min2, x_min2, y_max2, x_max2) ->
  (y_min1 <=? y_max1)%float = true -> (x_min1 <=? x_max1)%float = true ->
  (y_min2 <=? y_min1)%float = true -> (y_max1 <=? y_max2)%float = true ->
  (x_min2 <=? x_min1)%float = true -> (x_max1 <=? x_max2)%float = true ->
  exists inter a,
    entry (Typed.intersection Typed.Float64 Typed.Float64 boxes1 boxes2) i j
    = Some inter /\
    nth_error (Typed.area Typed.Float64 boxes1) i = Some a /\
    zeq inter a.
Proof.
  intros E1 E2 Hy Hx Hy0 Hy1 Hx0 Hx1.
  rewrite typed_intersection_all_pairs, entry_all_pairs, typed_area_map,
    nth_error_map, E1, E2.
  cbn [option_map]. do 2 eexists. split; [reflexivity|].
  split; [reflexivity|].
  apply (box_intersection_contained (y_min1, x_min1, y_max1, x_max1)
           (y_min2, x_min2, y_max2, x_max2)); repeat split; assumption.
Qed.

(** X13.  When two boxes are separated along an axis (one ends where or
    before the other begins), their intersection is a zero or NaN, and their
    IoU is a zero whenever its denominator is positive. *)
Theorem intersection_separated (boxes1 boxes2 : list row4) i j
    y_min1 x_min1 y_max1 x_max1 y_min2 x_min2 y_max2 x_max2 :
  nth_error boxes1 i = Some (y_min1, x_min1, y_max1, x_max1) ->
  nth_error boxes2 j = Some (y_min2, x_min2, y_max2, x_max2) ->
  (y_max1 <=? y_min2)%float = true \/ (y_max2 <=? y_min1)%float = true \/
  (x_max1 <=? x_min2)%float = true \/ (x_max2 <=? x_min1)%float = true ->
  (exists inter,
     entry (intersection boxes1 boxes2) i j = Some inter /\
     (is_nan inter = true \/ is_zero inter = true)) /\
  (forall denominator quotient,
     entry (union boxes1 boxes2) i j = Some denominator ->
     entry (iou boxes1 boxes2) i j = Some quotient ->
     (0 <? denominator)%float = true ->
     is_zero quotient = true).
Proof.
  intros E1 E2 Hsep.
  rewrite intersection_all_pairs, union_all_pairs, iou_all_pairs,
    !entry_all_pairs, E1, E2.
  set (b1 := (y_min1, x_min1, y_max1, x_max1)).
  set (b2 := (y_min2, x_min2, y_max2, x_max2)).
  pose proof (box_intersection_separated b1 b2 Hsep) as Hz.
  split.
  - eexists; split; [reflexivity|].
    destruct (is_nan (box_intersection b1 b2)); auto.
  - intros u q [= <-] [= <-] Hpos. unfold box_iou.
    apply div_zero_pos; [|exact Hpos].
    apply Hz. unfold box_union in Hpos.
    destruct (ltb_nan _ _ Hpos) as [_ Hn].
    now destruct (sub_operands _ _ Hn).
Qed.

(** X14.  For every well-ordered box whose area is a zero, the diagonal
    entry of [iou(boxes, boxes)] is NaN: the unguarded division is [0 / 0]. *)
Theorem iou_diagonal_zero_area (boxes : list row4) i b a :
  nth_error boxes i = Some b -> valid_box b ->
  nth_error (area boxes) i = Some a -> is_zero a = true ->
  entry (iou boxes boxes) i i = Some nan.
Proof.
  intros E V. rewrite area_map, nth_error_map, E. cbn [option_map].
  intros [= <-] Hz.
  rewrite iou_all_pairs, entry_all_pairs, E. f_equal.
  unfold box_iou, box_union. apply zero_quotient_nan; [exact Hz|].
  exact (zeq_zero _ _ (box_intersection_self b V) Hz).
Qed.

(** *** Instances *)

Lemma area_nonneg_witness : (0 <=? 100)%float = true.
Proof.
  apply (area_nonneg [(0, 0, 10, 10)%float]
           ltac:(repeat constructor) 0 100%float eq_refl eq_refl).
Defined.

Lemma intersection_contained_witness :
  exists inter a,
    entry (Typed.intersection Typed.Float64 Typed.Float64
             [(2, 2, 4, 5)%float] [(0, 0, 10, 10)%float]) 0 0
    = Some inter /\
    nth_error (Typed.area Typed.Float64 [(2, 2, 4, 5)%float]) 0 = Some a /\
    zeq inter a.
Proof.
  exact (intersection_contained [(2, 2, 4, 5)%float] [(0, 0, 10, 10)%float]
           0 0 2 2 4 5 0 0 10 10 eq_refl eq_refl
           eq_refl eq_refl eq_refl eq_refl eq_refl eq_refl)%float.
Defined.

Lemma intersection_separated_witness :
  exists inter,
    entry (intersection [(0, 0, 1, 1)%float] [(1, 0, 3, 1)%float]) 0 0
    = Some inter /\
    (is_nan inter = true \/ is_zero inter = true).
Proof.
  exact (proj1 (intersection_separated
                  [(0, 0, 1, 1)%float] [(1, 0, 3, 1)%float]
                  0 0 0 0 1 1 1 0 3 1 eq_refl eq_refl
                  (or_introl eq_refl)))%float.
Defined.

Lemma iou_diagonal_zero_area_witness :
  entry (iou [(1, 2, 1, 5)%float] [(1, 2, 1, 5)%float]) 0 0 = Some nan.
Proof.
  apply (iou_diagonal_zero_area [(1, 2, 1, 5)%float] 0
           (1, 2, 1, 5)%float 0%float eq_refl).
  - split; reflexivity.
  - reflexivity.
  - reflexivity.
Defined.

(** ** [SkeleTR._merge_default_cfg] *)

Section ConfigFacts.
Import SkeleTR.

(** A step of the loop keeps every entry of every dict. *)
Lemma set_default_keeps cfg h kv r k v :
  dict_get k (h r) = Some v -> dict_get k (set_default cfg h kv r) = Some v.
Proof.
  destruct kv as [k0 v0]. unfold set_default, assign.
  destruct (dict_contains k0 (h cfg)) eqn:E; cbn [negb]; auto.
  destruct (Nat.eqb_spec r cfg) as [->|]; auto.
  intros H. apply dict_contains_false in E.
  rewrite dict_set_new by exact E. now apply dict_get_app.
Qed.

Lemma set_default_sets cfg h k0 v0 :
  dict_contains k0 (set_default cfg h (k0, v0) cfg) = true.
Proof.
  unfold set_default, assign.
  destruct (dict_contains k0 (h cfg)) eqn:E; cbn [negb]; auto.
  rewrite Nat.eqb_refl. apply dict_contains_false in E.
  rewrite dict_set_new by exact E. unfold dict_contains.
  now rewrite (dict_get_last _ v0 _ E).
Qed.

Lemma contains_keeps (d d' : dict pyvalue) k :
  (forall v, dict_get k d = Some v -> dict_get k d' = Some v) ->
  dict_contains k d = true -> dict_contains k d' = true.
Proof.
  unfold dict_contains. intros H.
  destruct (dict_get k d) as [v|]; [|discriminate].
  now rewrite (H v eq_refl).
Qed.

Lemma fold_set_default_keeps cfg items : forall h r k v,
  dict_get k (h r) = Some v ->
  dict_get k (fold_left (set_default cfg) items h r) = Some v.
Proof.
  induction items as [|kv items IH]; intros h r k v H; [exact H|].
  cbn [fold_left]. apply IH. now apply set_default_keeps.
Qed.

Lemma fold_set_default_fills cfg items : forall h k,
  In k (dict_keys items) ->
  dict_contains k (fold_left (set_default cfg) items h cfg) = true.
Proof.
  induction items as [|[k0 v0] items IH]; intros h k Hin; [destruct Hin|].
  cbn [fold_left]. destruct Hin as [<- | Hin]; [|now apply IH].
  cbn [fst]. eapply contains_keeps; [|apply (set_default_sets cfg h k0 v0)].
  intros v. apply fold_set_default_keeps.
Qed.

Lemma merge_into_keeps cfg default_cfg h r k v :
  dict_get k (h r) = Some v ->
  dict_get k (merge_into cfg default_cfg h r) = Some v.
Proof. apply fold_set_default_keeps. Qed.

Lemma merge_into_fills cfg default_cfg h k :
  dict_contains k (h default_cfg) = true ->
  dict_contains k (merge_into cfg default_cfg h cfg) = true.
Proof.
  intros H. apply fold_set_default_fills. now apply dict_contains_In.
Qed.

Lemma merge_all_keeps l : forall h r k v,
  dict_get k (h r) = Some v ->
  dict_get k (fold_left (fun h tup => merge_into (fst tup) (snd tup) h) l h r)
  = Some v.
Proof.
  induction l as [|tup l IH]; intros h r k v H; [exact H|].
  cbn [fold_left]. apply IH. now apply merge_into_keeps.
Qed.

Lemma merge_all_fills l : forall h cfg default_cfg k,
  In (cfg, default_cfg) l ->
  dict_contains k (h default_cfg) = true ->
  dict_contains k
    (fold_left (fun h tup => merge_into (fst tup) (snd tup) h) l h cfg)
  = true.
Proof.
  induction l as [|tup l IH]; intros h cfg default_cfg k Hin Hk;
    [destruct Hin|].
  cbn [fold_left]. destruct Hin as [-> | Hin].
  - cbn [fst snd]. eapply contains_keeps; [|apply merge_into_fills; exact Hk].
    intros v. apply merge_all_keeps.
  - apply (IH _ cfg default_cfg); auto.
    eapply contains_keeps; [|exact Hk].
    intros v. apply merge_into_keeps.
Qed.

(** X15.  [_merge_default_cfg] overwrites and removes nothing: every entry
    of every dict is still there with its value (so the caller's settings
    win, and a nested dict the caller gave is kept as it is).  Afterwards
    each configuration has every key its defaults had.  Both hold whichever
    of the dicts are one and the same object. *)
Theorem merge_default_cfg_keeps_and_fills self h :
  (forall r k v,
     dict_get k (h r) = Some v ->
     dict_get k (_merge_default_cfg self h r) = Some v) /\
  (forall cfg default_cfg k,
     In (cfg, default_cfg) (tups self) ->
     dict_contains k (h default_cfg) = true ->
     dict_contains k (_merge_default_cfg self h cfg) = true).
Proof.
  split.
  - intros r k v. apply merge_all_keeps.
  - intros cfg default_cfg k. apply merge_all_fills.
Qed.

(** The loop changes no dict but [cfg]. *)
Lemma set_default_frame cfg h kv r :
  r <> cfg -> set_default cfg h kv r = h r.
Proof.
  destruct kv as [k0 v0]. unfold set_default, assign. intros Hr.
  destruct (dict_contains k0 (h cfg)); cbn [negb]; auto.
  apply Nat.eqb_neq in Hr. now rewrite Hr.
Qed.

Lemma fold_set_default_frame cfg items : forall h r,
  r <> cfg -> fold_left (set_default cfg) items h r = h r.
Proof.
  induction items as [|kv items IH]; intros h r Hr; [reflexivity|].
  cbn [fold_left]. rewrite IH by exact Hr. now apply set_default_frame.
Qed.

Lemma fold_set_default_lookup cfg items : forall h k,
  dict_get k (fold_left (set_default cfg) items h cfg)
  = lookup_or (h cfg) items k.
Proof.
  unfold lookup_or.
  induction items as [|[k0 v0] items IH]; intros h k.
  - cbn [fold_left dict_get]. now destruct (dict_get k (h cfg)).
  - cbn [fold_left]. rewrite IH. unfold set_default, assign.
    destruct (dict_contains k0 (h cfg)) eqn:E; cbn [negb dict_get].
    + destruct (dict_get k (h cfg)) as [v|] eqn:Ek; [reflexivity|].
      destruct (String.eqb_spec k k0) as [->|Hk]; [|reflexivity].
      unfold dict_contains in E. now rewrite Ek in E.
    + rewrite Nat.eqb_refl. apply dict_contains_false in E.
      rewrite dict_set_new by exact E.
      destruct (String.eqb_spec k k0) as [->|Hk].
      * now rewrite (dict_get_last _ v0 _ E), E.
      * rewrite (dict_get_other _ _ v0 (h cfg) Hk).
        reflexivity.
Qed.

Lemma merge_into_frame cfg default_cfg h r :
  r <> cfg -> merge_into cfg default_cfg h r = h r.
Proof. apply fold_set_default_frame. Qed.

Lemma merge_into_lookup cfg default_cfg h k :
  dict_get k (merge_into cfg default_cfg h cfg)
  = lookup_or (h cfg) (h default_cfg) k.
Proof. apply fold_set_default_lookup. Qed.

Lemma merge_default_cfg_frame self h r :
  ~ In r [gcn_config self; tr_config self; neck_config self] ->
  _merge_default_cfg self h r = h r.
Proof.
  intros Hr. cbn [In] in Hr.
  unfold _merge_default_cfg. cbn [fold_left fst snd].
  rewrite !merge_into_frame by intuition congruence. reflexivity.
Qed.

(** X16.  When the six dicts are six objects, [_merge_default_cfg] leaves
    the defaults as they are, and each configuration then reads, under every
    key, its own entry if it had one and else the entry of its defaults. *)
Theorem merge_default_cfg_lookup self h :
  NoDup [gcn_config self; tr_config self; neck_config self;
         default_gcn_config self; default_tr_config self;
         default_neck_config self] ->
  forall cfg default_cfg,
    In (cfg, default_cfg) (tups self) ->
    _merge_default_cfg self h default_cfg = h default_cfg /\
    forall k,
      dict_get k (_merge_default_cfg self h cfg)
      = lookup_or (h cfg) (h default_cfg) k.
Proof.
  intros Hnd cfg default_cfg Hin.
  assert (Hne : forall i j, i < j -> j < 6 ->
            nth i [gcn_config self; tr_config self; neck_config self;
                   default_gcn_config self; default_tr_config self;
                   default_neck_config self] 0
            <> nth j [gcn_config self; tr_config self; neck_config self;
                      default_gcn_config self; default_tr_config self;
                      default_neck_config self] 0).
  { intros i j Hij Hj E.
    apply (proj1 (NoDup_nth _ 0) Hnd) in E; cbn [List.length]; lia. }
  pose proof (Hne 0 1 ltac:(lia) ltac:(lia)) as H01.
  pose proof (Hne 0 2 ltac:(lia) ltac:(lia)) as H02.
  pose proof (Hne 0 3 ltac:(lia) ltac:(lia)) as H03.
  pose proof (Hne 0 4 ltac:(lia) ltac:(lia)) as H04.
  pose proof (Hne 0 5 ltac:(lia) ltac:(lia)) as H05.
  pose proof (Hne 1 2 ltac:(lia) ltac:(lia)) as H12.
  pose proof (Hne 1 3 ltac:(lia) ltac:(lia)) as H13.
  pose proof (Hne 1 4 ltac:(lia) ltac:(lia)) as H14.
  pose proof (Hne 1 5 ltac:(lia) ltac:(lia)) as H15.
  pose proof (Hne 2 3 ltac:(lia) ltac:(lia)) as H23.
  pose proof (Hne 2 4 ltac:(lia) ltac:(lia)) as H24.
  pose proof (Hne 2 5 ltac:(lia) ltac:(lia)) as H25.
  cbn [nth] in *. clear Hne.
  split.
  - apply merge_default_cfg_frame. cbn [In].
    destruct Hin as [[= <- <-] | [[= <- <-] | [[= <- <-] | []]]];
      intuition congruence.
  - intros k. unfold _merge_default_cfg. cbn [fold_left fst snd].
    destruct Hin as [[= <- <-] | [[= <- <-] | [[= <- <-] | []]]].
    + rewrite !(merge_into_frame (neck_config self)) by congruence.
      rewrite !(merge_into_frame (tr_config self)) by congruence.
      apply merge_into_lookup.
    + rewrite !(merge_into_frame (neck_config self)) by congruence.
      rewrite merge_into_lookup.
      rewrite !(merge_into_frame (gcn_config self)) by congruence.
      reflexivity.
    + rewrite merge_into_lookup.
      rewrite !(merge_into_frame (tr_config self)) by congruence.
      rewrite !(merge_into_frame (gcn_config self)) by congruence.
      reflexivity.
Qed.

Lemma fold_set_default_noop cfg items : forall h,
  (forall k, In k (dict_keys items) -> dict_contains k (h cfg) = true) ->
  fold_left (set_default cfg) items h = h.
Proof.
  induction items as [|[k0 v0] items IH]; intros h Hk; [reflexivity|].
  cbn [fold_left]. unfold set_default at 2.
  rewrite (Hk k0) by now left. cbn [negb].
  apply IH. intros k Hin. apply Hk. now right.
Qed.

(** X17.  When no configuration is one of the default dicts, merging a
    second time changes nothing. *)
Theorem merge_default_cfg_idempotent self h :
  (forall r, In r [default_gcn_config self; default_tr_config self;
                   default_neck_config self] ->
             ~ In r [gcn_config self; tr_config self; neck_config self]) ->
  _merge_default_cfg self (_merge_default_cfg self h)
  = _merge_default_cfg self h.
Proof.
  intros Hd. set (h' := _merge_default_cfg self h).
  assert (Hfill : forall cfg default_cfg,
            In (cfg, default_cfg) (tups self) ->
            merge_into cfg default_cfg h' = h').
  { intros cfg default_cfg Hin. apply fold_set_default_noop.
    intros k Hk. apply dict_contains_In in Hk.
    assert (Hsame : h' default_cfg = h default_cfg).
    { apply merge_default_cfg_frame. apply Hd. cbn [In].
      destruct Hin as [[= <- <-] | [[= <- <-] | [[= <- <-] | []]]]; auto. }
    rewrite Hsame in Hk.
    exact (merge_all_fills (tups self) h cfg default_cfg k Hin Hk). }
  unfold _merge_default_cfg at 1. cbn [fold_left fst snd].
  rewrite (Hfill (gcn_config self) (default_gcn_config self)) by (now left).
  rewrite (Hfill (tr_config self) (default_tr_config self))
    by (right; now left).
  apply Hfill. right; right; now left.
Qed.

(** X18.  With the class defaults as the class body writes them, every key
    the constructor reads after merging is present, whatever the caller
    passed: "type" and "graph_cfg" of the GCN configuration, "dim", "num_tr"
    and the encoder layer's keys of the transformer configuration, and the
    three keys of the neck configuration. *)
Theorem merge_default_cfg_required_keys self h :
  h (default_gcn_config self) = default_gcn_config_literal ->
  h (default_tr_config self) = default_tr_config_literal ->
  h (default_neck_config self) = default_neck_config_literal ->
  let h' := _merge_default_cfg self h in
  Forall (fun k => dict_contains k (h' (gcn_config self)) = true)
    ["type"; "graph_cfg"]%string /\
  Forall (fun k => dict_contains k (h' (tr_config self)) = true)
    ["dim"; "num_tr"; "heads"; "reduction"; "mlp_ratio"; "ln_type";
     "dropout"]%string /\
  Forall (fun k => dict_contains k (h' (neck_config self)) = true)
    ["granularity"; "embed_type"; "with_cls_token"]%string.
Proof.
  intros Hg Ht Hn h'.
  assert (Hfill : forall cfg default_cfg k,
            In (cfg, default_cfg) (tups self) ->
            dict_contains k (h default_cfg) = true ->
            dict_contains k (h' cfg) = true)
    by (intros cfg default_cfg k; apply merge_all_fills).
  split; [|split]; repeat constructor.
  all: try (apply (Hfill _ (default_gcn_config self));
            [now left | rewrite Hg; reflexivity]).
  all: try (apply (Hfill _ (default_tr_config self));
            [right; now left | rewrite Ht; reflexivity]).
  all: apply (Hfill _ (default_neck_config self));
    [right; right; now left | rewrite Hn; reflexivity].
Qed.

(** *** Instances *)

Lemma merge_default_cfg_lookup_witness :
  dict_get "type" (_merge_default_cfg example_net example_store 0)
  = Some (PStr "AAGCN") /\
  dict_get "graph_cfg" (_merge_default_cfg example_net example_store 0)
  = dict_get "graph_cfg" default_gcn_config_literal.
Proof.
  assert (Hnd : NoDup [gcn_config example_net; tr_config example_net;
                       neck_config example_net;
                       default_gcn_config example_net;
                       default_tr_config example_net;
                       default_neck_config example_net]).
  { repeat constructor; simpl; intuition discriminate. }
  destruct (merge_default_cfg_lookup example_net example_store Hnd 0 3
              (or_introl eq_refl)) as [_ H].
  split; [exact (H "type"%string) | exact (H "graph_cfg"%string)].
Defined.

Lemma merge_default_cfg_idempotent_witness :
  _merge_default_cfg example_net (_merge_default_cfg example_net example_store)
  = _merge_default_cfg example_net example_store.
Proof.
  apply merge_default_cfg_idempotent.
  intros r H1 H2. simpl in H1, H2.
  repeat match goal with
         | H : _ \/ _ |- _ => destruct H
         | H : _ = r |- _ => subst r
         end; try discriminate; contradiction.
Defined.

Lemma merge_default_cfg_required_keys_witness :
  dict_contains "num_tr" (_merge_default_cfg example_net example_store 1)
  = true.
Proof.
  destruct (merge_default_cfg_required_keys example_net example_store
              eq_refl eq_refl eq_refl) as [_ [H _]].
  inversion H as [|? ? _ H']. inversion H' as [|? ? Hk _]. exact Hk.
Defined.

End ConfigFacts.

(** ** [SkeleTR_neck]: granularity strings *)

Section GranularityFacts.
Import Ascii SkeleTR_neck.
Local Open Scope Z_scope.

Variable int : char -> option Z.
Hypothesis int_values : digit_values int.

Lemma spatial_of_some V c n :
  spatial_of V c = Some n ->
  (c = chr "1" /\ n = 1) \/ (c = chr "P" /\ n = 5) \/ (c = chr "V" /\ n = V).
Proof.
  unfold spatial_of.
  destruct (N.eqb_spec c (chr "1")); [intros [= <-]; auto|].
  destruct (N.eqb_spec c (chr "P")); [intros [= <-]; auto|].
  destruct (N.eqb_spec c (chr "V")); [intros [= <-]; auto|discriminate].
Qed.

(** [_count_g] with the defaults, by cases. *)
Lemma count_g_cases s :
  (_count_g int s 15 17 <> -1 <-> granule int s) /\
  (_count_g int s 15 17 = -1 \/ 0 <= _count_g int s 15 17 <= 255).
Proof.
  destruct int_values as [Hrange _].
  unfold _count_g, granule.
  destruct s as [|t [|p [|c s]]]; cbn [List.length Nat.eqb negb nth_error].
  1, 2, 4: split; [split; [congruence | intros [t' [p' [H _]]]; discriminate]
                  | now left].
  assert (Htemp : forall temporal spatial,
            (if N.eqb t (chr "T") then Some 15 else int t) = Some temporal ->
            spatial_of 17 p = Some spatial ->
            0 <= spatial * temporal <= 255).
  { intros temporal spatial Ht Hp.
    assert (0 <= temporal <= 15).
    { destruct (N.eqb t (chr "T")); [injection Ht as <-; lia|].
      pose proof (Hrange _ _ Ht). lia. }
    destruct (spatial_of_some _ _ _ Hp) as [[_ ->] | [[_ ->] | [_ ->]]]; lia. }
  destruct (if N.eqb t (chr "T") then Some 15 else int t)
    as [temporal|] eqn:Et.
  - destruct (spatial_of 17 p) as [spatial|] eqn:Ep.
    + pose proof (Htemp _ _ eq_refl eq_refl) as Hb.
      split; [|right; exact Hb]. split; [intros _|lia].
      exists t, p. split; [reflexivity|]. split.
      * destruct (N.eqb_spec t (chr "T")); [now left | right; eauto].
      * destruct (spatial_of_some _ _ _ Ep) as [[-> _] | [[-> _] | [-> _]]];
          auto.
    + split; [|now left]. split; [congruence|].
      intros [t' [p' [[= <- <-] [_ Hp]]]].
      destruct Hp as [-> | [-> | ->]]; discriminate.
  - split; [|now left]. split; [congruence|].
    intros [t' [p' [[= <- <-] [[-> | [n Hn]] _]]]].
    + discriminate.
    + destruct (N.eqb t (chr "T")); congruence.
Qed.

Lemma split_nonempty sep s : split sep s <> [].
Proof.
  destruct s as [|c s]; cbn [split]; [discriminate|].
  destruct (N.eqb c sep); [discriminate|].
  destruct (split sep s); discriminate.
Qed.

Lemma join_cons sep x xs :
  xs <> [] -> join sep (x :: xs) = x ++ sep ++ join sep xs.
Proof. destruct xs; [congruence | reflexivity]. Qed.

(** [split] and [join] are inverse to each other. *)
Lemma join_split sep s : join [sep] (split sep s) = s.
Proof.
  induction s as [|c s IH]; [reflexivity|]. cbn [split].
  destruct (N.eqb_spec c sep) as [->|Hc].
  - rewrite join_cons by apply split_nonempty.
    cbn [app]. now rewrite IH.
  - destruct (split sep s) as [|piece pieces] eqn:E.
    + now elim (split_nonempty sep s).
    + destruct pieces as [|q pieces].
      * cbn [join] in *. now rewrite IH.
      * rewrite (join_cons _ (c :: piece)) by discriminate.
        rewrite (join_cons _ piece) in IH by discriminate.
        cbn [app] in IH |- *. now rewrite IH.
Qed.

Lemma split_no_sep sep g : ~ In sep g -> split sep g = [g].
Proof.
  induction g as [|c g IH]; [reflexivity|]. cbn [split In].
  intros H. destruct (N.eqb_spec c sep) as [->|Hc]; [elim H; now left|].
  rewrite IH; [reflexivity | intros Hin; apply H; now right].
Qed.

Lemma split_app sep g rest :
  ~ In sep g -> split sep (g ++ sep :: rest) = g :: split sep rest.
Proof.
  induction g as [|c g IH]; cbn [app split In].
  - intros _. now rewrite N.eqb_refl.
  - intros H. destruct (N.eqb_spec c sep) as [->|Hc]; [elim H; now left|].
    rewrite IH; [reflexivity | intros Hin; apply H; now right].
Qed.

Lemma split_join sep grans :
  grans <> [] -> Forall (fun g => ~ In sep g) grans ->
  split sep (join [sep] grans) = grans.
Proof.
  induction grans as [|g grans IH]; [congruence|]. intros _ Hall.
  inversion Hall as [|? ? Hg Hrest]; subst.
  destruct grans as [|g' grans].
  - cbn [join]. now apply split_no_sep.
  - rewrite join_cons by discriminate. cbn [app].
    rewrite split_app by exact Hg. f_equal.
    apply IH; [discriminate | exact Hrest].
Qed.

Lemma granule_no_plus g : granule int g -> ~ In (chr "+") g.
Proof.
  destruct int_values as [_ Hplus].
  intros [t [p [-> [Ht Hp]]]] [E | [E | []]]; subst.
  - destruct Ht as [Ht | [n Hn]]; [discriminate | congruence].
  - destruct Hp as [Hp | [Hp | Hp]]; discriminate.
Qed.

Lemma all_counted_granules grans :
  all_counted int grans = true <-> Forall (granule int) grans.
Proof.
  induction grans as [|g grans IH]; cbn [all_counted].
  - split; [constructor | reflexivity].
  - pose proof (proj1 (count_g_cases g)) as Hg.
    destruct (Z.eqb_spec (_count_g int g 15 17) (-1)) as [E|E].
    + split; [discriminate|]. intros H. inversion H; subst.
      now apply Hg in H2.
    + rewrite IH. split; [intros H; constructor; tauto|].
      intros H; now inversion H.
Qed.

Lemma join_granules_length grans :
  grans <> [] -> Forall (granule int) grans ->
  (List.length (join [chr "+"] grans) + 1 = 3 * List.length grans)%nat.
Proof.
  induction grans as [|g grans IH]; [congruence|]. intros _ Hall.
  inversion Hall as [|? ? Hg Hrest]; subst.
  destruct Hg as [t [p [-> _]]].
  destruct grans as [|g' grans]; [reflexivity|].
  rewrite join_cons by discriminate.
  cbn [app List.length] in *.
  specialize (IH ltac:(discriminate) Hrest). lia.
Qed.

(** [_legal_g], by the pieces of the string. *)
Lemma legal_g_cases s :
  _legal_g int s = true <->
  exists grans,
    grans <> [] /\ Forall (granule int) grans /\ s = join [chr "+"] grans.
Proof.
  unfold _legal_g. rewrite all_counted_granules. split.
  - intros H. exists (split (chr "+") s). split; [apply split_nonempty|].
    split; [exact H | symmetry; apply join_split].
  - intros [grans [Hne [Hall ->]]].
    rewrite split_join; auto.
    eapply Forall_impl; [|exact Hall]. apply granule_no_plus.
Qed.

End GranularityFacts.

Section GranularityStrings.
Import Ascii SkeleTR_neck.

(** X19.  Whatever digits [int] knows, [_count_g] with its default [T] and
    [V] returns [-1] exactly on the strings that are not a granularity (two
    characters: [T] or a decimal digit of any script, then [1], [P] or
    [V]); on a granularity it returns a count between 0 and 255. *)
Theorem count_g_granule int s :
  digit_values int ->
  (_count_g int s 15 17 <> (-1)%Z <-> granule int s) /\
  (_count_g int s 15 17 = (-1)%Z \/
   (0 <= _count_g int s 15 17 <= 255)%Z).
Proof.
  intros Hint. destruct (count_g_cases int Hint s) as [Hiff Hrange].
  split; [exact Hiff | exact Hrange].
Qed.

(** X20.  [_legal_g] accepts exactly the strings that are one or more
    granularities joined by [+]; so the empty string, a leading, trailing or
    doubled [+] are refused, and an accepted string has length [3 n + 2]. *)
Theorem legal_g_iff int s :
  digit_values int ->
  (_legal_g int s = true <->
   exists grans,
     grans <> [] /\ Forall (granule int) grans /\
     s = join [chr "+"] grans) /\
  (_legal_g int s = true ->
   exists n, List.length s = 3 * n + 2).
Proof.
  intros Hint. pose proof (legal_g_cases int Hint s) as Hiff.
  split; [exact Hiff|].
  intros H. apply Hiff in H. destruct H as [grans [Hne [Hall ->]]].
  pose proof (join_granules_length int grans Hne Hall) as Hl.
  destruct grans as [|g grans]; [congruence|].
  exists (List.length grans). cbn [List.length] in Hl. lia.
Qed.

Lemma two_scripts_values : digit_values two_scripts_int.
Proof.
  split; [|reflexivity].
  intros c n. unfold two_scripts_int.
  destruct ((48 <=? c)%N && (c <=? 57)%N) eqn:E1.
  { intros [= <-]. apply andb_true_iff in E1.
    rewrite !N.leb_le in E1. lia. }
  destruct ((1632 <=? c)%N && (c <=? 1641)%N) eqn:E2; [|discriminate].
  intros [= <-]. apply andb_true_iff in E2. rewrite !N.leb_le in E2. lia.
Qed.

(** *** Instances *)

Lemma count_g_granule_witness :
  _count_g two_scripts_int [1635%N; 49%N] 15 17 <> (-1)%Z <->
  granule two_scripts_int [1635%N; 49%N].
Proof.
  exact (proj1 (count_g_granule two_scripts_int [1635%N; 49%N]
                  two_scripts_values)).
Defined.

Lemma legal_g_iff_witness :
  _legal_g two_scripts_int [84; 49; 43; 1635; 49]%N = true /\
  exists n, List.length [84; 49; 43; 1635; 49]%N = 3 * n + 2.
Proof.
  split; [reflexivity|].
  exact (proj2 (legal_g_iff two_scripts_int [84; 49; 43; 1635; 49]%N
                  two_scripts_values) eq_refl).
Defined.

End GranularityStrings.

(** ** [SkeleTR_neck]: joint parts *)

Section PartFacts.
Import Ascii SkeleTR_neck.
Local Open Scope Z_scope.

(** X21.  For each layout of [part_defn_dict] the parts partition the
    joints of the layout: every joint below the layout's number of joints is
    in exactly one part, and no other index is in any.  There are five
    parts for [coco] and [openpose] and six for [nturgb+d]. *)
Theorem part_defn_partition layout parts :
  part_defn_dict layout = Some parts ->
  exists joints,
    num_joint layout = Some joints /\
    (forall v, occurrences parts v = if (v <? joints)%nat then 1%nat else 0%nat) /\
    (List.length parts = if String.eqb layout "nturgb+d" then 6%nat else 5%nat).
Proof.
  unfold part_defn_dict, num_joint.
  destruct (String.eqb layout "coco") eqn:E1.
  { intros [= <-]. eexists; split; [reflexivity|].
    apply String.eqb_eq in E1; subst. split; [|reflexivity].
    intros v. do 17 (destruct v as [|v]; [reflexivity|]). reflexivity. }
  destruct (String.eqb layout "openpose") eqn:E2.
  { intros [= <-]. eexists; split; [reflexivity|].
    apply String.eqb_eq in E2; subst. split; [|reflexivity].
    intros v. do 18 (destruct v as [|v]; [reflexivity|]). reflexivity. }
  destruct (String.eqb layout "nturgb+d") eqn:E3; [|discriminate].
  intros [= <-]. eexists; split; [reflexivity|]. split; [|reflexivity].
  intros v. do 25 (destruct v as [|v]; [reflexivity|]). reflexivity.
Qed.

(** *** Instances *)

Lemma part_defn_partition_witness :
  exists joints,
    num_joint "coco" = Some joints /\
    (forall v,
       occurrences
         [[0; 1; 2; 3; 4]; [5; 7; 9]; [6; 8; 10]; [11; 13; 15];
          [12; 14; 16]]%nat v
       = if (v <? joints)%nat then 1%nat else 0%nat) /\
    (5 = 5)%nat.
Proof.
  exact (part_defn_partition "coco" _ eq_refl).
Defined.

End PartFacts.
